(** * harmony-go: the O200k tokenizer, the Harmony renderer and the streaming
    parser, embedded from the Go sources.

    Go strings are byte sequences: they are lists of [ascii] here, indices
    are [nat], bytes, runes and token ids ([uint32]) are [N]. *)

From Stdlib Require Import Ascii String DecimalString.
From Stdlib Require Import List NArith ZArith Arith Bool Lia Permutation.
Import ListNotations.

Set Implicit Arguments.

(** ** Go strings *)

Definition gostring := list ascii.
Abbreviation rune := N.
Abbreviation token := N.
Abbreviation Rank := N.

(** A string literal of the source. *)
Definition str (s : string) : gostring := list_ascii_of_string s.
Arguments str : simpl never.

(** [s[j]] *)
Definition byteAt (s : gostring) (j : nat) : N :=
  N_of_ascii (nth j s Ascii.zero).

(** [s[a:b]] and [s[a:]] *)
Definition slice (s : gostring) (a b : nat) : gostring :=
  firstn (b - a) (skipn a s).
Definition sliceFrom (s : gostring) (a : nat) : gostring := skipn a s.

Fixpoint gostring_eqb (a b : gostring) : bool :=
  match a, b with
  | [], [] => true
  | x :: a', y :: b' => Ascii.eqb x y && gostring_eqb a' b'
  | _, _ => false
  end.

Lemma gostring_eqb_eq (a b : gostring) : gostring_eqb a b = true <-> a = b.
Proof.
  revert b. induction a as [|x a IH]; intros [|y b]; simpl;
    try (split; congruence).
  rewrite andb_true_iff, Ascii.eqb_eq, IH.
  split; [intros [-> ->]; reflexivity|intros H; inversion H; auto].
Qed.

Lemma gostring_eqb_refl (a : gostring) : gostring_eqb a a = true.
Proof. now apply gostring_eqb_eq. Qed.

(** ** unicode/utf8 of the Go standard library *)

Definition RuneSelf : N := 128.
Definition RuneError : N := 65533.
Definition locb : N := 128.
Definition hicb : N := 191.

(** The table [first] of package utf8 together with [acceptRanges]: for a
    leading byte, the length of the sequence and the range accepted for the
    second byte; [None] is the entry [xx] of an invalid leading byte. *)
Definition first (s0 : N) : option (nat * N * N) :=
  if (s0 <? 194)%N then None
  else if (s0 <? 224)%N then Some (2, locb, hicb)
  else if (s0 =? 224)%N then Some (3, 160%N, hicb)
  else if (s0 <? 237)%N then Some (3, locb, hicb)
  else if (s0 =? 237)%N then Some (3, locb, 159%N)
  else if (s0 <? 240)%N then Some (3, locb, hicb)
  else if (s0 =? 240)%N then Some (4, 144%N, hicb)
  else if (s0 <? 244)%N then Some (4, locb, hicb)
  else if (s0 =? 244)%N then Some (4, locb, 143%N)
  else None.

Definition contb (b : N) : bool := ((b <? locb) || (hicb <? b))%N.

(** [utf8.DecodeRuneInString] *)
Definition DecodeRuneInString (s : gostring) : rune * nat :=
  match s with
  | [] => (RuneError, 0)
  | c0 :: _ =>
    let s0 := N_of_ascii c0 in
    if (s0 <? RuneSelf)%N then (s0, 1) else
    match first s0 with
    | None => (RuneError, 1)
    | Some (sz, lo, hi) =>
      if length s <? sz then (RuneError, 1) else
      let s1 := byteAt s 1 in
      if ((s1 <? lo) || (hi <? s1))%N then (RuneError, 1) else
      if sz <=? 2 then
        (N.lor (N.shiftl (N.land s0 31) 6) (N.land s1 63), 2)
      else
      let s2 := byteAt s 2 in
      if contb s2 then (RuneError, 1) else
      if sz <=? 3 then
        (N.lor (N.lor (N.shiftl (N.land s0 15) 12) (N.shiftl (N.land s1 63) 6))
               (N.land s2 63), 3)
      else
      let s3 := byteAt s 3 in
      if contb s3 then (RuneError, 1) else
      (N.lor (N.lor (N.lor (N.shiftl (N.land s0 7) 18)
                           (N.shiftl (N.land s1 63) 12))
                    (N.shiftl (N.land s2 63) 6))
             (N.land s3 63), 4)
    end
  end.

Lemma first_size (s0 : N) (sz : nat) (lo hi : N) :
  first s0 = Some (sz, lo, hi) -> 2 <= sz <= 4.
Proof.
  unfold first.
  repeat match goal with
         | |- context [if ?c then _ else _] => destruct c
         end; intros H; inversion H; lia.
Qed.

Lemma DecodeRuneInString_size (s : gostring) :
  s <> [] ->
  1 <= snd (DecodeRuneInString s) <= length s.
Proof.
  destruct s as [|c0 s']; [congruence|]. intros _.
  unfold DecodeRuneInString.
  set (s := c0 :: s').
  assert (Hlen : 1 <= length s) by (subst s; cbn [length]; lia).
  destruct (N_of_ascii c0 <? RuneSelf)%N; [cbn [snd]; lia|].
  destruct (first (N_of_ascii c0)) as [[[sz lo] hi]|] eqn:Hf; [|cbn [snd]; lia].
  apply first_size in Hf.
  destruct (length s <? sz) eqn:Hsz; [cbn [snd]; lia|].
  apply Nat.ltb_ge in Hsz.
  destruct ((byteAt s 1 <? lo) || (hi <? byteAt s 1))%N; [cbn [snd]; lia|].
  destruct (sz <=? 2) eqn:H2; [cbn [snd]; lia|].
  apply Nat.leb_gt in H2.
  destruct (contb (byteAt s 2)); [cbn [snd]; lia|].
  destruct (sz <=? 3) eqn:H3; [cbn [snd]; lia|].
  apply Nat.leb_gt in H3.
  destruct (contb (byteAt s 3)); cbn [snd]; lia.
Qed.

(** [unicode.IsSpace]: the code points of the White_Space property. *)
Definition unicodeIsSpace (r : rune) : bool :=
  ((9 <=? r) && (r <=? 13) || (r =? 32) || (r =? 133) || (r =? 160)
   || (r =? 5760) || (8192 <=? r) && (r <=? 8202) || (r =? 8232)
   || (r =? 8233) || (r =? 8239) || (r =? 8287) || (r =? 12288))%N.

(** ** tokenizer/segmenter.go *)

Definition isASCIISpace (b : N) : bool :=
  ((b =? 32) || (b =? 9) || (b =? 10) || (b =? 13) || (b =? 12) || (b =? 11))%N.

Definition isASCIILetter (b : N) : bool :=
  ((65 <=? b) && (b <=? 90) || (97 <=? b) && (b <=? 122))%N.

Definition isASCIIDigit (b : N) : bool := ((48 <=? b) && (b <=? 57))%N.

Definition CR : N := 13.
Definition LF : N := 10.
Definition isCRLF (b : N) : bool := ((b =? CR) || (b =? LF))%N.

Definition utf8DecodeRuneInString (s : gostring) : rune * nat :=
  DecodeRuneInString s.

Section Harmony.

(** The range tables [unicode.L], [unicode.M] and [unicode.N] of the Go
    standard library, as membership tests. *)
Variables unicodeL unicodeM unicodeN : rune -> bool.

Definition isL (r : rune) : bool := unicodeL r || unicodeM r.
Definition isN (r : rune) : bool := unicodeN r.
Definition isSpace (r : rune) : bool := unicodeIsSpace r.

(** The scanning loop every rule is written with:
<<
  for j < len(s) {
      b := s[j]
      if b < utf8.RuneSelf { if !pa(b) { break }; j++; flag = true; continue }
      r, sz := utf8DecodeRuneInString(s[j:])
      if !pr(r) { break }
      j += sz; flag = true
  }
>>
    It returns the index reached, the flag ([had], [have]: some iteration
    advanced) and whether the loop was left by [break]. *)
Fixpoint scan (pa : N -> bool) (pr : rune -> bool) (fuel : nat)
    (s : gostring) (j : nat) (flag : bool) : nat * bool * bool :=
  match fuel with
  | O => (j, flag, false)
  | S fuel' =>
    if j <? length s then
      let b := byteAt s j in
      if (b <? RuneSelf)%N then
        if negb (pa b) then (j, flag, true)
        else scan pa pr fuel' s (j + 1) true
      else
        let '(r, sz) := utf8DecodeRuneInString (sliceFrom s j) in
        if negb (pr r) then (j, flag, true)
        else scan pa pr fuel' s (j + sz) true
    else (j, flag, false)
  end.

Definition scanFrom (pa : N -> bool) (pr : rune -> bool)
    (s : gostring) (j : nat) : nat * bool * bool :=
  scan pa pr (length s - j) s j false.

Definition consumeLetterRun (s : gostring) (i : nat) : nat :=
  fst (fst (scanFrom isASCIILetter isL s i)).

Definition hasCaseInsensitiveSuffixAt (s : gostring) (i : nat)
    (suf : gostring) : bool :=
  if length s <? i + length suf then false
  else forallb (fun k => (N.lor (byteAt s (i + k)) 32 =? N.lor (byteAt suf k) 32)%N)
               (seq 0 (length suf)).

Definition contractions : list gostring :=
  [str "s"; str "t"; str "re"; str "ve"; str "m"; str "ll"; str "d"].

Definition matchContraction (s : gostring) (i : nat) : nat :=
  if (length s <=? i) || negb (byteAt s i =? 39)%N then i
  else match find (hasCaseInsensitiveSuffixAt s (i + 1)) contractions with
       | Some suf => i + 1 + length suf
       | None => i
       end.

Definition ruleLettersWithContraction (s : gostring) (i : nat) : nat :=
  let j := i in
  let e := consumeLetterRun s j in
  if j <? e then
    let j := e in
    let e2 := matchContraction s j in
    if j <? e2 then e2 else j
  else i.

Definition ruleLettersWithPrefixAndContraction (s : gostring) (i : nat) : nat :=
  let j := i in
  let '(r, sz) :=
    if (128 <=? byteAt s j)%N then utf8DecodeRuneInString (sliceFrom s j)
    else (byteAt s j, 1) in
  if negb (negb (isSpace r) && negb (isL r) && negb (isN r)) then
    ruleLettersWithContraction s i
  else
    let j := j + sz in
    let e := consumeLetterRun s j in
    if j <? e then
      let j := e in
      let e2 := matchContraction s j in
      if j <? e2 then e2 else j
    else i.

(** The loop of [ruleNumbers], which also counts. *)
Fixpoint ruleNumbers_loop (fuel : nat) (s : gostring) (j count : nat)
    : nat * nat :=
  match fuel with
  | O => (j, count)
  | S fuel' =>
    if j <? length s then
      let b := byteAt s j in
      if (b <? RuneSelf)%N then
        if negb (isASCIIDigit b) || (3 <=? count) then (j, count)
        else ruleNumbers_loop fuel' s (j + 1) (count + 1)
      else
        let '(r, sz) := utf8DecodeRuneInString (sliceFrom s j) in
        if negb (isN r) || (3 <=? count) then (j, count)
        else ruleNumbers_loop fuel' s (j + sz) (count + 1)
    else (j, count)
  end.

Definition ruleNumbers (s : gostring) (i : nat) : nat :=
  let '(j, count) := ruleNumbers_loop (length s - i) s i 0 in
  if 0 <? count then j else i.

Definition rulePunctRun (s : gostring) (i : nat) : nat :=
  let j := i in
  let j :=
    if j <? length s then
      let b := byteAt s j in
      if (b <? RuneSelf)%N then (if isASCIISpace b then j + 1 else j)
      else let '(r, sz) := utf8DecodeRuneInString (sliceFrom s j) in
           if isSpace r then j + sz else j
    else j in
  let '(j, had, _) :=
    scanFrom (fun b => negb (isASCIISpace b || isASCIILetter b || isASCIIDigit b))
             (fun r => negb (isSpace r || isL r || isN r)) s j in
  if negb had then i
  else
    if j <? length s then
      let b := byteAt s j in
      if (b <? RuneSelf)%N then
        (if ((b =? CR) || (b =? LF) || (b =? 47))%N then j + 1 else j)
      else let '(r, sz) := utf8DecodeRuneInString (sliceFrom s j) in
           (if ((r =? CR) || (r =? LF) || (r =? 47))%N then j + sz else j)
    else j.

Definition ruleNewlines (s : gostring) (i : nat) : nat :=
  let j := i in
  let '(j, _, _) :=
    scanFrom (fun b => negb (negb (isASCIISpace b) || (b =? CR) || (b =? LF))%N)
             (fun r => negb (negb (isSpace r) || (r =? CR) || (r =? LF))%N) s j in
  let '(j, have, _) := scanFrom isCRLF isCRLF s j in
  if negb have then i
  else
    let '(j, _, _) := scanFrom isCRLF isCRLF s j in
    j.

Definition ruleWhitespace (s : gostring) (i : nat) : nat :=
  let '(j, _, _) := scanFrom isASCIISpace isSpace s i in
  if i <? j then j else i.

(** [o200kSegmenter.Next] *)
Definition Next (s : gostring) (i : nat) : nat :=
  if length s <=? i then i
  else
    let '(_, _, broke) := scanFrom isASCIISpace isSpace s i in
    let allWS := negb broke in
    if allWS then length s
    else
      let e := ruleLettersWithPrefixAndContraction s i in
      if i <? e then e else
      let e := ruleLettersWithContraction s i in
      if i <? e then e else
      let e := ruleNumbers s i in
      if i <? e then e else
      let e := rulePunctRun s i in
      if i <? e then e else
      let e := ruleNewlines s i in
      if i <? e then e else
      let e := ruleWhitespace s i in
      if i <? e then e else
      i + 1.

(** *** Bounds of the segmenter *)

Lemma decode_suffix_size (s : gostring) (j : nat) :
  j < length s ->
  1 <= snd (utf8DecodeRuneInString (sliceFrom s j)) <= length s - j.
Proof.
  intros Hj. unfold utf8DecodeRuneInString, sliceFrom.
  rewrite <- (length_skipn j s).
  apply DecodeRuneInString_size.
  intros H. apply (f_equal (@length ascii)) in H.
  rewrite length_skipn in H. simpl in H. lia.
Qed.

Lemma scan_bounds (pa : N -> bool) (pr : rune -> bool) (fuel : nat)
    (s : gostring) :
  forall (j : nat) (flag : bool), j <= length s ->
    j <= fst (fst (scan pa pr fuel s j flag)) <= length s.
Proof.
  induction fuel as [|fuel IH]; intros j flag Hj; simpl; [lia|].
  destruct (j <? length s) eqn:Hlt; [|simpl; lia].
  apply Nat.ltb_lt in Hlt.
  destruct (byteAt s j <? RuneSelf)%N.
  - destruct (negb (pa (byteAt s j))); [simpl; lia|].
    specialize (IH (j + 1) true). lia.
  - pose proof (decode_suffix_size s Hlt) as Hsz.
    destruct (utf8DecodeRuneInString (sliceFrom s j)) as [r sz].
    simpl in Hsz.
    destruct (negb (pr r)); [simpl; lia|].
    specialize (IH (j + sz) true). lia.
Qed.

(** The flag is set exactly when the loop advanced. *)
Lemma scan_flag (pa : N -> bool) (pr : rune -> bool) (fuel : nat)
    (s : gostring) :
  forall (j : nat), j <= length s ->
    snd (fst (scan pa pr fuel s j false)) = true ->
    j < fst (fst (scan pa pr fuel s j false)).
Proof.
  destruct fuel as [|fuel]; intros j Hj; simpl; [discriminate|].
  destruct (j <? length s) eqn:Hlt; [|simpl; discriminate].
  apply Nat.ltb_lt in Hlt.
  destruct (byteAt s j <? RuneSelf)%N.
  - destruct (negb (pa (byteAt s j))); [simpl; discriminate|].
    intros _. pose proof (@scan_bounds pa pr fuel s (j + 1) true). lia.
  - pose proof (decode_suffix_size s Hlt) as Hsz.
    destruct (utf8DecodeRuneInString (sliceFrom s j)) as [r sz].
    simpl in Hsz.
    destruct (negb (pr r)); [simpl; discriminate|].
    intros _. pose proof (@scan_bounds pa pr fuel s (j + sz) true). lia.
Qed.

(** With the fuel [len(s) - j] the loop is never cut short: when it stops
    without [break], the whole string was scanned. *)
Lemma scan_complete (pa : N -> bool) (pr : rune -> bool) (fuel : nat)
    (s : gostring) :
  forall (j : nat) (flag : bool), length s - j <= fuel ->
    snd (scan pa pr fuel s j flag) = false ->
    length s <= fst (fst (scan pa pr fuel s j flag)).
Proof.
  induction fuel as [|fuel IH]; intros j flag Hf; simpl; [lia|].
  destruct (j <? length s) eqn:Hlt; [|apply Nat.ltb_ge in Hlt; simpl; lia].
  apply Nat.ltb_lt in Hlt.
  destruct (byteAt s j <? RuneSelf)%N.
  - destruct (negb (pa (byteAt s j))); [simpl; discriminate|].
    apply IH. lia.
  - pose proof (decode_suffix_size s Hlt) as Hsz.
    destruct (utf8DecodeRuneInString (sliceFrom s j)) as [r sz].
    simpl in Hsz.
    destruct (negb (pr r)); [simpl; discriminate|].
    apply IH. lia.
Qed.

Lemma scanFrom_bounds (pa : N -> bool) (pr : rune -> bool)
    (s : gostring) (j : nat) :
  j <= length s ->
  j <= fst (fst (scanFrom pa pr s j)) <= length s.
Proof. intros H. unfold scanFrom. now apply scan_bounds. Qed.

Lemma consumeLetterRun_le (s : gostring) (i : nat) :
  i <= length s -> consumeLetterRun s i <= length s.
Proof. intros H. unfold consumeLetterRun. now apply scanFrom_bounds. Qed.

Lemma hasCaseInsensitiveSuffixAt_le (s : gostring) (i : nat) (suf : gostring) :
  hasCaseInsensitiveSuffixAt s i suf = true -> i + length suf <= length s.
Proof.
  unfold hasCaseInsensitiveSuffixAt.
  destruct (length s <? i + length suf) eqn:H; [discriminate|].
  intros _. now apply Nat.ltb_ge in H.
Qed.

Lemma matchContraction_le (s : gostring) (i : nat) :
  i <= length s -> matchContraction s i <= length s.
Proof.
  intros Hi. unfold matchContraction.
  destruct ((length s <=? i) || negb (byteAt s i =? 39)%N); [lia|].
  destruct (find _ contractions) as [suf|] eqn:Hfind; [|lia].
  apply find_some in Hfind. destruct Hfind as [_ H].
  apply hasCaseInsensitiveSuffixAt_le in H. lia.
Qed.

Lemma ruleLettersWithContraction_le (s : gostring) (i : nat) :
  i <= length s -> ruleLettersWithContraction s i <= length s.
Proof.
  intros Hi. unfold ruleLettersWithContraction.
  pose proof (consumeLetterRun_le s Hi) as H1.
  pose proof (matchContraction_le s H1) as H2.
  destruct (i <? consumeLetterRun s i); [|lia].
  destruct (_ <? _); lia.
Qed.

Lemma ruleLettersWithPrefixAndContraction_le (s : gostring) (i : nat) :
  i < length s -> ruleLettersWithPrefixAndContraction s i <= length s.
Proof.
  intros Hi. unfold ruleLettersWithPrefixAndContraction.
  assert (Hsz : forall r sz,
    (if (128 <=? byteAt s i)%N then utf8DecodeRuneInString (sliceFrom s i)
     else (byteAt s i, 1)) = (r, sz) -> i + sz <= length s).
  { intros r sz. destruct (128 <=? byteAt s i)%N; intros H.
    - pose proof (decode_suffix_size s Hi) as Hd. rewrite H in Hd.
      simpl in Hd. lia.
    - inversion H. lia. }
  destruct (if (128 <=? byteAt s i)%N then _ else _) as [r sz].
  specialize (Hsz r sz eq_refl).
  destruct (negb _).
  - apply ruleLettersWithContraction_le. lia.
  - pose proof (consumeLetterRun_le s Hsz) as H1.
    pose proof (matchContraction_le s H1) as H2.
    destruct (i + sz <? consumeLetterRun s (i + sz)); [|lia].
    destruct (_ <? _); lia.
Qed.

Lemma ruleNumbers_loop_le (fuel : nat) (s : gostring) :
  forall (j count : nat), j <= length s ->
    fst (ruleNumbers_loop fuel s j count) <= length s.
Proof.
  induction fuel as [|fuel IH]; intros j count Hj; simpl; [lia|].
  destruct (j <? length s) eqn:Hlt; [|simpl; lia].
  apply Nat.ltb_lt in Hlt.
  destruct (byteAt s j <? RuneSelf)%N.
  - destruct (_ || _); [simpl; lia|]. apply IH. lia.
  - pose proof (decode_suffix_size s Hlt) as Hsz.
    destruct (utf8DecodeRuneInString (sliceFrom s j)) as [r sz].
    simpl in Hsz.
    destruct (_ || _); [simpl; lia|]. apply IH. lia.
Qed.

Lemma ruleNumbers_le (s : gostring) (i : nat) :
  i <= length s -> ruleNumbers s i <= length s.
Proof.
  intros Hi. unfold ruleNumbers.
  pose proof (@ruleNumbers_loop_le (length s - i) s i 0 Hi) as H.
  destruct (ruleNumbers_loop (length s - i) s i 0) as [j count].
  simpl in H. destruct (0 <? count); lia.
Qed.

Lemma rulePunctRun_le (s : gostring) (i : nat) :
  i <= length s -> rulePunctRun s i <= length s.
Proof.
  intros Hi. unfold rulePunctRun.
  set (j0 := if i <? length s then _ else i).
  assert (Hj0 : j0 <= length s).
  { subst j0. destruct (i <? length s) eqn:Hlt; [|lia].
    apply Nat.ltb_lt in Hlt.
    destruct (byteAt s i <? RuneSelf)%N.
    - destruct (isASCIISpace _); lia.
    - pose proof (decode_suffix_size s Hlt) as Hsz.
      destruct (utf8DecodeRuneInString (sliceFrom s i)) as [r sz].
      simpl in Hsz. destruct (isSpace r); lia. }
  pose proof (@scanFrom_bounds
    (fun b => negb (isASCIISpace b || isASCIILetter b || isASCIIDigit b))
    (fun r => negb (isSpace r || isL r || isN r)) s j0 Hj0) as Hb.
  destruct (scanFrom _ _ s j0) as [[j had] broke]. simpl in Hb.
  destruct (negb had); [lia|].
  destruct (j <? length s) eqn:Hlt; [|lia].
  apply Nat.ltb_lt in Hlt.
  destruct (byteAt s j <? RuneSelf)%N.
  - destruct (_ || _)%N; lia.
  - pose proof (decode_suffix_size s Hlt) as Hsz.
    destruct (utf8DecodeRuneInString (sliceFrom s j)) as [r sz].
    simpl in Hsz. destruct (_ || _)%N; lia.
Qed.

Lemma ruleNewlines_le (s : gostring) (i : nat) :
  i <= length s -> ruleNewlines s i <= length s.
Proof.
  intros Hi. unfold ruleNewlines.
  match goal with |- context [scanFrom ?pa ?pr s i] =>
    pose proof (@scanFrom_bounds pa pr s i Hi) as H1;
    destruct (scanFrom pa pr s i) as [[j1 f1] b1] end.
  simpl in H1.
  assert (Hj1 : j1 <= length s) by lia.
  pose proof (@scanFrom_bounds isCRLF isCRLF s j1 Hj1) as H2.
  destruct (scanFrom isCRLF isCRLF s j1) as [[j2 have] b2]. simpl in H2.
  destruct (negb have); [lia|].
  assert (Hj2 : j2 <= length s) by lia.
  pose proof (@scanFrom_bounds isCRLF isCRLF s j2 Hj2) as H3.
  destruct (scanFrom isCRLF isCRLF s j2) as [[j3 f3] b3]. simpl in H3. lia.
Qed.

Lemma ruleWhitespace_le (s : gostring) (i : nat) :
  i <= length s -> ruleWhitespace s i <= length s.
Proof.
  intros Hi. unfold ruleWhitespace.
  pose proof (@scanFrom_bounds isASCIISpace isSpace s i Hi) as H.
  destruct (scanFrom isASCIISpace isSpace s i) as [[j f] b]. simpl in H.
  destruct (i <? j); lia.
Qed.

(** The segmenter never returns an index past the end of the string, so the
    slice [text[start:end]] of the encoder is always in range. *)
Lemma Next_le_len (s : gostring) (i : nat) :
  i <= length s -> Next s i <= length s.
Proof.
  intros Hi. unfold Next.
  destruct (length s <=? i) eqn:Hge; [lia|].
  apply Nat.leb_gt in Hge.
  destruct (scanFrom isASCIISpace isSpace s i) as [[j f] broke].
  destruct (negb broke); [lia|].
  pose proof (ruleLettersWithPrefixAndContraction_le s Hge).
  pose proof (ruleLettersWithContraction_le s Hi).
  pose proof (ruleNumbers_le s Hi).
  pose proof (rulePunctRun_le s Hi).
  pose proof (ruleNewlines_le s Hi).
  pose proof (ruleWhitespace_le s Hi).
  repeat match goal with
         | |- context [if ?c then _ else _] => destruct c; [lia|]
         end.
  lia.
Qed.

Lemma Next_gt (s : gostring) (i : nat) :
  i < length s -> i < Next s i.
Proof.
  intros Hi. unfold Next.
  destruct (length s <=? i) eqn:Hge; [apply Nat.leb_le in Hge; lia|].
  destruct (scanFrom isASCIISpace isSpace s i) as [[j f] broke].
  destruct (negb broke); [lia|].
  repeat match goal with
         | |- context [if ?c then _ else _] =>
             let H := fresh "H" in
             destruct c eqn:H; [apply Nat.ltb_lt in H; exact H|]
         end.
  lia.
Qed.

(** *** The fuel of the loops is enough

    Every pass of a scanning loop moves the index forward, so that the fuel
    [len(s) - j] is never used up: more fuel gives the same result. *)

Lemma scan_fuel (pa : N -> bool) (pr : rune -> bool) (s : gostring)
    (fuel : nat) :
  forall (j : nat) (flag : bool), length s - j <= fuel ->
    scan pa pr (S fuel) s j flag = scan pa pr fuel s j flag.
Proof.
  induction fuel as [|fuel IH]; intros j flag Hf.
  - cbn [scan]. destruct (j <? length s) eqn:Hlt; [|reflexivity].
    apply Nat.ltb_lt in Hlt. lia.
  - change (scan pa pr (S (S fuel)) s j flag) with
      (if j <? length s then
         let b := byteAt s j in
         if (b <? RuneSelf)%N then
           if negb (pa b) then (j, flag, true)
           else scan pa pr (S fuel) s (j + 1) true
         else
           let '(r, sz) := utf8DecodeRuneInString (sliceFrom s j) in
           if negb (pr r) then (j, flag, true)
           else scan pa pr (S fuel) s (j + sz) true
       else (j, flag, false)).
    change (scan pa pr (S fuel) s j flag) with
      (if j <? length s then
         let b := byteAt s j in
         if (b <? RuneSelf)%N then
           if negb (pa b) then (j, flag, true)
           else scan pa pr fuel s (j + 1) true
         else
           let '(r, sz) := utf8DecodeRuneInString (sliceFrom s j) in
           if negb (pr r) then (j, flag, true)
           else scan pa pr fuel s (j + sz) true
       else (j, flag, false)).
    destruct (j <? length s) eqn:Hlt; [|reflexivity].
    apply Nat.ltb_lt in Hlt. cbv zeta.
    destruct (byteAt s j <? RuneSelf)%N.
    + destruct (negb (pa (byteAt s j))); [reflexivity|].
      apply IH. lia.
    + pose proof (decode_suffix_size s Hlt) as Hsz.
      destruct (utf8DecodeRuneInString (sliceFrom s j)) as [r sz].
      cbn [snd] in Hsz.
      destruct (negb (pr r)); [reflexivity|].
      apply IH. lia.
Qed.

Lemma ruleNumbers_loop_fuel (s : gostring) (fuel : nat) :
  forall (j count : nat), length s - j <= fuel ->
    ruleNumbers_loop (S fuel) s j count = ruleNumbers_loop fuel s j count.
Proof.
  induction fuel as [|fuel IH]; intros j count Hf.
  - cbn [ruleNumbers_loop]. destruct (j <? length s) eqn:Hlt; [|reflexivity].
    apply Nat.ltb_lt in Hlt. lia.
  - change (ruleNumbers_loop (S (S fuel)) s j count) with
      (if j <? length s then
         let b := byteAt s j in
         if (b <? RuneSelf)%N then
           if negb (isASCIIDigit b) || (3 <=? count) then (j, count)
           else ruleNumbers_loop (S fuel) s (j + 1) (count + 1)
         else
           let '(r, sz) := utf8DecodeRuneInString (sliceFrom s j) in
           if negb (isN r) || (3 <=? count) then (j, count)
           else ruleNumbers_loop (S fuel) s (j + sz) (count + 1)
       else (j, count)).
    change (ruleNumbers_loop (S fuel) s j count) with
      (if j <? length s then
         let b := byteAt s j in
         if (b <? RuneSelf)%N then
           if negb (isASCIIDigit b) || (3 <=? count) then (j, count)
           else ruleNumbers_loop fuel s (j + 1) (count + 1)
         else
           let '(r, sz) := utf8DecodeRuneInString (sliceFrom s j) in
           if negb (isN r) || (3 <=? count) then (j, count)
           else ruleNumbers_loop fuel s (j + sz) (count + 1)
       else (j, count)).
    destruct (j <? length s) eqn:Hlt; [|reflexivity].
    apply Nat.ltb_lt in Hlt. cbv zeta.
    destruct (byteAt s j <? RuneSelf)%N.
    + destruct (_ || _); [reflexivity|]. apply IH. lia.
    + pose proof (decode_suffix_size s Hlt) as Hsz.
      destruct (utf8DecodeRuneInString (sliceFrom s j)) as [r sz].
      cbn [snd] in Hsz.
      destruct (_ || _); [reflexivity|]. apply IH. lia.
Qed.

(** At or past the end of the string [Next] gives its index back. *)
Lemma Next_at_end (s : gostring) (i : nat) :
  length s <= i -> Next s i = i.
Proof.
  intros H. unfold Next. apply Nat.leb_le in H. now rewrite H.
Qed.

(** C6.  The segmenter makes progress wherever there is input
    left: for every string and every index below its length the index
    returned is strictly greater, and not past the end.  (At or past the
    end, [Next] returns the index it was given.) *)
Theorem segmenter_progress (s : gostring) (i : nat) :
  i < length s -> i < Next s i <= length s.
Proof.
  intros Hi. split.
  - now apply Next_gt.
  - apply Next_le_len. lia.
Qed.

(** ** Go maps

    A [map[K]V] is an association list read at its first match; an
    assignment [m[k] = v] shadows earlier entries. *)

Fixpoint mapGet (K V : Type) (eqb : K -> K -> bool) (m : list (K * V)) (k : K)
    : option V :=
  match m with
  | [] => None
  | (k', v) :: m' => if eqb k' k then Some v else mapGet eqb m' k
  end.

Definition mapSet (K V : Type) (m : list (K * V)) (k : K) (v : V)
    : list (K * V) := (k, v) :: m.

(** [l[i] = f(l[i])]; the callers keep [i] in range. *)
Fixpoint updAt (A : Type) (l : list A) (i : nat) (f : A -> A) : list A :=
  match l, i with
  | [], _ => []
  | x :: l', O => f x :: l'
  | x :: l', S i' => x :: updAt l' i' f
  end.

(** ** tokenizer/decoder_store_heap.go *)


Record heapStore := { arr : list (option gostring) }.

Definition newTokenStore (pairs : list (gostring * Rank)) : heapStore :=
  let maxID := fold_left (fun m p => if (m <? snd p)%N then snd p else m) pairs 0%N in
  let size := N.to_nat maxID + 1 in
  let tmp := repeat (@None gostring) size in
  {| arr := fold_left
       (fun tmp p =>
          match nth (N.to_nat (snd p)) tmp None with
          | None => updAt tmp (N.to_nat (snd p)) (fun _ => Some (fst p))
          | Some _ => tmp
          end) pairs tmp |}.

(** [AppendInto]: [None] is the result [false], [dst] untouched. *)
Definition AppendInto (s : heapStore) (dst : gostring) (id : token)
    : option gostring :=
  if length (arr s) <=? N.to_nat id then None
  else match nth (N.to_nat id) (arr s) None with
       | None => None
       | Some b => Some (dst ++ b)
       end.

(** ** tokenizer/bpe.go *)

Definition maxRank : Rank := 4294967295%N.

Record coreBPE := {
  enc : list (gostring * Rank);
  dec : heapStore;
  specialEnc : list (gostring * Rank);
  specialDec : list (Rank * gostring)
}.

(** [newCoreBPE]; the maps are filled in the order of [encoderPairs], and of
    [specials] (a Go map, whose keys and ids are pairwise distinct). *)
Definition newCoreBPE (encoderPairs : list (gostring * Rank))
    (specials : list (gostring * Rank)) : coreBPE :=
  {| enc := fold_left (fun m p => mapSet m (fst p) (snd p)) encoderPairs [];
     dec := newTokenStore encoderPairs;
     specialEnc := fold_left (fun m p => mapSet m (fst p) (snd p)) specials [];
     specialDec := fold_left (fun m p => mapSet m (snd p) (fst p)) specials [] |}.

Definition encGet (b : coreBPE) (k : gostring) : option Rank :=
  mapGet gostring_eqb (enc b) k.

(** [b.enc[k]] read without the [ok] result: the zero value when absent. *)
Definition encAt (b : coreBPE) (k : gostring) : Rank :=
  match encGet b k with Some r => r | None => 0%N end.

(** [DecodeBytesInto]: [None] is the error "invalid token for decoding". *)
Fixpoint DecodeBytesInto (b : coreBPE) (dst : gostring) (tokens : list token)
    : option gostring :=
  match tokens with
  | [] => Some dst
  | t :: rest =>
    match AppendInto (dec b) dst t with
    | Some buf => DecodeBytesInto b buf rest
    | None =>
      match mapGet N.eqb (specialDec b) t with
      | Some v => DecodeBytesInto b (dst ++ v) rest
      | None => None
      end
    end
  end.

Definition DecodeBytes (b : coreBPE) (tokens : list token) : option gostring :=
  DecodeBytesInto b [] tokens.

(** [DecodeUTF8] converts the bytes with [string(bs)], which checks nothing. *)
Definition DecodeUTF8 (b : coreBPE) (tokens : list token) : option gostring :=
  DecodeBytes b tokens.

Definition IsSpecialToken (b : coreBPE) (id : token) : bool :=
  match mapGet N.eqb (specialDec b) id with Some _ => true | None => false end.

Definition setMem (allowed : list gostring) (lit : gostring) : bool :=
  existsb (gostring_eqb lit) allowed.

Definition matchSpecialAt (b : coreBPE) (s : gostring) (i : nat)
    (allowed : list gostring) : token * nat :=
  let '(maxLen, id) :=
    fold_left
      (fun (acc : nat * token) (e : gostring * Rank) =>
         let '(maxLen, id) := acc in
         let '(lit, tok) := e in
         if negb (setMem allowed lit) then acc
         else if length s - i <? length lit then acc
         else if gostring_eqb (slice s i (i + length lit)) lit
                 && (maxLen <? length lit)
              then (length lit, tok) else acc)
      (specialEnc b) (0, 0%N) in
  if maxLen =? 0 then (0%N, 0) else (id, maxLen).

Record part := { start : nat; rank : Rank }.

Definition partAt (parts : list part) (i : nat) : part :=
  nth i parts {| start := 0; rank := 0%N |}.

Definition getRank (b : coreBPE) (piece : gostring) (parts : list part)
    (i : nat) : Rank :=
  if i + 3 <? length parts then
    match encGet b (slice piece (start (partAt parts i))
                               (start (partAt parts (i + 3)))) with
    | Some r => r
    | None => maxRank
    end
  else maxRank.

Definition setRank (parts : list part) (i : nat) (r : Rank) : list part :=
  updAt parts i (fun p => {| start := start p; rank := r |}).

(** The scan for the lowest rank: [for j := 0; j < len(parts)-1; j++].
    [idx] starts at -1 in the source and is read only when a rank below the
    sentinel was found, so that a [nat] holds it. *)
Definition findMin (parts : list part) : Rank * nat :=
  fold_left
    (fun (m : Rank * nat) j =>
       if (rank (partAt parts j) <? fst m)%N then (rank (partAt parts j), j)
       else m)
    (seq 0 (length parts - 1)) (maxRank, 0).

Fixpoint merge_loop (fuel : nat) (b : coreBPE) (piece : gostring)
    (parts : list part) (minRank : Rank * nat) : list part :=
  match fuel with
  | O => parts
  | S fuel' =>
    if (fst minRank =? maxRank)%N then parts
    else
      let i := snd minRank in
      let parts :=
        if 0 <? i then setRank parts (i - 1) (getRank b piece parts (i - 1))
        else parts in
      let parts := setRank parts i (getRank b piece parts i) in
      let parts := firstn (i + 1) parts ++ skipn (i + 2) parts in
      merge_loop fuel' b piece parts (findMin parts)
  end.

(** The first loop of [bytePairMerge]: the parts [0 .. len(piece)-2] and the
    lowest rank among them. *)
Definition initParts (b : coreBPE) (piece : gostring)
    : list part * (Rank * nat) :=
  fold_left
    (fun (acc : list part * (Rank * nat)) i =>
       let '(parts, minRank) := acc in
       let r := match encGet b (slice piece i (i + 2)) with
                | Some r => r
                | None => maxRank
                end in
       let minRank := if (r <? fst minRank)%N then (r, i) else minRank in
       (parts ++ [{| start := i; rank := r |}], minRank))
    (seq 0 (length piece - 1)) ([], (maxRank, 0)).

(** [bytePairMerge]; reached with [len(piece) >= 2] only.  Every pass of the
    merging loop removes one part, hence the fuel. *)
Definition bytePairMerge (b : coreBPE) (piece : gostring) : list part :=
  let '(parts, minRank) := initParts b piece in
  let parts := parts ++ [{| start := length piece - 1; rank := maxRank |}] in
  let parts := parts ++ [{| start := length piece; rank := maxRank |}] in
  merge_loop (length piece) b piece parts minRank.

Definition bytePairEncode (b : coreBPE) (piece : gostring) : list token :=
  if length piece =? 1 then [encAt b piece]
  else
    let parts := bytePairMerge b piece in
    map (fun w => encAt b (slice piece (start (partAt parts w))
                                       (start (partAt parts (w + 1)))))
        (seq 0 (length parts - 1)).


(** The loop shared by [Encode] and its in-place variant [encodeInto]. *)
Fixpoint encodeLoop (fuel : nat) (b : coreBPE) (text : gostring)
    (allowedSpecial : list gostring) (i : nat) (out : list token)
    (lastPieceLen : nat) : list token * nat :=
  match fuel with
  | O => (out, lastPieceLen)
  | S fuel' =>
    if i <? length text then
      let hasSpecials := 0 <? length allowedSpecial in
      let '(tok, n) :=
        if hasSpecials then matchSpecialAt b text i allowedSpecial
        else (0%N, 0) in
      if hasSpecials && (0 <? n) then
        encodeLoop fuel' b text allowedSpecial (i + n) (out ++ [tok]) 0
      else
        let start := i in
        let e := Next text i in
        let e := if e <=? start then start + 1 else e in
        let piece := slice text start e in
        match encGet b piece with
        | Some id =>
          encodeLoop fuel' b text allowedSpecial e (out ++ [id]) 1
        | None =>
          let toks := bytePairEncode b piece in
          encodeLoop fuel' b text allowedSpecial e (out ++ toks) (length toks)
        end
    else (out, lastPieceLen)
  end.

(** Every pass of the encoding loop moves [i] forward, so the fuel
    [len(text)] is never used up. *)
Lemma encodeLoop_S (fuel : nat) (b : coreBPE) (text : gostring)
    (allowedSpecial : list gostring) (i : nat) (out : list token)
    (lastPieceLen : nat) :
  encodeLoop (S fuel) b text allowedSpecial i out lastPieceLen =
  if i <? length text then
    let hasSpecials := 0 <? length allowedSpecial in
    let '(tok, n) :=
      if hasSpecials then matchSpecialAt b text i allowedSpecial
      else (0%N, 0) in
    if hasSpecials && (0 <? n) then
      encodeLoop fuel b text allowedSpecial (i + n) (out ++ [tok]) 0
    else
      let start := i in
      let e := Next text i in
      let e := if e <=? start then start + 1 else e in
      let piece := slice text start e in
      match encGet b piece with
      | Some id => encodeLoop fuel b text allowedSpecial e (out ++ [id]) 1
      | None =>
        let toks := bytePairEncode b piece in
        encodeLoop fuel b text allowedSpecial e (out ++ toks) (length toks)
      end
  else (out, lastPieceLen).
Proof. reflexivity. Qed.

Lemma encodeLoop_fuel (b : coreBPE) (text : gostring)
    (allowedSpecial : list gostring) (fuel : nat) :
  forall (i : nat) (out : list token) (lp : nat),
    length text - i <= fuel ->
    encodeLoop (S fuel) b text allowedSpecial i out lp
    = encodeLoop fuel b text allowedSpecial i out lp.
Proof.
  induction fuel as [|fuel IH]; intros i out lp Hf.
  - rewrite encodeLoop_S. cbn [encodeLoop].
    destruct (i <? length text) eqn:Hlt; [|reflexivity].
    apply Nat.ltb_lt in Hlt. lia.
  - rewrite (encodeLoop_S (S fuel)), (encodeLoop_S fuel b text allowedSpecial i).
    destruct (i <? length text) eqn:Hlt; [|reflexivity].
    apply Nat.ltb_lt in Hlt. cbv zeta.
    destruct (if 0 <? length allowedSpecial then _ else _) as [tok n].
    destruct (_ && (0 <? n)) eqn:Esp.
    + apply andb_prop in Esp. destruct Esp as [_ Hn].
      apply Nat.ltb_lt in Hn. apply IH. lia.
    + assert (He : i < (if Next text i <=? i then i + 1 else Next text i)).
      { destruct (Next text i <=? i) eqn:E; [lia|].
        now apply Nat.leb_gt in E. }
      destruct (encGet b _); apply IH; lia.
Qed.

(** [Encode]; [allowedSpecial] is a set of literals, [nil] is the empty list.
    Every pass moves [i] forward, so [len(text)] passes are enough. *)
Definition Encode (b : coreBPE) (text : gostring)
    (allowedSpecial : list gostring) : list token * nat :=
  encodeLoop (length text) b text allowedSpecial 0 [] 0.

Definition encodeInto (b : coreBPE) (text : gostring)
    (allowedSpecial : list gostring) (out : list token) : list token * nat :=
  encodeLoop (length text) b text allowedSpecial 0 out 0.

Definition EncodeOrdinary (b : coreBPE) (text : gostring) : list token :=
  fst (Encode b text []).

Definition EncodeIntoOrdinary (b : coreBPE) (text : gostring)
    (out : list token) : list token * nat :=
  encodeInto b text [] out.

Definition EncodeWithSpecialTokens (b : coreBPE) (text : gostring)
    : list token :=
  fst (Encode b text (map fst (specialEnc b))).

(** *** The vocabulary

    The merge table is read from a file at run time.  Two properties of the
    O200k table are used: every single byte is a token, and no two entries
    share a rank. *)
Definition byteComplete (pairs : list (gostring * Rank)) : bool :=
  forallb (fun n => existsb (fun p => gostring_eqb (fst p) [ascii_of_nat n]) pairs)
          (seq 0 256).

Fixpoint distinctb (l : list N) : bool :=
  match l with
  | [] => true
  | x :: l' => negb (existsb (N.eqb x) l') && distinctb l'
  end.

Definition ranksDistinct (pairs : list (gostring * Rank)) : bool :=
  distinctb (map snd pairs).

Lemma distinctb_NoDup (l : list N) : distinctb l = true -> NoDup l.
Proof.
  induction l as [|x l IH]; simpl; intros H; [constructor|].
  apply andb_prop in H. destruct H as [Hx Hl].
  constructor; [|auto].
  intros Hin. apply negb_true_iff in Hx.
  assert (existsb (N.eqb x) l = true); [|congruence].
  apply existsb_exists. exists x. split; [assumption|apply N.eqb_refl].
Qed.

(** *** Maps and the decoder store *)

Lemma mapGet_In (K V : Type) (eqb : K -> K -> bool) (m : list (K * V))
    (k : K) (v : V) :
  (forall a b, eqb a b = true -> a = b) ->
  mapGet eqb m k = Some v -> In (k, v) m.
Proof.
  intros Heq. induction m as [|[k' v'] m IH]; simpl; [discriminate|].
  destruct (eqb k' k) eqn:E.
  - intros H. inversion H; subst. apply Heq in E. subst. now left.
  - intros H. right. auto.
Qed.

Lemma mapGet_some (K V : Type) (eqb : K -> K -> bool) (m : list (K * V))
    (k : K) (v : V) :
  (forall a, eqb a a = true) ->
  In (k, v) m -> exists v', mapGet eqb m k = Some v'.
Proof.
  intros Hrefl. induction m as [|[k' v'] m IH]; simpl; [tauto|].
  intros [H|H].
  - inversion H; subst. rewrite Hrefl. eauto.
  - destruct (eqb k' k); eauto.
Qed.

Lemma In_fold_mapSet (A K V : Type) (f : A -> K) (g : A -> V) (l : list A) :
  forall (acc : list (K * V)) (x : K * V),
    In x (fold_left (fun m p => mapSet m (f p) (g p)) l acc) <->
    In x (map (fun p => (f p, g p)) l) \/ In x acc.
Proof.
  induction l as [|p l IH]; intros acc x; simpl; [tauto|].
  rewrite IH. unfold mapSet. simpl. tauto.
Qed.

Lemma encGet_In (pairs specials : list (gostring * Rank)) (k : gostring)
    (r : Rank) :
  encGet (newCoreBPE pairs specials) k = Some r -> In (k, r) pairs.
Proof.
  unfold encGet. simpl. intros H.
  apply mapGet_In in H; [|intros a b; apply gostring_eqb_eq].
  apply In_fold_mapSet in H. destruct H as [H|[]].
  apply in_map_iff in H. destruct H as [[k' r'] [E H]].
  simpl in E. now inversion E; subst.
Qed.

Lemma In_encGet (pairs specials : list (gostring * Rank)) (k : gostring)
    (r : Rank) :
  In (k, r) pairs -> exists r', encGet (newCoreBPE pairs specials) k = Some r'.
Proof.
  intros H. unfold encGet. simpl.
  apply mapGet_some with (v := r); [apply gostring_eqb_refl|].
  apply In_fold_mapSet. left.
  apply in_map_iff. exists (k, r). auto.
Qed.

Lemma length_updAt (A : Type) (l : list A) (f : A -> A) :
  forall i, length (updAt l i f) = length l.
Proof.
  induction l as [|x l IH]; intros [|i]; simpl; auto.
Qed.

Lemma nth_updAt (A : Type) (l : list A) (f : A -> A) (d : A) :
  forall i j, nth j (updAt l i f) d =
    if (j =? i) && (i <? length l) then f (nth j l d) else nth j l d.
Proof.
  induction l as [|x l IH]; intros [|i] [|j]; simpl; auto.
  all: try (destruct (j =? i); reflexivity).
Qed.

Definition storeStep (tmp : list (option gostring)) (p : gostring * Rank)
    : list (option gostring) :=
  match nth (N.to_nat (snd p)) tmp None with
  | None => updAt tmp (N.to_nat (snd p)) (fun _ => Some (fst p))
  | Some _ => tmp
  end.

Lemma storeStep_length (tmp : list (option gostring)) (p : gostring * Rank) :
  length (storeStep tmp p) = length tmp.
Proof.
  unfold storeStep. destruct (nth _ tmp None); [reflexivity|].
  apply length_updAt.
Qed.

Lemma store_fold_length (l : list (gostring * Rank)) :
  forall tmp, length (fold_left storeStep l tmp) = length tmp.
Proof.
  induction l as [|p l IH]; intros tmp; simpl; [reflexivity|].
  rewrite IH. apply storeStep_length.
Qed.

Lemma storeStep_keeps (tmp : list (option gostring)) (p : gostring * Rank)
    (i : nat) (x : gostring) :
  nth i tmp None = Some x -> nth i (storeStep tmp p) None = Some x.
Proof.
  intros H. unfold storeStep.
  destruct (nth (N.to_nat (snd p)) tmp None) eqn:E; [assumption|].
  rewrite nth_updAt.
  destruct (i =? N.to_nat (snd p)) eqn:Ei; [|assumption].
  apply Nat.eqb_eq in Ei. subst. congruence.
Qed.

Lemma store_fold_keeps (l : list (gostring * Rank)) (i : nat) (x : gostring) :
  forall tmp, nth i tmp None = Some x ->
    nth i (fold_left storeStep l tmp) None = Some x.
Proof.
  induction l as [|p l IH]; intros tmp H; simpl; [assumption|].
  apply IH. now apply storeStep_keeps.
Qed.

Lemma store_fold_first (l : list (gostring * Rank)) (k : gostring) (r : Rank) :
  NoDup (map snd l) -> In (k, r) l ->
  forall tmp, N.to_nat r < length tmp ->
    nth (N.to_nat r) tmp None = None ->
    nth (N.to_nat r) (fold_left storeStep l tmp) None = Some k.
Proof.
  induction l as [|p l IH]; intros Hnd Hin tmp Hlen Hnone; [destruct Hin|].
  simpl in Hnd. inversion Hnd as [|? ? Hnotin Hnd']; subst.
  simpl. destruct Hin as [E|Hin].
  - subst p. apply store_fold_keeps.
    unfold storeStep. simpl. rewrite Hnone.
    rewrite nth_updAt. rewrite Nat.eqb_refl.
    apply Nat.ltb_lt in Hlen. now rewrite Hlen.
  - apply IH; auto.
    + now rewrite storeStep_length.
    + unfold storeStep.
      destruct (nth (N.to_nat (snd p)) tmp None) eqn:E; [assumption|].
      rewrite nth_updAt.
      destruct (N.to_nat r =? N.to_nat (snd p)) eqn:Er; [|assumption].
      apply Nat.eqb_eq in Er. apply N2Nat.inj in Er.
      exfalso. apply Hnotin. rewrite <- Er.
      apply in_map_iff. exists (k, r). auto.
Qed.

Lemma maxID_ge (l : list (gostring * Rank)) :
  forall (m : N) (p : gostring * Rank),
    In p l ->
    (snd p <= fold_left (fun m p => if (m <? snd p)%N then snd p else m) l m)%N.
Proof.
  assert (Hmono : forall l m,
    (m <= fold_left (fun m (p : gostring * Rank) =>
                       if (m <? snd p)%N then snd p else m) l m)%N).
  { clear. induction l as [|q l IH]; intros m; simpl; [lia|].
    eapply N.le_trans; [|apply IH].
    destruct (m <? snd q)%N eqn:E; [apply N.ltb_lt in E|]; lia. }
  induction l as [|q l IH]; intros m p Hin; [destruct Hin|].
  simpl. destruct Hin as [E|Hin]; [|now apply IH].
  subst q.
  eapply N.le_trans; [|apply Hmono].
  match goal with
  | |- context [if ?c then _ else _] => destruct c eqn:E
  end; [apply N.le_refl|].
  now apply N.ltb_ge in E.
Qed.

Lemma nth_repeat_None (n i : nat) :
  nth i (repeat (@None gostring) n) None = None.
Proof.
  revert i. induction n as [|n IH]; intros [|i]; simpl; auto.
Qed.

(** The store gives back the bytes of every entry of the table. *)
Lemma AppendInto_newTokenStore (pairs : list (gostring * Rank))
    (k : gostring) (r : Rank) (dst : gostring) :
  NoDup (map snd pairs) -> In (k, r) pairs ->
  AppendInto (newTokenStore pairs) dst r = Some (dst ++ k).
Proof.
  intros Hnd Hin. unfold AppendInto, newTokenStore. simpl.
  fold storeStep.
  change (fun tmp p => match nth (N.to_nat (snd p)) tmp None with
                       | Some _ => tmp
                       | None => updAt tmp (N.to_nat (snd p))
                                   (fun _ => Some (fst p))
                       end) with storeStep.
  pose proof (maxID_ge pairs 0%N (k, r) Hin) as Hmax. simpl in Hmax.
  match goal with
  | |- context [N.to_nat ?m + 1] => set (maxID := m) in *
  end.
  assert (Hr : N.to_nat r < N.to_nat maxID + 1) by lia.
  rewrite store_fold_length, repeat_length.
  destruct (N.to_nat maxID + 1 <=? N.to_nat r) eqn:E;
    [apply Nat.leb_le in E; lia|].
  rewrite (@store_fold_first pairs k r Hnd Hin).
  - reflexivity.
  - now rewrite repeat_length.
  - apply nth_repeat_None.
Qed.


(** *** Slices *)

Lemma firstn_plus (A : Type) (n m : nat) :
  forall l : list A, firstn (n + m) l = firstn n l ++ firstn m (skipn n l).
Proof.
  induction n as [|n IH]; intros [|x l]; simpl; auto.
  - now rewrite firstn_nil.
  - now rewrite IH.
Qed.

Lemma slice_app (s : gostring) (a b c : nat) :
  a <= b -> b <= c -> slice s a b ++ slice s b c = slice s a c.
Proof.
  intros Hab Hbc. unfold slice.
  replace (c - a) with ((b - a) + (c - b)) by lia.
  rewrite firstn_plus, skipn_skipn.
  now replace (b - a + a) with b by lia.
Qed.

Lemma slice_all (s : gostring) : slice s 0 (length s) = s.
Proof. unfold slice. rewrite Nat.sub_0_r. simpl. apply firstn_all. Qed.

Lemma slice_prefix (s : gostring) (n : nat) : slice s 0 n = firstn n s.
Proof. unfold slice. now rewrite Nat.sub_0_r. Qed.

Lemma slice_byte (s : gostring) (w : nat) :
  w < length s -> slice s w (w + 1) = [nth w s Ascii.zero].
Proof.
  revert w. induction s as [|c s IH]; intros w Hw; simpl in Hw; [lia|].
  unfold slice in *. replace (w + 1 - w) with 1 in * by lia.
  destruct w as [|w]; simpl.
  - reflexivity.
  - specialize (IH w). replace (w + 1 - w) with 1 in IH by lia.
    apply IH. lia.
Qed.

Lemma length_slice (s : gostring) (a b : nat) :
  a <= b -> b <= length s -> length (slice s a b) = b - a.
Proof.
  intros Hab Hb. unfold slice. rewrite length_firstn, length_skipn. lia.
Qed.

(** *** Parts *)

Local Abbreviation st parts w := (start (partAt parts w)).
Local Abbreviation rk parts w := (rank (partAt parts w)).

Lemma length_setRank (parts : list part) (i : nat) (r : Rank) :
  length (setRank parts i r) = length parts.
Proof. apply length_updAt. Qed.

Lemma st_setRank (parts : list part) (i : nat) (r : Rank) (w : nat) :
  st (setRank parts i r) w = st parts w.
Proof.
  unfold partAt, setRank. rewrite nth_updAt.
  destruct (_ && _); reflexivity.
Qed.

Lemma rk_setRank (parts : list part) (i : nat) (r : Rank) (w : nat) :
  rk (setRank parts i r) w =
  if (w =? i) && (i <? length parts) then r else rk parts w.
Proof.
  unfold partAt, setRank. rewrite nth_updAt.
  destruct (_ && _); reflexivity.
Qed.

Lemma getRank_setRank (b : coreBPE) (piece : gostring) (parts : list part)
    (k : nat) (r : Rank) (i : nat) :
  getRank b piece (setRank parts k r) i = getRank b piece parts i.
Proof.
  unfold getRank. now rewrite length_setRank, !st_setRank.
Qed.

Definition removeAt (parts : list part) (i : nat) : list part :=
  firstn (i + 1) parts ++ skipn (i + 2) parts.

Lemma length_removeAt (parts : list part) (i : nat) :
  i + 2 <= length parts -> length (removeAt parts i) = length parts - 1.
Proof.
  intros H. unfold removeAt.
  rewrite length_app, length_firstn, length_skipn. lia.
Qed.

Lemma partAt_removeAt (parts : list part) (i w : nat) :
  i + 1 <= length parts ->
  partAt (removeAt parts i) w =
  if w <=? i then partAt parts w else partAt parts (w + 1).
Proof.
  intros H. unfold partAt, removeAt.
  assert (Hl : length (firstn (i + 1) parts) = i + 1)
    by (rewrite length_firstn; lia).
  destruct (w <=? i) eqn:E.
  - apply Nat.leb_le in E.
    rewrite app_nth1 by lia. rewrite nth_firstn.
    assert (Hw : (w <? i + 1) = true) by (apply Nat.ltb_lt; lia).
    now rewrite Hw.
  - apply Nat.leb_gt in E.
    rewrite app_nth2 by lia. rewrite Hl, nth_skipn.
    f_equal. lia.
Qed.

(** One pass of the merging loop at index [i]. *)
Definition mergeAt (b : coreBPE) (piece : gostring) (parts : list part)
    (i : nat) : list part :=
  let parts :=
    if 0 <? i then setRank parts (i - 1) (getRank b piece parts (i - 1))
    else parts in
  let parts := setRank parts i (getRank b piece parts i) in
  removeAt parts i.

Lemma merge_loop_S (fuel : nat) (b : coreBPE) (piece : gostring)
    (parts : list part) (m : Rank * nat) :
  merge_loop (S fuel) b piece parts m =
  if (fst m =? maxRank)%N then parts
  else merge_loop fuel b piece (mergeAt b piece parts (snd m))
         (findMin (mergeAt b piece parts (snd m))).
Proof. reflexivity. Qed.

Record partsInv (b : coreBPE) (piece : gostring) (parts : list part) : Prop := {
  inv_len : 2 <= length parts;
  inv_first : st parts 0 = 0;
  inv_last : st parts (length parts - 1) = length piece;
  inv_mono : forall w, w + 1 < length parts -> st parts w < st parts (w + 1);
  inv_span : forall w, w + 1 < length parts ->
    encGet b (slice piece (st parts w) (st parts (w + 1))) <> None;
  inv_rank : forall j, j < length parts -> rk parts j <> maxRank ->
    j + 2 < length parts /\
    encGet b (slice piece (st parts j) (st parts (j + 2))) = Some (rk parts j)
}.

Lemma getRank_some (b : coreBPE) (piece : gostring) (parts : list part)
    (i : nat) :
  getRank b piece parts i <> maxRank ->
  i + 3 < length parts /\
  encGet b (slice piece (st parts i) (st parts (i + 3)))
    = Some (getRank b piece parts i).
Proof.
  unfold getRank.
  destruct (i + 3 <? length parts) eqn:E; [|congruence].
  apply Nat.ltb_lt in E.
  destruct (encGet b _) as [r|]; [|congruence].
  auto.
Qed.

Lemma st_mergeAt (b : coreBPE) (piece : gostring) (parts : list part)
    (i w : nat) :
  i + 1 <= length parts ->
  st (mergeAt b piece parts i) w =
  if w <=? i then st parts w else st parts (w + 1).
Proof.
  intros H. unfold mergeAt.
  rewrite partAt_removeAt.
  - destruct (w <=? i); rewrite st_setRank;
      destruct (0 <? i); now rewrite ?st_setRank.
  - rewrite length_setRank. destruct (0 <? i); now rewrite ?length_setRank.
Qed.

Lemma length_mergeAt (b : coreBPE) (piece : gostring) (parts : list part)
    (i : nat) :
  i + 2 <= length parts ->
  length (mergeAt b piece parts i) = length parts - 1.
Proof.
  intros H. unfold mergeAt. rewrite length_removeAt.
  - rewrite length_setRank. destruct (0 <? i); now rewrite ?length_setRank.
  - rewrite length_setRank. destruct (0 <? i); now rewrite ?length_setRank.
Qed.

Lemma rk_mergeAt (b : coreBPE) (piece : gostring) (parts : list part)
    (i w : nat) :
  i + 2 <= length parts ->
  rk (mergeAt b piece parts i) w =
  if w =? i then getRank b piece parts i
  else if (w + 1 =? i) then getRank b piece parts w
  else if w <? i then rk parts w else rk parts (w + 1).
Proof.
  intros H. unfold mergeAt.
  set (P1 := if 0 <? i then _ else parts).
  assert (HlenP1 : length P1 = length parts).
  { subst P1. destruct (0 <? i); now rewrite ?length_setRank. }
  assert (HgP1 : getRank b piece P1 i = getRank b piece parts i).
  { subst P1. destruct (0 <? i); now rewrite ?getRank_setRank. }
  rewrite partAt_removeAt by (rewrite length_setRank; lia).
  rewrite HgP1.
  assert (Hi : (i <? length P1) = true) by (apply Nat.ltb_lt; lia).
  destruct (w =? i) eqn:Ewi.
  - apply Nat.eqb_eq in Ewi. subst w.
    rewrite Nat.leb_refl, rk_setRank, Nat.eqb_refl, Hi. reflexivity.
  - apply Nat.eqb_neq in Ewi.
    destruct (w + 1 =? i) eqn:Ew1.
    + apply Nat.eqb_eq in Ew1.
      assert (Hle : (w <=? i) = true) by (apply Nat.leb_le; lia).
      rewrite Hle, rk_setRank.
      assert (Hne : (w =? i) = false) by (apply Nat.eqb_neq; lia).
      rewrite Hne. simpl. subst P1.
      assert (H0 : (0 <? i) = true) by (apply Nat.ltb_lt; lia).
      rewrite H0, rk_setRank.
      assert (He : (w =? i - 1) = true) by (apply Nat.eqb_eq; lia).
      assert (Hl : (i - 1 <? length parts) = true) by (apply Nat.ltb_lt; lia).
      rewrite He, Hl. simpl. f_equal. lia.
    + apply Nat.eqb_neq in Ew1.
      destruct (w <? i) eqn:Elt.
      * apply Nat.ltb_lt in Elt.
        assert (Hle : (w <=? i) = true) by (apply Nat.leb_le; lia).
        rewrite Hle, rk_setRank.
        assert (Hne : (w =? i) = false) by (apply Nat.eqb_neq; lia).
        rewrite Hne. simpl. subst P1.
        destruct (0 <? i); [|reflexivity].
        rewrite rk_setRank.
        assert (He : (w =? i - 1) = false) by (apply Nat.eqb_neq; lia).
        now rewrite He.
      * apply Nat.ltb_ge in Elt.
        assert (Hle : (w <=? i) = false) by (apply Nat.leb_gt; lia).
        rewrite Hle, rk_setRank.
        assert (Hne : (w + 1 =? i) = false) by (apply Nat.eqb_neq; lia).
        rewrite Hne. simpl. subst P1.
        destruct (0 <? i); [|reflexivity].
        rewrite rk_setRank.
        assert (He : (w + 1 =? i - 1) = false) by (apply Nat.eqb_neq; lia).
        now rewrite He.
Qed.


Lemma mergeAt_inv (b : coreBPE) (piece : gostring) (parts : list part)
    (i : nat) :
  partsInv b piece parts -> i < length parts -> rk parts i <> maxRank ->
  partsInv b piece (mergeAt b piece parts i).
Proof.
  intros [Hlen Hfirst Hlast Hmono Hspan Hrank] Hi Hrk.
  destruct (Hrank i Hi Hrk) as [Hi2 Hmerged].
  assert (Hl : length (mergeAt b piece parts i) = length parts - 1)
    by (apply length_mergeAt; lia).
  assert (Hst : forall w, st (mergeAt b piece parts i) w =
                          if w <=? i then st parts w else st parts (w + 1))
    by (intros w; apply st_mergeAt; lia).
  constructor; rewrite ?Hl.
  - lia.
  - now rewrite Hst.
  - rewrite Hst.
    destruct (length parts - 1 - 1 <=? i) eqn:E;
      [apply Nat.leb_le in E; lia|].
    now replace (length parts - 1 - 1 + 1) with (length parts - 1) by lia.
  - intros w Hw. rewrite !Hst.
    destruct (w <=? i) eqn:E1; destruct (w + 1 <=? i) eqn:E2;
      try apply Nat.leb_le in E1; try apply Nat.leb_le in E2;
      try apply Nat.leb_gt in E1; try apply Nat.leb_gt in E2; try lia.
    + apply Hmono. lia.
    + assert (w = i) by lia. subst w.
      pose proof (Hmono i). pose proof (Hmono (i + 1)).
      replace (i + 1 + 1) with (i + 2) in * by lia. lia.
    + apply Hmono. lia.
  - intros w Hw. rewrite !Hst.
    destruct (w <=? i) eqn:E1; destruct (w + 1 <=? i) eqn:E2;
      try apply Nat.leb_le in E1; try apply Nat.leb_le in E2;
      try apply Nat.leb_gt in E1; try apply Nat.leb_gt in E2; try lia.
    + apply Hspan. lia.
    + assert (w = i) by lia. subst w.
      replace (i + 1 + 1) with (i + 2) by lia. congruence.
    + apply Hspan. lia.
  - intros j Hj. rewrite rk_mergeAt by lia. rewrite !Hst.
    destruct (j =? i) eqn:Eji.
    { apply Nat.eqb_eq in Eji. subst j. intros Hg.
      apply getRank_some in Hg. destruct Hg as [Hb Hg].
      rewrite Nat.leb_refl.
      assert (E : (i + 2 <=? i) = false) by (apply Nat.leb_gt; lia).
      rewrite E. replace (i + 2 + 1) with (i + 3) by lia.
      split; [lia|assumption]. }
    apply Nat.eqb_neq in Eji.
    destruct (j + 1 =? i) eqn:Ej1.
    { apply Nat.eqb_eq in Ej1. intros Hg.
      apply getRank_some in Hg. destruct Hg as [Hb Hg].
      assert (E1 : (j <=? i) = true) by (apply Nat.leb_le; lia).
      assert (E2 : (j + 2 <=? i) = false) by (apply Nat.leb_gt; lia).
      rewrite E1, E2. replace (j + 2 + 1) with (j + 3) by lia.
      split; [lia|assumption]. }
    apply Nat.eqb_neq in Ej1.
    destruct (j <? i) eqn:Elt.
    { apply Nat.ltb_lt in Elt. intros Hr.
      destruct (Hrank j ltac:(lia) Hr) as [Hb Hg].
      assert (E1 : (j <=? i) = true) by (apply Nat.leb_le; lia).
      assert (E2 : (j + 2 <=? i) = true) by (apply Nat.leb_le; lia).
      rewrite E1, E2. split; [lia|assumption]. }
    apply Nat.ltb_ge in Elt. intros Hr.
    destruct (Hrank (j + 1) ltac:(lia) Hr) as [Hb Hg].
    assert (E1 : (j <=? i) = false) by (apply Nat.leb_gt; lia).
    assert (E2 : (j + 2 <=? i) = false) by (apply Nat.leb_gt; lia).
    rewrite E1, E2.
    replace (j + 2 + 1) with (j + 1 + 2) by lia.
    split; [lia|assumption].
Qed.

Lemma findMin_fold (parts : list part) (js : list nat) :
  forall m : Rank * nat,
    let res := fold_left
      (fun (m : Rank * nat) j =>
         if (rk parts j <? fst m)%N then (rk parts j, j) else m) js m in
    res = m \/ (In (snd res) js /\ rk parts (snd res) = fst res).
Proof.
  induction js as [|j js IH]; intros m; simpl; [now left|].
  specialize (IH (if (rk parts j <? fst m)%N then (rk parts j, j) else m)).
  simpl in IH. destruct IH as [IH|[IH1 IH2]].
  - rewrite IH. destruct (rk parts j <? fst m)%N; [|now left].
    right. simpl. auto.
  - right. auto.
Qed.

Lemma findMin_spec (parts : list part) :
  fst (findMin parts) <> maxRank ->
  snd (findMin parts) < length parts /\
  rk parts (snd (findMin parts)) = fst (findMin parts).
Proof.
  intros H. unfold findMin in *.
  destruct (findMin_fold parts (seq 0 (length parts - 1)) (maxRank, 0))
    as [E|[Hin Hr]].
  - rewrite E in H. simpl in H. congruence.
  - apply in_seq in Hin. split; [lia|assumption].
Qed.

Lemma merge_loop_inv (b : coreBPE) (piece : gostring) (fuel : nat) :
  forall (parts : list part) (m : Rank * nat),
    partsInv b piece parts ->
    (fst m <> maxRank -> snd m < length parts /\ rk parts (snd m) = fst m) ->
    partsInv b piece (merge_loop fuel b piece parts m).
Proof.
  induction fuel as [|fuel IH]; intros parts m Hinv Hm; [assumption|].
  rewrite merge_loop_S.
  destruct (fst m =? maxRank)%N eqn:E; [assumption|].
  apply N.eqb_neq in E. destruct (Hm E) as [Hi Hr].
  apply IH.
  - apply mergeAt_inv; auto. congruence.
  - apply findMin_spec.
Qed.

(** The fuel [len(piece)] is never used up: with [k] parts at most [k - 2]
    merges are possible, and the loop stops by itself. *)
Lemma merge_loop_fuel (b : coreBPE) (piece : gostring) (fuel : nat) :
  forall (parts : list part) (m : Rank * nat),
    partsInv b piece parts ->
    (fst m <> maxRank -> snd m < length parts /\ rk parts (snd m) = fst m) ->
    length parts <= fuel + 2 ->
    merge_loop (S fuel) b piece parts m = merge_loop fuel b piece parts m.
Proof.
  induction fuel as [|fuel IH]; intros parts m Hinv Hm Hlen.
  - rewrite merge_loop_S. simpl.
    destruct (fst m =? maxRank)%N eqn:E; [reflexivity|].
    apply N.eqb_neq in E. destruct (Hm E) as [Hi Hr].
    destruct (inv_rank Hinv Hi) as [Hb _]; [congruence|lia].
  - rewrite (merge_loop_S (S fuel)), (merge_loop_S fuel b piece parts m).
    destruct (fst m =? maxRank)%N eqn:E; [reflexivity|].
    apply N.eqb_neq in E. destruct (Hm E) as [Hi Hr].
    assert (Hrk : rk parts (snd m) <> maxRank) by congruence.
    destruct (inv_rank Hinv Hi Hrk) as [Hb _].
    apply IH.
    + now apply mergeAt_inv.
    + apply findMin_spec.
    + rewrite length_mergeAt by lia. lia.
Qed.


(** *** Decoding what was encoded *)

Lemma DecodeBytesInto_app (b : coreBPE) (t1 t2 : list token) :
  forall dst,
    DecodeBytesInto b dst (t1 ++ t2) =
    match DecodeBytesInto b dst t1 with
    | Some d => DecodeBytesInto b d t2
    | None => None
    end.
Proof.
  induction t1 as [|t t1 IH]; intros dst; simpl; [reflexivity|].
  destruct (AppendInto (dec b) dst t); [apply IH|].
  destruct (mapGet N.eqb (specialDec b) t); [apply IH|reflexivity].
Qed.

Lemma concat_spans (piece : gostring) (stf : nat -> nat) (m : nat) :
  (forall w, w < m -> stf w <= stf (w + 1)) ->
  concat (map (fun w => slice piece (stf w) (stf (w + 1))) (seq 0 m))
  = slice piece (stf 0) (stf m).
Proof.
  induction m as [|m IH]; intros Hmono.
  - simpl. unfold slice. now rewrite Nat.sub_diag.
  - assert (Hchain : forall w, w <= m -> stf 0 <= stf w).
    { induction w as [|w IHw]; intros Hw; [lia|].
      specialize (Hmono w). replace (w + 1) with (S w) in Hmono by lia. lia. }
    rewrite seq_S, map_app, concat_app, IH by (intros; apply Hmono; lia).
    simpl. rewrite app_nil_r.
    replace (S m) with (m + 1) by lia.
    apply slice_app; [apply Hchain; lia|apply Hmono; lia].
Qed.

Section Roundtrip.

Variables pairs specials : list (gostring * Rank).
Hypothesis Hbytes : byteComplete pairs = true.
Hypothesis Hdistinct : ranksDistinct pairs = true.

Let b := newCoreBPE pairs specials.

Lemma encGet_byte (c : ascii) : encGet b [c] <> None.
Proof using Hbytes.
  unfold byteComplete in Hbytes. rewrite forallb_forall in Hbytes.
  assert (Hc : In (nat_of_ascii c) (seq 0 256)).
  { apply in_seq. pose proof (nat_ascii_bounded c). lia. }
  apply Hbytes in Hc. rewrite ascii_nat_embedding in Hc.
  apply existsb_exists in Hc. destruct Hc as [[k r] [Hin Hk]].
  simpl in Hk. apply gostring_eqb_eq in Hk. subst k.
  destruct (In_encGet pairs specials _ _ Hin) as [r' Hr'].
  subst b. congruence.
Qed.

Lemma decode_entry (sp : gostring) (dst : gostring) :
  encGet b sp <> None ->
  DecodeBytesInto b dst [encAt b sp] = Some (dst ++ sp).
Proof using Hdistinct.
  intros H. unfold encAt.
  destruct (encGet b sp) as [r|] eqn:E; [|congruence].
  subst b. apply encGet_In in E. simpl.
  rewrite (@AppendInto_newTokenStore pairs sp r dst); auto.
  now apply distinctb_NoDup.
Qed.

Lemma decode_spans (f : nat -> gostring) (ws : list nat) :
  (forall w, In w ws -> encGet b (f w) <> None) ->
  forall dst,
    DecodeBytesInto b dst (map (fun w => encAt b (f w)) ws)
    = Some (dst ++ concat (map f ws)).
Proof using Hdistinct.
  induction ws as [|w ws IH]; intros Hgood dst.
  - simpl. now rewrite app_nil_r.
  - change (map (fun w => encAt b (f w)) (w :: ws))
      with ([encAt b (f w)] ++ map (fun w => encAt b (f w)) ws).
    rewrite DecodeBytesInto_app, decode_entry by (apply Hgood; now left).
    rewrite IH by (intros; apply Hgood; now right).
    simpl. now rewrite <- app_assoc.
Qed.

Definition rankOf (piece : gostring) (i : nat) : Rank :=
  match encGet b (slice piece i (i + 2)) with
  | Some r => r
  | None => maxRank
  end.

Definition mkPart (piece : gostring) (i : nat) : part :=
  {| start := i; rank := rankOf piece i |}.

Lemma initParts_fold (piece : gostring) (k : nat) :
  let res := fold_left
    (fun (acc : list part * (Rank * nat)) i =>
       let '(parts, minRank) := acc in
       let r := match encGet b (slice piece i (i + 2)) with
                | Some r => r
                | None => maxRank
                end in
       let minRank := if (r <? fst minRank)%N then (r, i) else minRank in
       (parts ++ [{| start := i; rank := r |}], minRank))
    (seq 0 k) ([], (maxRank, 0)) in
  fst res = map (mkPart piece) (seq 0 k) /\
  (fst (snd res) <> maxRank ->
   snd (snd res) < k /\ rankOf piece (snd (snd res)) = fst (snd res)).
Proof.
  induction k as [|k IH]; [simpl; split; [reflexivity|congruence]|].
  rewrite seq_S, fold_left_app. simpl.
  destruct (fold_left _ (seq 0 k) ([], (maxRank, 0))) as [parts m].
  simpl in IH. destruct IH as [IH1 IH2]. subst parts.
  fold (rankOf piece k).
  split.
  - simpl. now rewrite map_app.
  - simpl. destruct (rankOf piece k <? fst m)%N; simpl.
    + intros _. split; [lia|reflexivity].
    + intros H. destruct (IH2 H). split; [lia|assumption].
Qed.

Definition parts0 (piece : gostring) : list part :=
  (map (mkPart piece) (seq 0 (length piece - 1))
     ++ [{| start := length piece - 1; rank := maxRank |}])
    ++ [{| start := length piece; rank := maxRank |}].

Lemma length_parts0 (piece : gostring) :
  2 <= length piece -> length (parts0 piece) = length piece + 1.
Proof.
  intros H. unfold parts0.
  rewrite !length_app, length_map, length_seq. simpl. lia.
Qed.

Lemma partAt_parts0 (piece : gostring) (w : nat) :
  2 <= length piece -> w <= length piece ->
  partAt (parts0 piece) w =
  if w <? length piece - 1 then mkPart piece w
  else {| start := w; rank := maxRank |}.
Proof.
  intros Hn Hw. unfold partAt, parts0.
  set (n := length piece) in *.
  set (l := map (mkPart piece) (seq 0 (n - 1))).
  assert (Hl : length l = n - 1) by (subst l; now rewrite length_map, length_seq).
  destruct (w <? n - 1) eqn:E.
  - apply Nat.ltb_lt in E.
    rewrite app_nth1 by (rewrite length_app; simpl; lia).
    rewrite app_nth1 by lia.
    subst l.
    rewrite (nth_indep _ _ (mkPart piece 0)) by (rewrite length_map, length_seq; lia).
    rewrite map_nth, seq_nth by lia. reflexivity.
  - apply Nat.ltb_ge in E.
    destruct (Nat.eq_dec w (n - 1)) as [->|Hne].
    + rewrite app_nth1 by (rewrite length_app; simpl; lia).
      rewrite app_nth2 by lia. rewrite Hl, Nat.sub_diag. reflexivity.
    + assert (w = n) by lia. subst w.
      rewrite app_nth2 by (rewrite length_app; simpl; lia).
      rewrite length_app, Hl. simpl.
      replace (n - (n - 1 + 1)) with 0 by lia. reflexivity.
Qed.

Lemma parts0_inv (piece : gostring) :
  2 <= length piece -> partsInv b piece (parts0 piece).
Proof using Hbytes.
  intros Hn.
  assert (Hst : forall w, w <= length piece -> st (parts0 piece) w = w).
  { intros w Hw. rewrite partAt_parts0 by lia.
    destruct (w <? length piece - 1); reflexivity. }
  constructor; rewrite ?length_parts0 by lia.
  - lia.
  - apply Hst. lia.
  - rewrite Hst; lia.
  - intros w Hw. rewrite !Hst by lia. lia.
  - intros w Hw. rewrite !Hst by lia.
    rewrite slice_byte by lia. apply encGet_byte.
  - intros j Hj. rewrite partAt_parts0 by lia.
    destruct (j <? length piece - 1) eqn:E; simpl; [|congruence].
    apply Nat.ltb_lt in E. intros Hr.
    rewrite !Hst by lia. split; [lia|].
    unfold rankOf in *. destruct (encGet b (slice piece j (j + 2))); congruence.
Qed.

Lemma bytePairMerge_inv (piece : gostring) :
  2 <= length piece -> partsInv b piece (bytePairMerge b piece).
Proof using Hbytes.
  intros Hn. unfold bytePairMerge, initParts.
  pose proof (initParts_fold piece (length piece - 1)) as H.
  simpl in H.
  destruct (fold_left _ (seq 0 (length piece - 1)) ([], (maxRank, 0)))
    as [parts m].
  simpl in H. destruct H as [H1 H2]. subst parts.
  fold (parts0 piece).
  apply merge_loop_inv; [now apply parts0_inv|].
  intros Hm. destruct (H2 Hm) as [Hlt Hr].
  rewrite length_parts0 by lia. split; [lia|].
  rewrite partAt_parts0 by lia.
  assert (E : (snd m <? length piece - 1) = true) by (apply Nat.ltb_lt; lia).
  now rewrite E.
Qed.

Lemma bytePairEncode_decode (piece dst : gostring) :
  piece <> [] ->
  DecodeBytesInto b dst (bytePairEncode b piece) = Some (dst ++ piece).
Proof using Hbytes Hdistinct.
  intros Hne. unfold bytePairEncode.
  destruct (length piece =? 1) eqn:E1.
  - apply Nat.eqb_eq in E1.
    destruct piece as [|c [|c' piece]]; simpl in E1; try lia.
    apply decode_entry, encGet_byte.
  - apply Nat.eqb_neq in E1.
    assert (Hn : 2 <= length piece).
    { destruct piece as [|c [|c' piece]]; simpl in *; try congruence; lia. }
    pose proof (bytePairMerge_inv piece Hn) as Hinv.
    set (parts := bytePairMerge b piece) in *.
    rewrite (@decode_spans
      (fun w => slice piece (st parts w) (st parts (w + 1)))).
    + rewrite concat_spans.
      * rewrite (inv_first Hinv), (inv_last Hinv), slice_all. reflexivity.
      * intros w Hw. pose proof (inv_mono Hinv w). lia.
    + intros w Hw. apply in_seq in Hw.
      apply (inv_span Hinv). pose proof (inv_len Hinv). lia.
Qed.

Lemma encodeLoop_decode (text : gostring) (fuel : nat) :
  forall (i : nat) (out : list token) (lp : nat) (d : gostring),
    i <= length text -> length text - i <= fuel ->
    DecodeBytesInto b [] out = Some d ->
    DecodeBytesInto b [] (fst (encodeLoop fuel b text [] i out lp))
    = Some (d ++ skipn i text).
Proof using Hbytes Hdistinct.
  induction fuel as [|fuel IH]; intros i out lp d Hi Hfuel Hout.
  - simpl. rewrite skipn_all2 by lia. now rewrite app_nil_r.
  - simpl.
    destruct (i <? length text) eqn:Elt.
    + apply Nat.ltb_lt in Elt.
      pose proof (Next_gt text Elt) as Hgt.
      pose proof (@Next_le_len text i Hi) as Hle.
      assert (E : (Next text i <=? i) = false) by (apply Nat.leb_gt; lia).
      rewrite E.
      set (e := Next text i) in *.
      assert (Hpiece : slice text i e ++ skipn e text = skipn i text).
      { unfold slice. replace e with ((e - i) + i) at 2 by lia.
        rewrite <- skipn_skipn. apply firstn_skipn. }
      assert (Hne : slice text i e <> []).
      { intros H. apply (f_equal (@length ascii)) in H.
        rewrite length_slice in H by lia. simpl in H. lia. }
      destruct (encGet b (slice text i e)) as [id|] eqn:Eenc.
      * rewrite (IH e (out ++ [id]) 1 (d ++ slice text i e)); try lia.
        -- now rewrite <- app_assoc, Hpiece.
        -- rewrite DecodeBytesInto_app, Hout.
           replace id with (encAt b (slice text i e))
             by (unfold encAt; now rewrite Eenc).
           apply decode_entry. congruence.
      * rewrite (IH e _ _ (d ++ slice text i e)); try lia.
        -- now rewrite <- app_assoc, Hpiece.
        -- rewrite DecodeBytesInto_app, Hout.
           now apply bytePairEncode_decode.
    + apply Nat.ltb_ge in Elt.
      rewrite skipn_all2 by lia. now rewrite app_nil_r.
Qed.

Lemma encodeInto_decode (text : gostring) (out : list token) (d : gostring) :
  DecodeBytesInto b [] out = Some d ->
  DecodeBytesInto b [] (fst (EncodeIntoOrdinary b text out)) = Some (d ++ text).
Proof using Hbytes Hdistinct.
  intros H. unfold EncodeIntoOrdinary, encodeInto.
  rewrite (@encodeLoop_decode text (length text) 0 out 0 d); auto; lia.
Qed.

End Roundtrip.

(** C5.  BPE round trip: over a vocabulary that holds every single byte and
    gives no rank twice (as the O200k table does), decoding the ordinary
    encoding of a text gives the text back.  This holds for every byte
    string, in particular for valid UTF-8 without special literals. *)
Theorem bpe_roundtrip (pairs specials : list (gostring * Rank))
    (T : gostring) :
  byteComplete pairs = true ->
  ranksDistinct pairs = true ->
  DecodeUTF8 (newCoreBPE pairs specials)
             (EncodeOrdinary (newCoreBPE pairs specials) T) = Some T.
Proof.
  intros Hb Hd. unfold DecodeUTF8, DecodeBytes, EncodeOrdinary, Encode.
  rewrite (@encodeLoop_decode pairs specials Hb Hd T (length T) 0 [] 0 []);
    auto; lia.
Qed.


(** ** tokenizer: the Harmony special tokens *)

Definition TokStartOfText : token := 199998%N.
Definition TokEndOfText : token := 199999%N.
Definition TokReturn : token := 200002%N.
Definition TokConstrain : token := 200003%N.
Definition TokChannel : token := 200005%N.
Definition TokStart : token := 200006%N.
Definition TokEnd : token := 200007%N.
Definition TokMessage : token := 200008%N.
Definition TokCall : token := 200012%N.

Definition ReservedStart : N := 200014%N.
Definition ReservedEnd : N := 201088%N.

(** [fmt.Sprintf("%d", id)] *)
Definition decimal (n : N) : gostring :=
  str (NilZero.string_of_uint (N.to_uint n)).

Definition reservedIds : list N :=
  map (fun k => (ReservedStart + N.of_nat k)%N)
      (seq 0 (N.to_nat (ReservedEnd - ReservedStart + 1))).

Definition buildHarmonySpecials : list (gostring * token) :=
  fold_left
    (fun m id => mapSet m (str "<|reserved_" ++ decimal id ++ str "|>") id)
    reservedIds
    [ (str "<|startoftext|>", TokStartOfText);
      (str "<|endoftext|>", TokEndOfText);
      (str "<|return|>", TokReturn);
      (str "<|constrain|>", TokConstrain);
      (str "<|channel|>", TokChannel);
      (str "<|start|>", TokStart);
      (str "<|end|>", TokEnd);
      (str "<|message|>", TokMessage);
      (str "<|call|>", TokCall) ].

Definition HarmonySpecials : list (gostring * token) := buildHarmonySpecials.

(** ** The data model *)

Definition Role := gostring.
Definition RoleUser : Role := str "user".
Definition RoleAssistant : Role := str "assistant".
Definition RoleSystem : Role := str "system".
Definition RoleDeveloper : Role := str "developer".
Definition RoleTool : Role := str "tool".

Record Author := { Role_ : Role; Name : gostring }.

Definition ReasoningEffort := gostring.
Definition ReasoningLow : ReasoningEffort := str "low".
Definition ReasoningMedium : ReasoningEffort := str "medium".
Definition ReasoningHigh : ReasoningEffort := str "high".

Record ChannelConfig := {
  ValidChannels : list gostring;
  ChannelRequired : bool
}.

Record ToolDescription := {
  td_Name : gostring;
  td_Description : gostring;
  td_Parameters : gostring
}.

Record ToolNamespaceConfig := {
  ns_Name : gostring;
  ns_Description : option gostring;
  ns_Tools : list ToolDescription
}.

(** [map[string]ToolNamespaceConfig]; [nil] is the empty list. *)
Definition ToolsMap := list (gostring * ToolNamespaceConfig).

Record SystemContent := {
  ModelIdentity : option gostring;
  ReasoningEffort_ : option ReasoningEffort;
  sys_Tools : ToolsMap;
  ConversationStartDate : option gostring;
  KnowledgeCutoff : option gostring;
  ChannelConfig_ : option ChannelConfig
}.

Record DeveloperContent := {
  Instructions : option gostring;
  dev_Tools : ToolsMap
}.

Definition ContentType := gostring.
Definition ContentText : ContentType := str "text".
Definition ContentSystem : ContentType := str "system_content".
Definition ContentDeveloper : ContentType := str "developer_content".

Record Content := {
  Type_ : ContentType;
  Text : gostring;
  System : option SystemContent;
  Developer : option DeveloperContent
}.

Record Message := {
  Author_ : Author;
  Recipient : gostring;
  Content_ : list Content;
  Channel : gostring;
  ContentType_ : gostring
}.

Record Conversation := { Messages : list Message }.

Record RenderConversationConfig := { AutoDropAnalysis : bool }.

Definition zeroMessage : Message :=
  {| Author_ := {| Role_ := []; Name := [] |}; Recipient := [];
     Content_ := []; Channel := []; ContentType_ := [] |}.

(** [msgs[i]] *)
Definition msgAt (msgs : list Message) (i : nat) : Message :=
  nth i msgs zeroMessage.

(** ** encoding.go *)

Definition EncodingName := gostring.
Definition HarmonyGptOss : EncodingName := str "HarmonyGptOss".

Record Encoding := {
  name : gostring;
  bpe : coreBPE;
  fmt : list (gostring * token);
  idStart : token;
  idMessage : token;
  idEnd : token;
  idReturn : token;
  idCall : token;
  idConstrain : token;
  idChannel : token;
  stopAll : list token;
  stopAssistant : list token
}.

Definition fmtAt (m : list (gostring * token)) (k : gostring) : token :=
  match mapGet gostring_eqb m k with Some v => v | None => 0%N end.

(** [LoadEncoding]; [o200k] is what [tokenizer.LoadO200k()] returned, [None]
    for an error.  [None] is a non-nil error. *)
Definition LoadEncoding (name : EncodingName)
    (o200k : option (list (gostring * Rank))) : option Encoding :=
  if negb (gostring_eqb name HarmonyGptOss) then None
  else
    match o200k with
    | None => None
    | Some pairs =>
      let bpe := newCoreBPE pairs HarmonySpecials in
      let fmtMap :=
        [ (str "<|start|>", TokStart);
          (str "<|message|>", TokMessage);
          (str "<|end|>", TokEnd);
          (str "<|return|>", TokReturn);
          (str "<|call|>", TokCall);
          (str "<|refusal|>", 0%N);
          (str "<|constrain|>", TokConstrain);
          (str "<|channel|>", TokChannel) ] in
      Some {| name := name;
              bpe := bpe;
              fmt := fmtMap;
              idStart := fmtAt fmtMap (str "<|start|>");
              idMessage := fmtAt fmtMap (str "<|message|>");
              idEnd := fmtAt fmtMap (str "<|end|>");
              idReturn := fmtAt fmtMap (str "<|return|>");
              idCall := fmtAt fmtMap (str "<|call|>");
              idConstrain := fmtAt fmtMap (str "<|constrain|>");
              idChannel := fmtAt fmtMap (str "<|channel|>");
              stopAll := [TokReturn; TokCall; TokEnd];
              stopAssistant := [TokReturn; TokCall] |}
    end.

(** [StopTokens] ranges over the keys of a Go map: the slice it returns
    holds every key once, in an order the language leaves open. *)
Definition StopTokens (e : Encoding) (out : list token) : Prop :=
  Permutation (stopAll e) out.

Definition StopTokensForAssistantActions (e : Encoding) (out : list token)
    : Prop :=
  Permutation (stopAssistant e) out.

Definition isStop (e : Encoding) (t : token) : bool :=
  existsb (N.eqb t) (stopAll e).

Record renderOptions := { conversationHasFunctionTools : bool }.

Definition renderText (e : Encoding) (text : gostring) (out : list token)
    : list token :=
  fst (EncodeIntoOrdinary (bpe e) text out).

Definition nonEmpty (s : gostring) : bool := negb (gostring_eqb s []).

Fixpoint HasPrefix (s prefix : gostring) : bool :=
  match prefix, s with
  | [], _ => true
  | p :: prefix', c :: s' => Ascii.eqb c p && HasPrefix s' prefix'
  | _ :: _, [] => false
  end.

Definition TrimPrefix (s prefix : gostring) : gostring :=
  if HasPrefix s prefix then sliceFrom s (length prefix) else s.

Definition renderContentType (e : Encoding) (ct : gostring)
    (out : list token) : list token :=
  if HasPrefix ct (str "<|constrain|>") then
    let out := renderText e (str " ") out in
    let out := out ++ [idConstrain e] in
    let rest := TrimPrefix ct (str "<|constrain|>") in
    if nonEmpty rest then renderText e rest out else out
  else renderText e (str " " ++ ct) out.


(** ** render_system.go and the developer block *)

Definition nl : gostring := ["010"%char].

(** [strings.ToLower] of the Go standard library. *)
Variable ToLower : gostring -> gostring.

(** The text [writeToolsSection] appends to the builder for a non-empty
    tools map (the TypeScript-like schema renderer). *)
Variable writeToolsSection : ToolsMap -> gostring.

(** [strings.Join] *)
Fixpoint Join (elems : list gostring) (sep : gostring) : gostring :=
  match elems with
  | [] => []
  | [x] => x
  | x :: rest => x ++ sep ++ Join rest sep
  end.

(** The closure [addSection]: a blank line before every section but the
    first, then what [write] writes. *)
Definition addSection (body text : gostring) : gostring :=
  (if 0 <? length body then body ++ nl ++ nl else body) ++ text.

(** What the first section writes: identity, knowledge cutoff and, when
    given, the current date. *)
Definition identitySection (sys : SystemContent) : gostring :=
  let mid :=
    match ModelIdentity sys with
    | Some m =>
      if nonEmpty m then m
      else str "You are ChatGPT, a large language model trained by OpenAI."
    | None => str "You are ChatGPT, a large language model trained by OpenAI."
    end in
  let kc :=
    match KnowledgeCutoff sys with
    | Some k => if nonEmpty k then k else str "2024-06"
    | None => str "2024-06"
    end in
  mid ++ nl ++ str "Knowledge cutoff: " ++ kc
    ++ match ConversationStartDate sys with
       | Some d => if nonEmpty d then nl ++ str "Current date: " ++ d else []
       | None => []
       end.

(** The text [renderSystemContent] builds in [body]. *)
Definition systemBody (sys : SystemContent) (opts : renderOptions)
    : gostring :=
  let body : gostring := [] in
  let body := addSection body (identitySection sys) in
  let eff :=
    match ReasoningEffort_ sys with
    | Some r => ToLower r
    | None => str "medium"
    end in
  let body := addSection body (str "Reasoning: " ++ eff) in
  let body :=
    if 0 <? length (sys_Tools sys)
    then addSection body (writeToolsSection (sys_Tools sys))
    else body in
  let chanCfg :=
    match ChannelConfig_ sys with
    | Some c => c
    | None => {| ValidChannels := [str "analysis"; str "commentary"; str "final"];
                 ChannelRequired := true |}
    end in
  if 0 <? length (ValidChannels chanCfg) then
    let channels := Join (ValidChannels chanCfg) (str ", ") in
    addSection body
      (str "# Valid channels: " ++ channels ++ str "."
         ++ (if ChannelRequired chanCfg
             then str " Channel must be included for every message."
             else [])
         ++ (if conversationHasFunctionTools opts
             then nl ++ str "Calls to these tools must go to the commentary channel: 'functions'."
             else []))
  else body.

Definition renderSystemContent (e : Encoding) (sys : SystemContent)
    (opts : renderOptions) (out : list token) : list token :=
  renderText e (systemBody sys opts) out.

Definition developerBody (dev : DeveloperContent) : gostring :=
  let body : gostring :=
    match Instructions dev with
    | Some i => if nonEmpty i then str "# Instructions" ++ nl ++ nl ++ i else []
    | None => []
    end in
  if 0 <? length (dev_Tools dev) then
    (if 0 <? length body then body ++ nl ++ nl else body)
      ++ writeToolsSection (dev_Tools dev)
  else body.

Definition renderDeveloperContent (e : Encoding) (dev : DeveloperContent)
    (out : list token) : list token :=
  renderText e (developerBody dev) out.

(** ** Rendering messages *)

Definition needsRecipient (msg : Message) : bool :=
  nonEmpty (Recipient msg) && negb (gostring_eqb (Recipient msg) (str "all")).

(** The loop over [msg.Content]; [None] is an error. *)
Fixpoint renderContents (e : Encoding) (cs : list Content)
    (opts : renderOptions) (out : list token) : option (list token) :=
  match cs with
  | [] => Some out
  | c :: rest =>
    if gostring_eqb (Type_ c) ContentText then
      renderContents e rest opts (renderText e (Text c) out)
    else if gostring_eqb (Type_ c) ContentSystem then
      match System c with
      | None => None
      | Some sys => renderContents e rest opts (renderSystemContent e sys opts out)
      end
    else if gostring_eqb (Type_ c) ContentDeveloper then
      match Developer c with
      | None => None
      | Some dev => renderContents e rest opts (renderDeveloperContent e dev out)
      end
    else None
  end.

(** The end-of-message marker. *)
Definition terminator (e : Encoding) (msg : Message) : token :=
  if gostring_eqb (Role_ (Author_ msg)) RoleAssistant
     && nonEmpty (Recipient msg)
     && negb (gostring_eqb (Recipient msg) (str "all"))
  then idCall e else idEnd e.

(** [renderMessageInto]; [None] is an error. *)
Definition renderMessageInto (e : Encoding) (msg : Message)
    (opts : renderOptions) (out : list token) : option (list token) :=
  let out := out ++ [idStart e] in
  if gostring_eqb (Role_ (Author_ msg)) RoleTool
     && gostring_eqb (Name (Author_ msg)) []
  then None
  else
    let out :=
      if gostring_eqb (Role_ (Author_ msg)) RoleTool then
        if needsRecipient msg then
          let header := Name (Author_ msg) ++ str " to=" ++ Recipient msg in
          renderText e header out
        else renderText e (Name (Author_ msg)) out
      else
        if gostring_eqb (Name (Author_ msg)) [] && negb (needsRecipient msg)
        then renderText e (Role_ (Author_ msg)) out
        else
          let header := Role_ (Author_ msg) in
          let header :=
            if nonEmpty (Name (Author_ msg))
            then header ++ str ":" ++ Name (Author_ msg) else header in
          let header :=
            if needsRecipient msg
            then header ++ str " to=" ++ Recipient msg else header in
          renderText e header out in
    let out :=
      if nonEmpty (Channel msg)
      then renderText e (Channel msg) (out ++ [idChannel e]) else out in
    let out :=
      if nonEmpty (ContentType_ msg)
      then renderContentType e (ContentType_ msg) out else out in
    let out := out ++ [idMessage e] in
    match renderContents e (Content_ msg) opts out with
    | None => None
    | Some out => Some (out ++ [terminator e msg])
    end.

(** [renderMessage], which renders the fields of the header one by one. *)
Definition renderMessage (e : Encoding) (msg : Message)
    (opts : renderOptions) : option (list token) :=
  let out : list token := [] in
  let out := out ++ [idStart e] in
  if gostring_eqb (Role_ (Author_ msg)) RoleTool
     && gostring_eqb (Name (Author_ msg)) []
  then None
  else
    let out :=
      if gostring_eqb (Role_ (Author_ msg)) RoleTool then
        if needsRecipient msg then
          let out := renderText e (Name (Author_ msg)) out in
          let out := renderText e (str " to=") out in
          renderText e (Recipient msg) out
        else renderText e (Name (Author_ msg)) out
      else
        if gostring_eqb (Name (Author_ msg)) [] && negb (needsRecipient msg)
        then renderText e (Role_ (Author_ msg)) out
        else
          let out := renderText e (Role_ (Author_ msg)) out in
          let out :=
            if nonEmpty (Name (Author_ msg)) then
              let out := renderText e (str ":") out in
              renderText e (Name (Author_ msg)) out
            else out in
          if needsRecipient msg then
            let out := renderText e (str " to=") out in
            renderText e (Recipient msg) out
          else out in
    let out :=
      if nonEmpty (Channel msg)
      then renderText e (Channel msg) (out ++ [idChannel e]) else out in
    let out :=
      if nonEmpty (ContentType_ msg)
      then renderContentType e (ContentType_ msg) out else out in
    let out := out ++ [idMessage e] in
    match renderContents e (Content_ msg) opts out with
    | None => None
    | Some out => Some (out ++ [terminator e msg])
    end.

Definition Render (e : Encoding) (msg : Message) : option (list token) :=
  renderMessage e msg {| conversationHasFunctionTools := false |}.


(** ** Rendering conversations *)

(** Whether a message declares a non-empty [functions] namespace in a
    developer block: the inner loop of the pre-pass. *)
Definition declaresFunctionTools (m : Message) : bool :=
  existsb
    (fun c =>
       gostring_eqb (Type_ c) ContentDeveloper
       && match Developer c with
          | None => false
          | Some dev =>
            match mapGet gostring_eqb (dev_Tools dev) (str "functions") with
            | Some ns => 0 <? length (ns_Tools ns)
            | None => false
            end
          end)
    (Content_ m).

Record prepass := {
  lastAssistantFinal : bool;
  firstFinal : Z;
  hasFunctionTools : bool
}.

Definition prepassStep (st : prepass) (i : nat) (m : Message) : prepass :=
  {| firstFinal :=
       if gostring_eqb (Channel m) (str "final") && (firstFinal st =? -1)%Z
       then Z.of_nat i else firstFinal st;
     lastAssistantFinal :=
       if gostring_eqb (Role_ (Author_ m)) RoleAssistant
       then gostring_eqb (Channel m) (str "final")
       else lastAssistantFinal st;
     hasFunctionTools :=
       if negb (hasFunctionTools st) then declaresFunctionTools m
       else hasFunctionTools st |}.

(** [for i := range conv.Messages], from index [i] on. *)
Fixpoint prepassLoop (msgs : list Message) (i : nat) (st : prepass)
    : prepass :=
  match msgs with
  | [] => st
  | m :: rest => prepassLoop rest (S i) (prepassStep st i m)
  end.

Definition runPrepass (conv : Conversation) : prepass :=
  prepassLoop (Messages conv) 0
    {| lastAssistantFinal := false; firstFinal := (-1)%Z;
       hasFunctionTools := false |}.

Definition autoDropOf (cfg : option RenderConversationConfig) : bool :=
  match cfg with
  | None => true
  | Some c => AutoDropAnalysis c
  end.

(** The indices [renderIdx] of the messages that are rendered. *)
Definition renderIdx (conv : Conversation)
    (cfg : option RenderConversationConfig) : list nat :=
  let autoDrop := autoDropOf cfg in
  let pp := runPrepass conv in
  let shouldDrop := autoDrop && lastAssistantFinal pp in
  filter
    (fun i =>
       negb (shouldDrop && (0 <=? firstFinal pp)%Z
             && (Z.of_nat i <? firstFinal pp)%Z
             && gostring_eqb (Channel (msgAt (Messages conv) i)) (str "analysis")))
    (seq 0 (length (Messages conv))).

Definition sumOf (A : Type) (f : A -> nat) (l : list A) : nat :=
  fold_left (fun total x => total + f x) l 0.

Definition optLen (p : option gostring) : nat :=
  match p with Some s => length s | None => 0 end.

Definition estimateToolsMapSize (tools : ToolsMap) : nat :=
  sumOf (fun kv : gostring * ToolNamespaceConfig =>
           let ns := snd kv in
           length (ns_Name ns) + optLen (ns_Description ns)
           + sumOf (fun td => length (td_Name td) + length (td_Description td)
                              + length (td_Parameters td))
                   (ns_Tools ns))
        tools.

Definition estimateChannelConfigSize (cfg : ChannelConfig) : nat :=
  sumOf (@length ascii) (ValidChannels cfg)
  + (if ChannelRequired cfg then 1 else 0).

Definition estimateSystemContentSize (sys : SystemContent) : nat :=
  optLen (ModelIdentity sys) + optLen (ReasoningEffort_ sys)
  + optLen (ConversationStartDate sys) + optLen (KnowledgeCutoff sys)
  + match ChannelConfig_ sys with
    | Some c => estimateChannelConfigSize c
    | None => 0
    end
  + estimateToolsMapSize (sys_Tools sys).

Definition estimateDeveloperContentSize (dev : DeveloperContent) : nat :=
  optLen (Instructions dev) + estimateToolsMapSize (dev_Tools dev).

Definition estimateMessageSize (msg : Message) : nat :=
  length (Name (Author_ msg)) + length (Channel msg)
  + length (ContentType_ msg)
  + (if needsRecipient msg then length (Recipient msg) else 0)
  + sumOf (fun c =>
             if gostring_eqb (Type_ c) ContentText then length (Text c)
             else if gostring_eqb (Type_ c) ContentSystem then
               match System c with
               | Some sys => estimateSystemContentSize sys
               | None => 0
               end
             else if gostring_eqb (Type_ c) ContentDeveloper then
               match Developer c with
               | Some dev => estimateDeveloperContentSize dev
               | None => 0
               end
             else 0)
          (Content_ msg).

Definition parallelRenderMinBytes : nat := 8 * 1024.
Definition parallelRenderMinMessages : nat := 2.

(** [parallelRenderEnabled()]: set from the environment variable
    HARMONY_RENDER_PARALLEL, once per process. *)
Variable parallelRenderEnabled : bool.

Fixpoint reachesMinBytes (msgs : list Message) (indices : list nat)
    (total : nat) : bool :=
  match indices with
  | [] => false
  | idx :: rest =>
    let total := total + estimateMessageSize (msgAt msgs idx) in
    if parallelRenderMinBytes <=? total then true
    else reachesMinBytes msgs rest total
  end.

Definition shouldParallelRender (msgs : list Message) (indices : list nat)
    : bool :=
  if negb parallelRenderEnabled then false
  else if length indices <? parallelRenderMinMessages then false
  else reachesMinBytes msgs indices 0.

(** The sequential path: every message is appended to [out]. *)
Fixpoint renderSequential (e : Encoding) (msgs : list Message)
    (opts : renderOptions) (indices : list nat) (out : list token)
    : option (list token) :=
  match indices with
  | [] => Some out
  | idx :: rest =>
    match renderMessageInto e (msgAt msgs idx) opts out with
    | None => None
    | Some out => renderSequential e msgs opts rest out
    end
  end.

(** The parallel path: every message is rendered on its own into
    [results[slot]]; an error of any worker is the error of the call. *)
Fixpoint renderParallel (e : Encoding) (msgs : list Message)
    (opts : renderOptions) (indices : list nat)
    : option (list (list token)) :=
  match indices with
  | [] => Some []
  | idx :: rest =>
    match renderMessage e (msgAt msgs idx) opts,
          renderParallel e msgs opts rest with
    | Some toks, Some results => Some (toks :: results)
    | _, _ => None
    end
  end.

(** What [RenderConversation] does once [renderIdx] is built. *)
Definition renderIndices (e : Encoding) (conv : Conversation)
    (idxs : list nat) : option (list token) :=
  if length idxs =? 0 then Some []
  else
    let opts := {| conversationHasFunctionTools :=
                     hasFunctionTools (runPrepass conv) |} in
    if shouldParallelRender (Messages conv) idxs then
      match renderParallel e (Messages conv) opts idxs with
      | None => None
      | Some results => Some (concat results)
      end
    else renderSequential e (Messages conv) opts idxs [].

(** [RenderConversation]; a nil [cfg] is [None]; the result [None] is an
    error. *)
Definition RenderConversation (e : Encoding) (conv : Conversation)
    (cfg : option RenderConversationConfig) : option (list token) :=
  renderIndices e conv (renderIdx conv cfg).

Definition RenderConversationForCompletion (e : Encoding)
    (conv : Conversation) (next : Role)
    (cfg : option RenderConversationConfig) : option (list token) :=
  match RenderConversation e conv cfg with
  | None => None
  | Some out => Some (renderText e next (out ++ [idStart e]))
  end.

Definition RenderConversationForTraining (e : Encoding)
    (conv : Conversation) (cfg : option RenderConversationConfig)
    : option (list token) :=
  if length (Messages conv) =? 0 then Some []
  else
    match RenderConversation e conv cfg with
    | None => None
    | Some out =>
      let last := msgAt (Messages conv) (length (Messages conv) - 1) in
      if gostring_eqb (Role_ (Author_ last)) RoleAssistant
         && gostring_eqb (Channel last) (str "final")
      then
        if length out =? 0 then Some out
        else Some (updAt out (length out - 1) (fun _ => idReturn e))
      else Some out
    end.


(** *** The pre-pass, declaratively *)

Definition isFinal (m : Message) : bool :=
  gostring_eqb (Channel m) (str "final").
Definition isAnalysis (m : Message) : bool :=
  gostring_eqb (Channel m) (str "analysis").
Definition isAssistant (m : Message) : bool :=
  gostring_eqb (Role_ (Author_ m)) RoleAssistant.

(** The index of the first message that satisfies [p]. *)
Fixpoint firstIndexWhere (p : Message -> bool) (msgs : list Message)
    : option nat :=
  match msgs with
  | [] => None
  | m :: rest =>
    if p m then Some 0 else option_map S (firstIndexWhere p rest)
  end.

(** The last message that satisfies [p]. *)
Fixpoint lastWhere (p : Message -> bool) (msgs : list Message)
    : option Message :=
  match msgs with
  | [] => None
  | m :: rest =>
    match lastWhere p rest with
    | Some x => Some x
    | None => if p m then Some m else None
    end
  end.

(** "The last assistant message is in channel final." *)
Definition lastAssistantIsFinal (conv : Conversation) : bool :=
  match lastWhere isAssistant (Messages conv) with
  | Some m => isFinal m
  | None => false
  end.

(** "The last message has role assistant and channel final." *)
Definition lastIsAssistantFinal (conv : Conversation) : bool :=
  match Messages conv with
  | [] => false
  | _ :: _ =>
    let last := msgAt (Messages conv) (length (Messages conv) - 1) in
    isAssistant last && isFinal last
  end.

Lemma prepassLoop_spec (msgs : list Message) :
  forall (i : nat) (st : prepass),
    lastAssistantFinal (prepassLoop msgs i st)
    = match lastWhere isAssistant msgs with
      | Some m => isFinal m
      | None => lastAssistantFinal st
      end
    /\ firstFinal (prepassLoop msgs i st)
       = if (firstFinal st =? -1)%Z then
           match firstIndexWhere isFinal msgs with
           | Some k => Z.of_nat (i + k)
           | None => (-1)%Z
           end
         else firstFinal st.
Proof.
  induction msgs as [|m rest IH]; intros i st.
  - cbn [prepassLoop lastWhere firstIndexWhere]. split; [reflexivity|].
    destruct (firstFinal st =? -1)%Z eqn:E; [|reflexivity].
    now apply Z.eqb_eq in E.
  - cbn [prepassLoop lastWhere firstIndexWhere].
    destruct (IH (S i) (prepassStep st i m)) as [IH1 IH2].
    rewrite IH1, IH2. clear IH IH1 IH2.
    cbn [prepassStep firstFinal lastAssistantFinal].
    fold (isAssistant m). fold (isFinal m). split.
    + destruct (lastWhere isAssistant rest); [reflexivity|].
      destruct (isAssistant m); reflexivity.
    + destruct (firstFinal st =? -1)%Z eqn:E.
      * destruct (isFinal m); cbn [andb].
        -- assert (E' : (Z.of_nat i =? -1)%Z = false)
             by (apply Z.eqb_neq; lia).
           rewrite E'. f_equal. lia.
        -- rewrite E.
           destruct (firstIndexWhere isFinal rest); cbn [option_map];
             [|reflexivity].
           f_equal. lia.
      * rewrite andb_false_r. now rewrite E.
Qed.

Lemma lastWhere_In (p : Message -> bool) (msgs : list Message) (m : Message) :
  lastWhere p msgs = Some m -> In m msgs /\ p m = true.
Proof.
  induction msgs as [|x rest IH]; simpl; [discriminate|].
  destruct (lastWhere p rest) as [y|].
  - intros H. inversion H; subst. destruct IH as [H1 H2]; auto.
  - destruct (p x) eqn:E; [|discriminate].
    intros H. inversion H; subst. auto.
Qed.

Lemma firstIndexWhere_some (p : Message -> bool) (msgs : list Message)
    (m : Message) :
  In m msgs -> p m = true ->
  exists f, firstIndexWhere p msgs = Some f /\ f < length msgs.
Proof.
  induction msgs as [|x rest IH]; simpl; [tauto|].
  intros Hin Hp. destruct (p x) eqn:E.
  - exists 0. split; [reflexivity|lia].
  - destruct Hin as [->|Hin]; [congruence|].
    destruct (IH Hin Hp) as [f [Hf Hlt]]. rewrite Hf.
    exists (S f). split; [reflexivity|lia].
Qed.

(** The indices kept when everything in channel [analysis] before index [f]
    is dropped. *)
Definition keptBefore (msgs : list Message) (f : nat) : list nat :=
  filter (fun i => negb ((i <? f) && isAnalysis (msgAt msgs i)))
         (seq 0 (length msgs)).


Lemma renderIdx_drop (conv : Conversation)
    (cfg : option RenderConversationConfig) :
  autoDropOf cfg = true ->
  lastAssistantIsFinal conv = true ->
  exists f,
    firstIndexWhere isFinal (Messages conv) = Some f /\
    f < length (Messages conv) /\
    renderIdx conv cfg = keptBefore (Messages conv) f.
Proof.
  intros Hauto Hlast. unfold lastAssistantIsFinal in Hlast.
  destruct (lastWhere isAssistant (Messages conv)) as [m|] eqn:Em;
    [|discriminate].
  destruct (lastWhere_In _ _ Em) as [Hin _].
  destruct (firstIndexWhere_some isFinal _ _ Hin Hlast) as [f [Hf Hlt]].
  exists f. split; [assumption|]. split; [assumption|].
  unfold renderIdx, runPrepass, keptBefore.
  destruct (prepassLoop_spec (Messages conv) 0
              {| lastAssistantFinal := false; firstFinal := (-1)%Z;
                 hasFunctionTools := false |}) as [H1 H2].
  cbn [firstFinal lastAssistantFinal] in H1, H2.
  change ((-1 =? -1)%Z) with true in H2. cbn [Nat.add] in H2.
  rewrite H1, H2, Em, Hf, Hauto, Hlast.
  apply filter_ext. intros i.
  assert (E0 : (0 <=? Z.of_nat f)%Z = true) by (apply Z.leb_le; lia).
  rewrite E0. cbn [andb]. fold (isAnalysis (msgAt (Messages conv) i)).
  destruct (i <? f) eqn:Ei.
  - apply Nat.ltb_lt in Ei.
    assert (Ez : (Z.of_nat i <? Z.of_nat f)%Z = true) by (apply Z.ltb_lt; lia).
    now rewrite Ez.
  - apply Nat.ltb_ge in Ei.
    assert (Ez : (Z.of_nat i <? Z.of_nat f)%Z = false) by (apply Z.ltb_ge; lia).
    now rewrite Ez.
Qed.

(** X30.  Without auto-drop, or when the last assistant message is not in channel
    [final], every message is rendered. *)
Lemma renderIdx_keep_all (conv : Conversation)
    (cfg : option RenderConversationConfig) :
  autoDropOf cfg && lastAssistantIsFinal conv = false ->
  renderIdx conv cfg = seq 0 (length (Messages conv)).
Proof.
  intros H. unfold renderIdx, runPrepass. cbv zeta.
  destruct (prepassLoop_spec (Messages conv) 0
              {| lastAssistantFinal := false; firstFinal := (-1)%Z;
                 hasFunctionTools := false |}) as [H1 _].
  cbn [lastAssistantFinal] in H1. rewrite H1.
  unfold lastAssistantIsFinal in H. rewrite H. cbn [andb negb].
  induction (seq 0 (length (Messages conv))) as [|x l IH];
    cbn [filter]; [reflexivity|now rewrite IH].
Qed.

(** C1.  With auto-drop enabled and the last assistant message in
    channel [final], the messages left out of the output of
    [RenderConversation] are exactly the messages in channel [analysis], of
    any role, whose index is below that of the first [final] message; all
    other messages are rendered, in their original order. *)
Theorem auto_drop_analysis (e : Encoding) (conv : Conversation)
    (cfg : option RenderConversationConfig) :
  autoDropOf cfg = true ->
  lastAssistantIsFinal conv = true ->
  exists f,
    firstIndexWhere isFinal (Messages conv) = Some f /\
    renderIdx conv cfg = keptBefore (Messages conv) f /\
    (forall i, i < length (Messages conv) ->
       (In i (renderIdx conv cfg) <->
        ~ (i < f /\ Channel (msgAt (Messages conv) i) = str "analysis"))) /\
    RenderConversation e conv cfg
    = renderIndices e conv (keptBefore (Messages conv) f).
Proof.
  intros Hauto Hlast.
  destruct (renderIdx_drop conv cfg Hauto Hlast) as [f [Hf [Hlt Hidx]]].
  exists f. split; [assumption|]. split; [assumption|]. split.
  - intros i Hi. rewrite Hidx. unfold keptBefore.
    rewrite filter_In, in_seq, negb_true_iff, andb_false_iff.
    unfold isAnalysis. rewrite Nat.ltb_ge.
    split.
    + intros [_ [H|H]] [H1 H2]; [lia|].
      apply gostring_eqb_eq in H2. congruence.
    + intros H. split; [lia|].
      destruct (Nat.lt_ge_cases i f) as [Hl|Hg]; [|now left].
      right. destruct (gostring_eqb _ _) eqn:E; [|reflexivity].
      apply gostring_eqb_eq in E. tauto.
  - unfold RenderConversation. now rewrite Hidx.
Qed.

(** C9.  A nil configuration renders as one with auto-drop enabled. *)
Theorem nil_config_is_auto_drop (e : Encoding) (conv : Conversation) :
  RenderConversation e conv None
  = RenderConversation e conv (Some {| AutoDropAnalysis := true |}).
Proof.
  unfold RenderConversation, renderIdx.
  cbn [autoDropOf AutoDropAnalysis].
  reflexivity.
Qed.


(** *** The shape of a rendered message *)

(** [out'] is [out] with tokens appended. *)
Definition extends (out out' : list token) : Prop :=
  exists toks, out' = out ++ toks.

Lemma extends_refl (out : list token) : extends out out.
Proof. exists []. now rewrite app_nil_r. Qed.

Lemma extends_trans (a b c : list token) :
  extends a b -> extends b c -> extends a c.
Proof.
  intros [x ->] [y ->]. exists (x ++ y). now rewrite app_assoc.
Qed.

Lemma extends_app (a b l : list token) : extends a b -> extends a (b ++ l).
Proof. intros H. eapply extends_trans; [exact H|]. now exists l. Qed.

Lemma encodeLoop_extends (b : coreBPE) (text : gostring)
    (allowed : list gostring) (fuel : nat) :
  forall (i : nat) (out : list token) (lp : nat),
    extends out (fst (encodeLoop fuel b text allowed i out lp)).
Proof.
  induction fuel as [|fuel IH]; intros i out lp; cbn [encodeLoop];
    [apply extends_refl|].
  destruct (i <? length text); [|apply extends_refl].
  destruct (if 0 <? length allowed then _ else _) as [tok n].
  destruct (_ && _).
  - eapply extends_trans; [|apply IH]. apply extends_app, extends_refl.
  - cbv zeta. destruct (encGet b _).
    + eapply extends_trans; [|apply IH]. apply extends_app, extends_refl.
    + eapply extends_trans; [|apply IH]. apply extends_app, extends_refl.
Qed.

Lemma extends_renderText (e : Encoding) (text : gostring)
    (a out : list token) :
  extends a out -> extends a (renderText e text out).
Proof.
  intros H. eapply extends_trans; [exact H|].
  apply encodeLoop_extends.
Qed.

Lemma extends_renderContentType (e : Encoding) (ct : gostring)
    (a out : list token) :
  extends a out -> extends a (renderContentType e ct out).
Proof.
  intros H. unfold renderContentType.
  destruct (HasPrefix ct _).
  - cbv zeta. destruct (nonEmpty _).
    + now apply extends_renderText, extends_app, extends_renderText.
    + now apply extends_app, extends_renderText.
  - now apply extends_renderText.
Qed.

Lemma extends_renderContents (e : Encoding) (opts : renderOptions)
    (cs : list Content) :
  forall (a out out' : list token),
    extends a out -> renderContents e cs opts out = Some out' ->
    extends a out'.
Proof.
  induction cs as [|c cs IH]; intros a out out' Ha H; cbn [renderContents] in H.
  - inversion H; subst. assumption.
  - destruct (gostring_eqb (Type_ c) ContentText).
    { eapply IH; [|exact H]. now apply extends_renderText. }
    destruct (gostring_eqb (Type_ c) ContentSystem).
    { destruct (System c); [|discriminate].
      eapply IH; [|exact H]. now apply extends_renderText. }
    destruct (gostring_eqb (Type_ c) ContentDeveloper); [|discriminate].
    destruct (Developer c); [|discriminate].
    eapply IH; [|exact H]. now apply extends_renderText.
Qed.

Ltac extends_steps :=
  repeat first
    [ assumption
    | apply extends_refl
    | apply extends_renderText
    | apply extends_renderContentType
    | apply extends_app
    | match goal with
      | |- context [if ?c then _ else _] => destruct c
      end ].

Lemma renderMessageInto_shape (e : Encoding) (msg : Message)
    (opts : renderOptions) (out out' : list token) :
  renderMessageInto e msg opts out = Some out' ->
  exists mid, out' = out ++ mid ++ [terminator e msg].
Proof.
  unfold renderMessageInto. cbv zeta.
  destruct (_ && _); [discriminate|].
  destruct (renderContents e (Content_ msg) opts _) as [oc|] eqn:Hc;
    [|discriminate].
  intros H. inversion H; subst. clear H.
  apply (@extends_renderContents e opts (Content_ msg) out) in Hc.
  - destruct Hc as [mid ->]. exists mid. now rewrite app_assoc.
  - extends_steps.
Qed.

Lemma renderMessage_shape (e : Encoding) (msg : Message)
    (opts : renderOptions) (toks : list token) :
  renderMessage e msg opts = Some toks ->
  exists mid, toks = mid ++ [terminator e msg].
Proof.
  unfold renderMessage. cbv zeta.
  destruct (_ && _); [discriminate|].
  destruct (renderContents e (Content_ msg) opts _) as [oc|];
    [|discriminate].
  intros H. inversion H; subst. now exists oc.
Qed.

Lemma renderSequential_shape (e : Encoding) (msgs : list Message)
    (opts : renderOptions) (idxs : list nat) :
  forall (out out' : list token),
    renderSequential e msgs opts idxs out = Some out' ->
    idxs <> [] ->
    exists pre, out' = pre ++ [terminator e (msgAt msgs (last idxs 0))].
Proof.
  induction idxs as [|idx rest IH]; intros out out' H Hne; [congruence|].
  cbn [renderSequential] in H.
  destruct (renderMessageInto e (msgAt msgs idx) opts out) as [o1|] eqn:H1;
    [|discriminate].
  destruct rest as [|idx' rest].
  - cbn [renderSequential] in H. inversion H; subst.
    apply renderMessageInto_shape in H1. destruct H1 as [mid ->].
    exists (out ++ mid). now rewrite <- app_assoc.
  - apply IH in H; [|congruence]. exact H.
Qed.

Lemma renderParallel_shape (e : Encoding) (msgs : list Message)
    (opts : renderOptions) (idxs : list nat) :
  forall (results : list (list token)),
    renderParallel e msgs opts idxs = Some results ->
    idxs <> [] ->
    exists pre, concat results = pre ++ [terminator e (msgAt msgs (last idxs 0))].
Proof.
  induction idxs as [|idx rest IH]; intros results H Hne; [congruence|].
  cbn [renderParallel] in H.
  destruct (renderMessage e (msgAt msgs idx) opts) as [toks|] eqn:H1;
    [|discriminate].
  destruct (renderParallel e msgs opts rest) as [rs|] eqn:H2; [|discriminate].
  inversion H; subst. clear H.
  destruct rest as [|idx' rest].
  - cbn [renderParallel] in H2. inversion H2; subst.
    apply renderMessage_shape in H1. destruct H1 as [mid ->].
    exists mid. cbn [concat last]. now rewrite app_nil_r.
  - destruct (IH rs eq_refl) as [pre Hpre]; [congruence|].
    exists (toks ++ pre). cbn [concat]. rewrite Hpre.
    now rewrite app_assoc.
Qed.

Lemma renderIndices_shape (e : Encoding) (conv : Conversation)
    (idxs : list nat) (toks : list token) :
  renderIndices e conv idxs = Some toks ->
  idxs <> [] ->
  exists pre,
    toks = pre ++ [terminator e (msgAt (Messages conv) (last idxs 0))].
Proof.
  intros H Hne. unfold renderIndices in H.
  destruct (length idxs =? 0) eqn:E.
  { apply Nat.eqb_eq in E. destruct idxs; [congruence|discriminate]. }
  cbv zeta in H.
  destruct (shouldParallelRender (Messages conv) idxs).
  - destruct (renderParallel e (Messages conv) _ idxs) as [rs|] eqn:Hp;
      [|discriminate].
    inversion H; subst. eapply renderParallel_shape; eauto.
  - eapply renderSequential_shape; eauto.
Qed.

Lemma isFinal_not_analysis (m : Message) :
  isFinal m = true -> isAnalysis m = false.
Proof.
  unfold isFinal, isAnalysis. intros H.
  apply gostring_eqb_eq in H. rewrite H. reflexivity.
Qed.

(** A last message in channel [final] is never dropped. *)
Lemma renderIdx_last (conv : Conversation)
    (cfg : option RenderConversationConfig) :
  lastIsAssistantFinal conv = true ->
  exists pre, renderIdx conv cfg = pre ++ [length (Messages conv) - 1].
Proof.
  unfold lastIsAssistantFinal, renderIdx. cbv zeta.
  destruct (Messages conv) as [|m0 rest] eqn:Em; [discriminate|].
  set (msgs := m0 :: rest).
  intros H. apply andb_prop in H. destruct H as [_ Hfin].
  apply isFinal_not_analysis in Hfin. unfold isAnalysis in Hfin.
  assert (Hn : length msgs = S (length msgs - 1))
    by (subst msgs; cbn [length]; lia).
  replace (seq 0 (length msgs))
    with (seq 0 (length msgs - 1) ++ [0 + (length msgs - 1)])
    by (rewrite <- seq_S; now rewrite <- Hn).
  rewrite filter_app. cbn [filter Nat.add].
  rewrite Hfin, !andb_false_r. cbn [negb].
  eexists. reflexivity.
Qed.

Lemma updAt_last (A : Type) (pre : list A) (x : A) (f : A -> A) :
  updAt (pre ++ [x]) (length (pre ++ [x]) - 1) f = pre ++ [f x].
Proof.
  rewrite length_app. cbn [length].
  replace (length pre + 1 - 1) with (length pre) by lia.
  induction pre as [|y pre IH]; cbn; [reflexivity|]. now rewrite IH.
Qed.

Lemma LoadEncoding_inv (name : EncodingName)
    (o200k : option (list (gostring * Rank))) (e : Encoding) :
  LoadEncoding name o200k = Some e ->
  exists pairs,
    o200k = Some pairs /\
    bpe e = newCoreBPE pairs HarmonySpecials /\
    idStart e = TokStart /\ idMessage e = TokMessage /\ idEnd e = TokEnd /\
    idReturn e = TokReturn /\ idCall e = TokCall /\
    idConstrain e = TokConstrain /\ idChannel e = TokChannel /\
    stopAll e = [TokReturn; TokCall; TokEnd] /\
    stopAssistant e = [TokReturn; TokCall].
Proof using.
  unfold LoadEncoding.
  destruct (negb _); [discriminate|].
  destruct o200k as [pairs|]; [|discriminate].
  intros H. inversion H; subst. clear H.
  exists pairs. split; [reflexivity|]. split; [reflexivity|].
  repeat split; vm_compute; reflexivity.
Qed.


Lemma lastIsAssistantFinal_true (conv : Conversation) :
  lastIsAssistantFinal conv = true ->
  (length (Messages conv) =? 0) = false /\
  gostring_eqb
    (Role_ (Author_ (msgAt (Messages conv) (length (Messages conv) - 1))))
    RoleAssistant = true /\
  gostring_eqb
    (Channel (msgAt (Messages conv) (length (Messages conv) - 1)))
    (str "final") = true.
Proof.
  unfold lastIsAssistantFinal, isAssistant, isFinal.
  destruct (Messages conv) as [|m0 rest]; [discriminate|].
  intros H. apply andb_prop in H. destruct H. auto.
Qed.

Lemma lastIsAssistantFinal_false (conv : Conversation) :
  lastIsAssistantFinal conv = false ->
  (length (Messages conv) =? 0) = false ->
  gostring_eqb
    (Role_ (Author_ (msgAt (Messages conv) (length (Messages conv) - 1))))
    RoleAssistant
  && gostring_eqb
       (Channel (msgAt (Messages conv) (length (Messages conv) - 1)))
       (str "final") = false.
Proof.
  unfold lastIsAssistantFinal, isAssistant, isFinal.
  destruct (Messages conv) as [|m0 rest]; [discriminate|]. auto.
Qed.

(** X29.  The training render against the base render: it differs by at most the
    last token, and exactly when the last message has role assistant and
    channel [final]; the last token, which is the terminator of that message
    ([<|end|>], or [<|call|>] when the message has a recipient other than
    [all]), is then overwritten with [<|return|>]. *)
Lemma training_last_token (name : EncodingName)
    (o200k : option (list (gostring * Rank))) (e : Encoding)
    (conv : Conversation) (cfg : option RenderConversationConfig)
    (base : list token) :
  LoadEncoding name o200k = Some e ->
  RenderConversation e conv cfg = Some base ->
  let last := msgAt (Messages conv) (length (Messages conv) - 1) in
  (lastIsAssistantFinal conv = true ->
     exists pre,
       base = pre ++ [if needsRecipient last then 200012%N else 200007%N] /\
       RenderConversationForTraining e conv cfg = Some (pre ++ [200002%N]) /\
       RenderConversationForTraining e conv cfg <> Some base)
  /\ (lastIsAssistantFinal conv = false ->
      RenderConversationForTraining e conv cfg = Some base).
Proof.
  intros Hload Hbase last. subst last.
  destruct (@LoadEncoding_inv name o200k e Hload)
    as [pairs [_ [_ [_ [_ [Hend [Hret [Hcall _]]]]]]]].
  split.
  - intros Hlast.
    destruct (@renderIdx_last conv cfg Hlast) as [ipre Hidx].
    unfold RenderConversation in Hbase.
    destruct (@renderIndices_shape e conv _ base Hbase) as [pre Hpre].
    { rewrite Hidx. now destruct ipre. }
    rewrite Hidx, last_last in Hpre.
    destruct (lastIsAssistantFinal_true conv Hlast) as [En [Ha Hf]].
    set (last := msgAt (Messages conv) (length (Messages conv) - 1)) in *.
    assert (Hterm : terminator e last
                    = if needsRecipient last then 200012%N else 200007%N).
    { unfold terminator, needsRecipient.
      rewrite Ha, Hcall, Hend. reflexivity. }
    assert (Htrain : RenderConversationForTraining e conv cfg
                     = Some (pre ++ [200002%N])).
    { unfold RenderConversationForTraining, RenderConversation.
      rewrite Hbase, En. fold last. rewrite Ha, Hf. cbn [andb].
      rewrite Hpre.
      assert (Eo : (length (pre ++ [terminator e last]) =? 0) = false).
      { rewrite length_app. cbn [length]. apply Nat.eqb_neq. lia. }
      rewrite Eo, updAt_last, Hret. reflexivity. }
    exists pre. split; [rewrite Hpre, Hterm; reflexivity|].
    split; [assumption|].
    rewrite Htrain, Hpre, Hterm. intros H. inversion H as [H'].
    apply app_inj_tail in H'. destruct H' as [_ H'].
    destruct (needsRecipient last); discriminate.
  - intros Hlast.
    unfold RenderConversationForTraining.
    destruct (length (Messages conv) =? 0) eqn:En.
    + apply Nat.eqb_eq in En.
      unfold RenderConversation, renderIdx in Hbase. cbv zeta in Hbase.
      rewrite En in Hbase. cbn in Hbase. congruence.
    + rewrite Hbase.
      now rewrite (lastIsAssistantFinal_false conv Hlast En).
Qed.

(** C7.  The stop tokens of a loaded encoding are [<|return|>], [<|end|>]
    and [<|call|>]; those for assistant actions are [<|return|>] and
    [<|call|>]. *)
Theorem stop_token_sets (name : EncodingName)
    (o200k : option (list (gostring * Rank))) (e : Encoding)
    (out1 out2 : list token) :
  LoadEncoding name o200k = Some e ->
  StopTokens e out1 ->
  StopTokensForAssistantActions e out2 ->
  (NoDup out1 /\
   forall t, In t out1 <-> t = 200002%N \/ t = 200007%N \/ t = 200012%N)
  /\ (NoDup out2 /\ forall t, In t out2 <-> t = 200002%N \/ t = 200012%N).
Proof using.
  intros Hload H1 H2.
  destruct (@LoadEncoding_inv name o200k e Hload)
    as [pairs [_ [_ [_ [_ [_ [_ [_ [_ [_ [Hall Hasst]]]]]]]]]]].
  unfold StopTokens in H1. unfold StopTokensForAssistantActions in H2.
  rewrite Hall in H1. rewrite Hasst in H2.
  unfold TokReturn, TokCall, TokEnd in *.
  assert (Hnd1 : NoDup [200002%N; 200012%N; 200007%N]).
  { apply distinctb_NoDup. reflexivity. }
  assert (Hnd2 : NoDup [200002%N; 200012%N]).
  { apply distinctb_NoDup. reflexivity. }
  split; split.
  - exact (Permutation_NoDup H1 Hnd1).
  - intros t. split.
    + intros Hin. apply (Permutation_in _ (Permutation_sym H1)) in Hin.
      destruct Hin as [H|[H|[H|[]]]]; subst; auto.
    + intros Ht. apply (Permutation_in _ H1).
      destruct Ht as [Ht|[Ht|Ht]]; subst t; cbn; auto.
  - exact (Permutation_NoDup H2 Hnd2).
  - intros t. split.
    + intros Hin. apply (Permutation_in _ (Permutation_sym H2)) in Hin.
      destruct Hin as [H|[H|[]]]; subst; auto.
    + intros Ht. apply (Permutation_in _ H2).
      destruct Ht as [Ht|Ht]; subst t; cbn; auto.
Qed.

Lemma addSection_nonempty (body text : gostring) :
  body <> [] -> addSection body text = body ++ nl ++ nl ++ text.
Proof.
  intros H. unfold addSection.
  destruct body; [congruence|]. cbn [length Nat.ltb Nat.leb].
  now rewrite <- !app_assoc.
Qed.

Lemma identitySection_nonempty (sys : SystemContent) :
  identitySection sys <> [].
Proof.
  unfold identitySection. cbv zeta. intros H.
  apply (f_equal (@length ascii)) in H.
  rewrite !length_app in H. cbn [nl length] in H. lia.
Qed.

(** C8.  The system body of a content item without any field set, in a
    conversation without function tools, is the default text; and when a
    reasoning effort is set, the second section is [Reasoning: ] followed by
    the effort in lower case. *)
Theorem system_body_text :
  systemBody
    {| ModelIdentity := None; ReasoningEffort_ := None; sys_Tools := [];
       ConversationStartDate := None; KnowledgeCutoff := None;
       ChannelConfig_ := None |}
    {| conversationHasFunctionTools := false |}
  = str "You are ChatGPT, a large language model trained by OpenAI." ++ nl
    ++ str "Knowledge cutoff: 2024-06" ++ nl ++ nl
    ++ str "Reasoning: medium" ++ nl ++ nl
    ++ str "# Valid channels: analysis, commentary, final. Channel must be included for every message."
  /\ forall (sys : SystemContent) (opts : renderOptions)
            (effort : ReasoningEffort),
       ReasoningEffort_ sys = Some effort ->
       exists tail,
         systemBody sys opts
         = identitySection sys ++ nl ++ nl
           ++ (str "Reasoning: " ++ ToLower effort) ++ tail
         /\ (tail = [] \/ exists t, tail = nl ++ nl ++ t).
Proof.
  split; [reflexivity|].
  intros sys opts effort Heff. unfold systemBody. cbv zeta.
  rewrite Heff.
  assert (H1 : addSection [] (identitySection sys) = identitySection sys)
    by reflexivity.
  rewrite H1.
  rewrite (addSection_nonempty _ (identitySection_nonempty sys)).
  set (b2 := identitySection sys ++ nl ++ nl ++ str "Reasoning: " ++ ToLower effort).
  assert (Hb2 : b2 <> []).
  { subst b2. intros H. apply (f_equal (@length ascii)) in H.
    rewrite !length_app in H. cbn [nl length] in H. lia. }
  destruct (0 <? length (sys_Tools sys)).
  - rewrite (addSection_nonempty _ Hb2).
    set (b3 := b2 ++ nl ++ nl ++ writeToolsSection (sys_Tools sys)).
    assert (Hb3 : b3 <> []).
    { subst b3. intros H. apply (f_equal (@length ascii)) in H.
      rewrite !length_app in H. cbn [nl length] in H. lia. }
    destruct (0 <? length (ValidChannels _)).
    + rewrite (addSection_nonempty _ Hb3). subst b3 b2.
      eexists. split; [|right; eexists; reflexivity].
      rewrite <- !app_assoc. reflexivity.
    + subst b3 b2. eexists. split; [|right; eexists; reflexivity].
      rewrite <- !app_assoc. reflexivity.
  - destruct (0 <? length (ValidChannels _)).
    + rewrite (addSection_nonempty _ Hb2). subst b2.
      eexists. split; [|right; eexists; reflexivity].
      rewrite <- !app_assoc. reflexivity.
    + subst b2. exists []. split; [|now left].
      rewrite <- !app_assoc. now rewrite app_nil_r.
Qed.


(** ** header_helpers.go *)

(** [strings.TrimSpace] of the Go standard library. *)
Variable TrimSpace : gostring -> gostring.

(** [strings.Index]: [None] is -1. *)
Fixpoint Index (s substr : gostring) : option nat :=
  if HasPrefix s substr then Some 0
  else match s with
       | [] => None
       | _ :: s' => option_map S (Index s' substr)
       end.

Definition Contains (s substr : gostring) : bool :=
  match Index s substr with Some _ => true | None => false end.

(** [strings.IndexByte] *)
Fixpoint IndexByte (s : gostring) (c : ascii) : option nat :=
  match s with
  | [] => None
  | x :: s' => if Ascii.eqb x c then Some 0 else option_map S (IndexByte s' c)
  end.

(** [strings.ReplaceAll] for a non-empty [old]: the occurrences are replaced
    from left to right, without overlap. *)
Fixpoint replaceAll_loop (fuel : nat) (s old new : gostring) : gostring :=
  match fuel with
  | O => s
  | S fuel' =>
    if HasPrefix s old
    then new ++ replaceAll_loop fuel' (sliceFrom s (length old)) old new
    else match s with
         | [] => []
         | c :: s' => c :: replaceAll_loop fuel' s' old new
         end
  end.

Definition ReplaceAll (s old new : gostring) : gostring :=
  replaceAll_loop (length s) s old new.

Definition normalizeHeader (s : gostring) : gostring :=
  let s :=
    if Contains s (str "<|channel|>")
    then TrimSpace (ReplaceAll s (str "<|channel|>") (str " <|channel|>"))
    else s in
  if Contains s (str "<|constrain|>")
  then TrimSpace (ReplaceAll s (str "<|constrain|>") (str " <|constrain|>"))
  else s.

(** The index of the first [' '] or ['<'], [len(s)] when there is none.  The
    source ranges over runes; both characters are ASCII, and no byte of a
    multi-byte sequence equals them, so that the bytes can be scanned. *)
Fixpoint indexSpaceOrLt (s : gostring) : nat :=
  match s with
  | [] => 0
  | c :: s' =>
    if Ascii.eqb c " "%char || Ascii.eqb c "<"%char then 0
    else S (indexSpaceOrLt s')
  end.

Definition splitLeadingToken (s : gostring) : gostring * gostring :=
  let stop := indexSpaceOrLt s in
  let roleToken := slice s 0 stop in
  let rem := if stop <? length s then TrimSpace (sliceFrom s stop) else [] in
  (roleToken, rem).

Definition nextValueToken (input : gostring) : gostring :=
  let input := TrimSpace input in
  if gostring_eqb input [] then []
  else
    let e := indexSpaceOrLt input in
    let token := slice input 0 e in
    if HasPrefix token (str "to=") || HasPrefix token (str "<|") then []
    else token.

Definition isRoleOrAlias (roleToken : gostring) (r : Role) : bool :=
  gostring_eqb roleToken r || HasPrefix roleToken (r ++ str ":").

Definition detectRoleAndAuthor (roleToken remainder : gostring)
    : Role * gostring :=
  let detected :=
    if isRoleOrAlias roleToken RoleUser then RoleUser
    else if isRoleOrAlias roleToken RoleAssistant then RoleAssistant
    else if isRoleOrAlias roleToken RoleSystem then RoleSystem
    else if isRoleOrAlias roleToken RoleDeveloper then RoleDeveloper
    else RoleTool in
  let name :=
    if gostring_eqb detected RoleTool then
      let name :=
        if HasPrefix roleToken (str "tool:")
        then sliceFrom roleToken (length (str "tool:"))
        else if gostring_eqb roleToken RoleTool then nextValueToken remainder
        else if nonEmpty roleToken then roleToken
        else [] in
      if gostring_eqb name [] then nextValueToken remainder else name
    else
      let aliasPrefix := detected ++ str ":" in
      if HasPrefix roleToken aliasPrefix
      then sliceFrom roleToken (length aliasPrefix)
      else [] in
  (detected, name).

Definition extractChannel (s : gostring) : gostring :=
  match Index s (str "<|channel|>") with
  | Some idx =>
    let after := sliceFrom s (idx + length (str "<|channel|>")) in
    match IndexByte after " "%char with
    | None => after
    | Some e => slice after 0 e
    end
  | None => []
  end.

Definition extractRecipient (s : gostring) : gostring :=
  match Index s (str " to=") with
  | Some idx =>
    let after := sliceFrom s (idx + length (str " to=")) in
    let e := indexSpaceOrLt after in
    if e <? length after then slice after 0 e else after
  | None => []
  end.

(** The loop that strips the channel annotations; every pass removes at
    least the marker. *)
Fixpoint stripChannels (fuel : nat) (ss : gostring) : gostring :=
  match fuel with
  | O => ss
  | S fuel' =>
    match Index ss (str "<|channel|>") with
    | None => ss
    | Some idx =>
      let after := sliceFrom ss (idx + length (str "<|channel|>")) in
      match IndexByte after " "%char with
      | None => stripChannels fuel' (TrimSpace (slice ss 0 idx))
      | Some sp =>
        stripChannels fuel' (TrimSpace (slice ss 0 idx ++ sliceFrom after sp))
      end
    end
  end.

Definition scrubContentType (roleToken remainder : gostring) : gostring :=
  let ss := remainder in
  let ss :=
    match find (HasPrefix ss)
               [str "assistant"; str "user"; str "system"; str "developer"] with
    | Some r =>
      let ss := sliceFrom ss (length r) in
      if HasPrefix ss (str ":") then
        let ss := sliceFrom ss 1 in
        match IndexByte ss " "%char with
        | Some sp => sliceFrom ss sp
        | None => []
        end
      else ss
    | None => ss
    end in
  let ss :=
    if HasPrefix ss (str "to=") then
      let after := sliceFrom ss (length (str "to=")) in
      match IndexByte after " "%char with
      | None => []
      | Some sp => TrimSpace (sliceFrom after sp)
      end
    else
      match Index ss (str " to=") with
      | Some idx =>
        let before := slice ss 0 idx in
        let after := sliceFrom ss (idx + length (str " to=")) in
        match IndexByte after " "%char with
        | None => TrimSpace before
        | Some sp => TrimSpace (before ++ sliceFrom after sp)
        end
      | None => ss
      end in
  let ss := stripChannels (length ss) ss in
  TrimSpace ss.

(** *** The fuel of the string loops is enough *)

Lemma HasPrefix_length (prefix : gostring) :
  forall s, HasPrefix s prefix = true -> length prefix <= length s.
Proof.
  induction prefix as [|p prefix IH]; intros s H; cbn [length]; [lia|].
  destruct s as [|c s]; cbn [HasPrefix] in H; [discriminate|].
  apply andb_prop in H. destruct H as [_ H]. apply IH in H.
  cbn [length]. lia.
Qed.

Lemma Index_bound (substr : gostring) :
  forall s idx, Index s substr = Some idx ->
    idx + length substr <= length s.
Proof.
  induction s as [|c s IH]; intros idx H; cbn [Index] in H.
  - destruct (HasPrefix [] substr) eqn:E; [|discriminate].
    inversion H; subst. now apply HasPrefix_length in E.
  - destruct (HasPrefix (c :: s) substr) eqn:E.
    + inversion H; subst. now apply HasPrefix_length in E.
    + destruct (Index s substr) as [k|] eqn:Ek; [|discriminate].
      inversion H; subst. specialize (IH k eq_refl). cbn [length]. lia.
Qed.

Lemma replaceAll_loop_fuel (old new : gostring) (fuel : nat) :
  old <> [] ->
  forall s, length s <= fuel ->
    replaceAll_loop (S fuel) s old new = replaceAll_loop fuel s old new.
Proof.
  intros Hold. induction fuel as [|fuel IH]; intros s Hs.
  - destruct s; [|cbn [length] in Hs; lia].
    cbn [replaceAll_loop]. destruct old; [congruence|reflexivity].
  - change (replaceAll_loop (S (S fuel)) s old new) with
      (if HasPrefix s old
       then new ++ replaceAll_loop (S fuel) (sliceFrom s (length old)) old new
       else match s with
            | [] => []
            | c :: s' => c :: replaceAll_loop (S fuel) s' old new
            end).
    change (replaceAll_loop (S fuel) s old new) with
      (if HasPrefix s old
       then new ++ replaceAll_loop fuel (sliceFrom s (length old)) old new
       else match s with
            | [] => []
            | c :: s' => c :: replaceAll_loop fuel s' old new
            end).
    destruct (HasPrefix s old) eqn:E.
    + f_equal. apply IH. unfold sliceFrom. rewrite length_skipn.
      apply HasPrefix_length in E.
      destruct old; [congruence|]. cbn [length] in *. lia.
    + destruct s as [|c s']; [reflexivity|].
      f_equal. apply IH. cbn [length] in Hs. lia.
Qed.

(** [strings.TrimSpace] never makes a string longer; so every pass of the
    channel-stripping loop shortens [ss], and the fuel is not used up. *)
Lemma stripChannels_fuel (fuel : nat) :
  (forall s, length (TrimSpace s) <= length s) ->
  forall ss, length ss <= fuel ->
    stripChannels (S fuel) ss = stripChannels fuel ss.
Proof.
  intros Htrim. induction fuel as [|fuel IH]; intros ss Hs.
  - destruct ss; [reflexivity|cbn [length] in Hs; lia].
  - change (stripChannels (S (S fuel)) ss) with
      (match Index ss (str "<|channel|>") with
       | None => ss
       | Some idx =>
         let after := sliceFrom ss (idx + length (str "<|channel|>")) in
         match IndexByte after " "%char with
         | None => stripChannels (S fuel) (TrimSpace (slice ss 0 idx))
         | Some sp =>
           stripChannels (S fuel)
             (TrimSpace (slice ss 0 idx ++ sliceFrom after sp))
         end
       end).
    change (stripChannels (S fuel) ss) with
      (match Index ss (str "<|channel|>") with
       | None => ss
       | Some idx =>
         let after := sliceFrom ss (idx + length (str "<|channel|>")) in
         match IndexByte after " "%char with
         | None => stripChannels fuel (TrimSpace (slice ss 0 idx))
         | Some sp =>
           stripChannels fuel
             (TrimSpace (slice ss 0 idx ++ sliceFrom after sp))
         end
       end).
    destruct (Index ss (str "<|channel|>")) as [idx|] eqn:Ei; [|reflexivity].
    apply Index_bound in Ei.
    change (length (str "<|channel|>")) with 11 in *.
    cbv zeta.
    destruct (IndexByte _ " "%char) as [sp|].
    + apply IH. eapply Nat.le_trans; [apply Htrim|].
      rewrite length_app. unfold slice, sliceFrom.
      rewrite length_firstn, !length_skipn. lia.
    + apply IH. eapply Nat.le_trans; [apply Htrim|].
      unfold slice. rewrite length_firstn. cbn [skipn]. lia.
Qed.

(** ** The streaming parser *)

Inductive streamState := stExpectStart | stHeader | stContent.

Record parsedHeader := {
  author : Author;
  recipient : gostring;
  channel : gostring;
  contentType : gostring
}.

Record StreamParser := {
  enc_ : Encoding;
  nextRole : option Role;
  state : streamState;
  tokens : list token;
  messages : list Message;
  headerToks : list token;
  contentToks : list token;
  lastDeltaBytes : gostring;
  scratch : gostring
}.

Definition NewStreamParser (enc : Encoding) (role : option Role)
    : StreamParser :=
  {| enc_ := enc; nextRole := role;
     state := match role with Some _ => stHeader | None => stExpectStart end;
     tokens := []; messages := []; headerToks := []; contentToks := [];
     lastDeltaBytes := []; scratch := [] |}.

(** [parseHeaderFromTokens]; [None] is the decoding error. *)
Definition parseHeaderFromTokens (p : StreamParser) (header : list token)
    : option parsedHeader :=
  match DecodeUTF8 (bpe (enc_ p)) header with
  | None => None
  | Some s =>
    let s := normalizeHeader s in
    let '(roleToken, remainder) := splitLeadingToken s in
    let '(detectedRole, nameFromHeader) :=
      detectRoleAndAuthor roleToken remainder in
    let role := detectedRole in
    let name := nameFromHeader in
    let '(role, name) :=
      match nextRole p with
      | Some r =>
        let role := r in
        if gostring_eqb role RoleTool && gostring_eqb name []
        then (role, nameFromHeader) else (role, name)
      | None => (role, name)
      end in
    Some {| author := {| Role_ := role; Name := name |};
            channel := extractChannel s;
            recipient := extractRecipient s;
            contentType := scrubContentType roleToken remainder |}
  end.

(** [finalizeMessage]; the second component is the error, if any. *)
Definition finalizeMessage (p : StreamParser) : StreamParser * option string :=
  if length (messages p) =? 0 then (p, None)
  else
    let idx := length (messages p) - 1 in
    match DecodeUTF8 (bpe (enc_ p)) (contentToks p) with
    | None => (p, Some "invalid token for decoding"%string)
    | Some text =>
      ({| enc_ := enc_ p; nextRole := nextRole p; state := state p;
          tokens := tokens p;
          messages :=
            updAt (messages p) idx
              (fun m => {| Author_ := Author_ m; Recipient := Recipient m;
                           Content_ := [{| Type_ := ContentText; Text := text;
                                           System := None; Developer := None |}];
                           Channel := Channel m;
                           ContentType_ := ContentType_ m |});
          headerToks := []; contentToks := [];
          lastDeltaBytes := lastDeltaBytes p; scratch := scratch p |}, None)
    end.

(** [Process]: the parser after the call and the error returned, if any.
    The token is recorded in [tokens] before anything else. *)
Definition Process (p0 : StreamParser) (token : token)
    : StreamParser * option string :=
  let p := {| enc_ := enc_ p0; nextRole := nextRole p0; state := state p0;
              tokens := tokens p0 ++ [token]; messages := messages p0;
              headerToks := headerToks p0; contentToks := contentToks p0;
              lastDeltaBytes := lastDeltaBytes p0; scratch := scratch p0 |} in
  match state p with
  | stExpectStart =>
    if (token =? TokStart)%N then
      ({| enc_ := enc_ p; nextRole := nextRole p; state := stHeader;
          tokens := tokens p; messages := messages p;
          headerToks := []; contentToks := contentToks p;
          lastDeltaBytes := lastDeltaBytes p; scratch := scratch p |}, None)
    else (p, Some "unexpected token while expecting <|start|>"%string)
  | stHeader =>
    if (token =? TokStart)%N then (p, None)
    else if (token =? TokMessage)%N then
      match parseHeaderFromTokens p (headerToks p) with
      | None => (p, Some "invalid token for decoding"%string)
      | Some hdr =>
        ({| enc_ := enc_ p; nextRole := None; state := stContent;
            tokens := tokens p;
            messages :=
              messages p ++
                [{| Author_ := author hdr; Recipient := recipient hdr;
                    Content_ := []; Channel := channel hdr;
                    ContentType_ := contentType hdr |}];
            headerToks := headerToks p; contentToks := [];
            lastDeltaBytes := lastDeltaBytes p; scratch := scratch p |}, None)
      end
    else
      ({| enc_ := enc_ p; nextRole := nextRole p; state := state p;
          tokens := tokens p; messages := messages p;
          headerToks := headerToks p ++ [token];
          contentToks := contentToks p;
          lastDeltaBytes := lastDeltaBytes p; scratch := scratch p |}, None)
  | stContent =>
    if isStop (enc_ p) token then
      match finalizeMessage p with
      | (p', Some err) => (p', Some err)
      | (p', None) =>
        ({| enc_ := enc_ p'; nextRole := nextRole p'; state := stExpectStart;
            tokens := tokens p'; messages := messages p';
            headerToks := headerToks p'; contentToks := contentToks p';
            lastDeltaBytes := lastDeltaBytes p'; scratch := scratch p' |}, None)
      end
    else
      let contentToks' := contentToks p ++ [token] in
      match DecodeBytesInto (bpe (enc_ p)) [] [token] with
      | None =>
        ({| enc_ := enc_ p; nextRole := nextRole p; state := state p;
            tokens := tokens p; messages := messages p;
            headerToks := headerToks p; contentToks := contentToks';
            lastDeltaBytes := lastDeltaBytes p; scratch := [] |},
         Some "invalid token for decoding"%string)
      | Some sc =>
        ({| enc_ := enc_ p; nextRole := nextRole p; state := state p;
            tokens := tokens p; messages := messages p;
            headerToks := headerToks p; contentToks := contentToks';
            lastDeltaBytes := sc; scratch := sc |}, None)
      end
  end.

Definition ProcessEOS (p : StreamParser) : StreamParser * option string :=
  match state p with
  | stContent => finalizeMessage p
  | _ => (p, None)
  end.

Definition LastContentDelta (p : StreamParser) : gostring := lastDeltaBytes p.

(** [ParseMessagesFromCompletionTokens]; [None] is an error. *)
Fixpoint processAll (p : StreamParser) (toks : list token)
    : StreamParser * option string :=
  match toks with
  | [] => (p, None)
  | t :: rest =>
    match Process p t with
    | (p', Some err) => (p', Some err)
    | (p', None) => processAll p' rest
    end
  end.

Definition ParseMessagesFromCompletionTokens (e : Encoding)
    (toks : list token) (role : option Role) : option (list Message) :=
  match processAll (NewStreamParser e role) toks with
  | (_, Some _) => None
  | (p, None) =>
    match ProcessEOS p with
    | (_, Some _) => None
    | (p, None) => Some (messages p)
    end
  end.


(** *** The parser in the Header state *)

(** C3.  In the Header state a [<|start|>] token is ignored
    whether or not the parser was constructed with a role hint: the token is
    recorded, nothing else changes and no error is returned.  In particular
    a parser constructed without a hint, once in Header, accepts a stray
    [<|start|>]. *)
Theorem header_ignores_start (p : StreamParser) :
  state p = stHeader ->
  Process p TokStart
  = ({| enc_ := enc_ p; nextRole := nextRole p; state := stHeader;
        tokens := tokens p ++ [TokStart]; messages := messages p;
        headerToks := headerToks p; contentToks := contentToks p;
        lastDeltaBytes := lastDeltaBytes p; scratch := scratch p |}, None).
Proof.
  intros H. unfold Process. cbn [state]. rewrite H.
  rewrite N.eqb_refl. cbn [tokens enc_ nextRole messages headerToks
                            contentToks lastDeltaBytes scratch].
  reflexivity.
Qed.

(** With a role hint in force, the header that is parsed gets the hinted
    role, and its name is the name detected in the header text whatever the
    hint is: the assignment behind the test for the tool role repeats the
    one made before it. *)
Lemma parseHeader_hinted (p : StreamParser) (header : list token)
    (r : Role) (s : gostring) :
  nextRole p = Some r ->
  DecodeUTF8 (bpe (enc_ p)) header = Some s ->
  exists hdr,
    parseHeaderFromTokens p header = Some hdr /\
    Role_ (author hdr) = r /\
    Name (author hdr)
    = snd (detectRoleAndAuthor
             (fst (splitLeadingToken (normalizeHeader s)))
             (snd (splitLeadingToken (normalizeHeader s)))).
Proof.
  intros Hr Hs. unfold parseHeaderFromTokens. rewrite Hs, Hr.
  destruct (splitLeadingToken (normalizeHeader s)) as [roleToken remainder].
  cbn [fst snd].
  destruct (detectRoleAndAuthor roleToken remainder) as [detected name0].
  cbn [fst snd].
  destruct (gostring_eqb r RoleTool && gostring_eqb name0 []);
    eexists; repeat split; reflexivity.
Qed.

(** *** Special tokens in the Content state *)

(** No merge rank reaches the ids of the special tokens (the O200k ranks
    end below 199998). *)
Definition ranksBelowSpecials (pairs : list (gostring * Rank)) : bool :=
  forallb (fun p => (snd p <? TokStartOfText)%N) pairs.

Lemma maxID_le (l : list (gostring * Rank)) (bound : N) :
  forall m : N,
    (m <= bound)%N ->
    (forall p, In p l -> (snd p <= bound)%N) ->
    (fold_left (fun m p => if (m <? snd p)%N then snd p else m) l m
     <= bound)%N.
Proof.
  induction l as [|q l IH]; intros m Hm Hall; cbn [fold_left]; [assumption|].
  apply IH.
  - match goal with
    | |- context [if ?c then _ else _] => destruct c
    end; [apply Hall; now left|assumption].
  - intros p Hp. apply Hall. now right.
Qed.

Lemma AppendInto_above (pairs : list (gostring * Rank)) (dst : gostring)
    (t : token) :
  ranksBelowSpecials pairs = true ->
  (TokStartOfText <= t)%N ->
  AppendInto (newTokenStore pairs) dst t = None.
Proof.
  intros Hb Ht. unfold AppendInto, newTokenStore. cbn [arr].
  change (fun tmp p => match nth (N.to_nat (snd p)) tmp None with
                       | Some _ => tmp
                       | None => updAt tmp (N.to_nat (snd p))
                                   (fun _ => Some (fst p))
                       end) with storeStep.
  rewrite store_fold_length, repeat_length.
  assert (Hmax : (fold_left (fun m (p : gostring * Rank) =>
                               if (m <? snd p)%N then snd p else m) pairs 0
                  <= TokStartOfText - 1)%N).
  { apply maxID_le; [unfold TokStartOfText; lia|].
    intros p Hp. unfold ranksBelowSpecials in Hb.
    rewrite forallb_forall in Hb. apply Hb in Hp.
    apply N.ltb_lt in Hp. unfold TokStartOfText in *. lia. }
  match goal with
  | |- (if ?c then _ else _) = _ => assert (E : c = true)
  end.
  { apply Nat.leb_le. unfold TokStartOfText in *. lia. }
  now rewrite E.
Qed.

Lemma NoDup_snd_inj (K : Type) (l : list (K * N)) (k k' : K) (v : N) :
  NoDup (map snd l) -> In (k, v) l -> In (k', v) l -> k = k'.
Proof.
  induction l as [|[a b] l IH]; cbn [map]; intros Hnd H1 H2; [destruct H1|].
  inversion Hnd as [|? ? Hnotin Hnd']; subst.
  assert (Hno : forall x, In (x, v) l -> b <> v).
  { intros x Hx E. subst b. apply Hnotin.
    apply in_map_iff. exists (x, v). auto. }
  destruct H1 as [E1|H1]; destruct H2 as [E2|H2].
  - congruence.
  - inversion E1; subst. exfalso. eapply Hno; eauto.
  - inversion E2; subst. exfalso. eapply Hno; eauto.
  - now apply IH.
Qed.

Lemma specialDec_lookup (pairs specials : list (gostring * Rank))
    (lit : gostring) (t : token) :
  NoDup (map snd specials) -> In (lit, t) specials ->
  mapGet N.eqb (specialDec (newCoreBPE pairs specials)) t = Some lit.
Proof.
  intros Hnd Hin. cbn [specialDec newCoreBPE].
  assert (Hin' : In (t, lit)
            (fold_left (fun m p => mapSet m (snd p) (fst p)) specials [])).
  { apply In_fold_mapSet. left. apply in_map_iff. exists (lit, t). auto. }
  destruct (mapGet_some N.eqb _ _ _ N.eqb_refl Hin') as [lit' Hget].
  rewrite Hget. f_equal.
  apply mapGet_In in Hget; [|intros a b; apply N.eqb_eq].
  apply In_fold_mapSet in Hget. destruct Hget as [Hget|[]].
  apply in_map_iff in Hget. destruct Hget as [[k v] [E Hk]].
  cbn [fst snd] in E. inversion E; subst.
  eapply NoDup_snd_inj; eauto.
Qed.

Lemma HarmonySpecials_distinct : NoDup (map snd HarmonySpecials).
Proof. apply distinctb_NoDup. vm_compute. reflexivity. Qed.

Lemma HarmonySpecials_above (lit : gostring) (t : token) :
  In (lit, t) HarmonySpecials -> (TokStartOfText <= t)%N.
Proof.
  intros H.
  assert (Hall : forallb (fun p => (TokStartOfText <=? snd p)%N)
                   HarmonySpecials = true) by (vm_compute; reflexivity).
  rewrite forallb_forall in Hall. apply Hall in H.
  now apply N.leb_le in H.
Qed.

(** C10.  In the Content state a special marker id that is not a stop token
    neither finalizes the message nor fails: it is appended to the content
    buffer and the last content delta is the literal text of the marker,
    which the decoder finds in the specials table. *)
Theorem content_special_token (name : EncodingName)
    (pairs : list (gostring * Rank)) (e : Encoding) (p : StreamParser)
    (lit : gostring) (t : token) :
  LoadEncoding name (Some pairs) = Some e ->
  ranksBelowSpecials pairs = true ->
  enc_ p = e ->
  state p = stContent ->
  In (lit, t) HarmonySpecials ->
  t <> 200002%N -> t <> 200007%N -> t <> 200012%N ->
  exists p',
    Process p t = (p', None) /\
    state p' = stContent /\
    messages p' = messages p /\
    contentToks p' = contentToks p ++ [t] /\
    LastContentDelta p' = lit.
Proof.
  intros Hload Hbelow He Hst Hin H1 H2 H3.
  destruct (@LoadEncoding_inv name (Some pairs) e Hload)
    as [pairs' [Ho [Hbpe [_ [_ [_ [_ [_ [_ [_ [Hall _]]]]]]]]]]].
  inversion Ho; subst pairs'. clear Ho.
  unfold Process. cbn [state enc_ contentToks tokens messages]. rewrite Hst.
  assert (Hstop : isStop (enc_ p) t = false).
  { unfold isStop. rewrite He, Hall. cbn [existsb].
    unfold TokReturn, TokCall, TokEnd.
    repeat match goal with
           | |- context [(t =? ?c)%N] =>
               let E := fresh "E" in
               destruct (t =? c)%N eqn:E; [apply N.eqb_eq in E; congruence|]
           end.
    reflexivity. }
  rewrite Hstop. rewrite He, Hbpe.
  cbn [DecodeBytesInto dec newCoreBPE].
  rewrite AppendInto_above;
    [|assumption|eapply HarmonySpecials_above; eassumption].
  change (fold_left (fun m p0 => mapSet m (snd p0) (fst p0)) HarmonySpecials [])
    with (specialDec (newCoreBPE pairs HarmonySpecials)).
  rewrite (@specialDec_lookup pairs HarmonySpecials lit t
             HarmonySpecials_distinct Hin).
  eexists. split; [reflexivity|].
  cbn [state messages contentToks LastContentDelta lastDeltaBytes].
  repeat split; reflexivity.
Qed.

(** * Further properties of the code *)

(** ** The decoder store and the forward map *)

Lemma store_fold_spec (l : list (gostring * Rank)) (i : nat) :
  forall tmp : list (option gostring),
    i < length tmp ->
    nth i (fold_left storeStep l tmp) None
    = match nth i tmp None with
      | Some x => Some x
      | None => option_map fst (find (fun p => N.to_nat (snd p) =? i) l)
      end.
Proof.
  induction l as [|p l IH]; intros tmp Hi; cbn [fold_left find].
  - destruct (nth i tmp None); reflexivity.
  - rewrite IH by (now rewrite storeStep_length).
    unfold storeStep.
    destruct (N.to_nat (snd p) =? i) eqn:E.
    + apply Nat.eqb_eq in E. rewrite E.
      destruct (nth i tmp None) eqn:En; [now rewrite En|].
      rewrite nth_updAt, Nat.eqb_refl.
      apply Nat.ltb_lt in Hi. now rewrite Hi.
    + destruct (nth (N.to_nat (snd p)) tmp None); [reflexivity|].
      rewrite nth_updAt. rewrite Nat.eqb_sym in E. now rewrite E.
Qed.

Lemma find_rank_ext (l : list (gostring * Rank)) (id : N) :
  find (fun p => N.to_nat (snd p) =? N.to_nat id) l
  = find (fun p => (snd p =? id)%N) l.
Proof.
  induction l as [|p l IH]; cbn [find]; [reflexivity|]. rewrite IH.
  destruct (snd p =? id)%N eqn:E.
  - apply N.eqb_eq in E. rewrite E. now rewrite Nat.eqb_refl.
  - apply N.eqb_neq in E.
    assert (E' : (N.to_nat (snd p) =? N.to_nat id) = false).
    { apply Nat.eqb_neq. intros H. apply N2Nat.inj in H. contradiction. }
    now rewrite E'.
Qed.

(** X1.  The decoder store gives, for an id, the bytes of the first pair of
    the table that has this rank, and reports a miss for an id no pair has:
    among pairs that share a rank the first one wins. *)
Theorem heapStore_lookup (pairs : list (gostring * Rank)) (dst : gostring)
    (id : token) :
  AppendInto (newTokenStore pairs) dst id
  = match find (fun p => (snd p =? id)%N) pairs with
    | Some p => Some (dst ++ fst p)
    | None => None
    end.
Proof.
  unfold AppendInto, newTokenStore. cbn [arr].
  change (fun tmp p => match nth (N.to_nat (snd p)) tmp None with
                       | Some _ => tmp
                       | None => updAt tmp (N.to_nat (snd p))
                                   (fun _ => Some (fst p))
                       end) with storeStep.
  rewrite store_fold_length, repeat_length.
  match goal with
  | |- context [N.to_nat ?m + 1] => set (maxID := m)
  end.
  destruct (N.to_nat maxID + 1 <=? N.to_nat id) eqn:E.
  - apply Nat.leb_le in E.
    destruct (find (fun p => (snd p =? id)%N) pairs) as [p|] eqn:Ef;
      [|reflexivity].
    apply find_some in Ef. destruct Ef as [Hin Hid].
    apply N.eqb_eq in Hid.
    pose proof (maxID_ge pairs 0%N p Hin) as Hmax. fold maxID in Hmax. lia.
  - apply Nat.leb_gt in E.
    rewrite store_fold_spec by (rewrite repeat_length; lia).
    rewrite nth_repeat_None, find_rank_ext.
    destruct (find (fun p => (snd p =? id)%N) pairs); reflexivity.
Qed.

Lemma fold_mapSet_rev (A K V : Type) (f : A -> K) (g : A -> V) (l : list A) :
  forall acc : list (K * V),
    fold_left (fun m p => mapSet m (f p) (g p)) l acc
    = rev (map (fun p => (f p, g p)) l) ++ acc.
Proof.
  induction l as [|p l IH]; intros acc; cbn [fold_left map rev];
    [reflexivity|].
  rewrite IH. unfold mapSet. now rewrite <- app_assoc.
Qed.

Lemma mapGet_find (K V : Type) (eqb : K -> K -> bool) (m : list (K * V))
    (k : K) :
  mapGet eqb m k = option_map snd (find (fun q => eqb (fst q) k) m).
Proof.
  induction m as [|[k' v] m IH]; cbn [mapGet find fst]; [reflexivity|].
  destruct (eqb k' k); [reflexivity|exact IH].
Qed.

(** X3.  The forward map of the encoder gives, for a byte string, the rank
    of the last pair of the table that has these bytes: among pairs that
    share their bytes the last one wins. *)
Theorem enc_lookup (pairs specials : list (gostring * Rank)) (k : gostring) :
  encGet (newCoreBPE pairs specials) k
  = option_map snd (find (fun p => gostring_eqb (fst p) k) (rev pairs)).
Proof.
  unfold encGet. cbn [enc newCoreBPE].
  rewrite fold_mapSet_rev, app_nil_r, mapGet_find.
  replace (map (fun p : gostring * Rank => (fst p, snd p)) pairs)
    with pairs; [reflexivity|].
  induction pairs as [|[a c] l IH]; cbn [map fst snd]; [reflexivity|].
  now rewrite <- IH.
Qed.

(** ** Decoding *)

Lemma DecodeBytesInto_acc (b : coreBPE) (toks : list token) :
  forall dst,
    DecodeBytesInto b dst toks
    = option_map (app dst) (DecodeBytesInto b [] toks).
Proof.
  induction toks as [|t toks IH]; intros dst; cbn [DecodeBytesInto].
  - cbn. now rewrite app_nil_r.
  - unfold AppendInto.
    destruct (length (arr (dec b)) <=? N.to_nat t).
    + destruct (mapGet N.eqb (specialDec b) t) as [v|]; [|reflexivity].
      rewrite IH, (IH ([] ++ v)).
      destruct (DecodeBytesInto b [] toks); cbn; [|reflexivity].
      now rewrite app_assoc.
    + destruct (nth (N.to_nat t) (arr (dec b)) None) as [x|].
      * rewrite IH, (IH ([] ++ x)).
        destruct (DecodeBytesInto b [] toks); cbn; [|reflexivity].
        now rewrite app_assoc.
      * destruct (mapGet N.eqb (specialDec b) t) as [v|]; [|reflexivity].
        rewrite IH, (IH ([] ++ v)).
        destruct (DecodeBytesInto b [] toks); cbn; [|reflexivity].
        now rewrite app_assoc.
Qed.

(** X4.  Decoding distributes over concatenation: the bytes of [t1 ++ t2]
    are the bytes of [t1] followed by those of [t2], and the decoding fails
    exactly when one of the two fails. *)
Theorem DecodeBytes_app (b : coreBPE) (t1 t2 : list token) :
  DecodeBytes b (t1 ++ t2)
  = match DecodeBytes b t1, DecodeBytes b t2 with
    | Some x, Some y => Some (x ++ y)
    | _, _ => None
    end.
Proof.
  unfold DecodeBytes. rewrite DecodeBytesInto_app.
  destruct (DecodeBytesInto b [] t1) as [x|]; [|reflexivity].
  rewrite DecodeBytesInto_acc.
  destruct (DecodeBytesInto b [] t2); reflexivity.
Qed.

Lemma specialDec_In (pairs specials : list (gostring * Rank))
    (lit : gostring) (t : token) :
  mapGet N.eqb (specialDec (newCoreBPE pairs specials)) t = Some lit ->
  In (lit, t) specials.
Proof.
  cbn [specialDec newCoreBPE]. intros E.
  apply mapGet_In in E; [|intros a b; apply N.eqb_eq].
  apply In_fold_mapSet in E. destruct E as [E|[]].
  apply in_map_iff in E. destruct E as [[k v] [E Hk]].
  cbn [fst snd] in E. inversion E; subst. assumption.
Qed.

Lemma specialDec_find (pairs specials : list (gostring * Rank)) (t : token) :
  mapGet N.eqb (specialDec (newCoreBPE pairs specials)) t = None <->
  (forall q, In q specials -> snd q <> t).
Proof.
  cbn [specialDec newCoreBPE]. split.
  - intros H [lit id] Hin E. cbn [snd] in E. subst id.
    assert (Hin' : In (t, lit)
              (fold_left (fun m p => mapSet m (snd p) (fst p)) specials [])).
    { apply In_fold_mapSet. left. apply in_map_iff. exists (lit, t). auto. }
    destruct (mapGet_some N.eqb _ _ _ N.eqb_refl Hin') as [v Hv]. congruence.
  - intros H.
    destruct (mapGet N.eqb _ t) as [v|] eqn:E; [|reflexivity].
    apply mapGet_In in E; [|intros a c; apply N.eqb_eq].
    apply In_fold_mapSet in E. destruct E as [E|[]].
    apply in_map_iff in E. destruct E as [[k v'] [E Hk]].
    cbn [fst snd] in E. inversion E; subst.
    exfalso. exact (H _ Hk eq_refl).
Qed.

Lemma AppendInto_miss (pairs : list (gostring * Rank)) (dst : gostring)
    (t : token) :
  (forall p, In p pairs -> snd p <> t) ->
  AppendInto (newTokenStore pairs) dst t = None.
Proof.
  intros Hp. unfold AppendInto, newTokenStore. cbn [arr].
  change (fun tmp p => match nth (N.to_nat (snd p)) tmp None with
                       | Some _ => tmp
                       | None => updAt tmp (N.to_nat (snd p))
                                   (fun _ => Some (fst p))
                       end) with storeStep.
  rewrite store_fold_length, repeat_length.
  destruct (_ <=? N.to_nat t) eqn:E; [reflexivity|].
  apply Nat.leb_gt in E.
  rewrite store_fold_spec by (now rewrite repeat_length).
  rewrite nth_repeat_None, find_rank_ext.
  destruct (find (fun p => (snd p =? t)%N) pairs) as [p|] eqn:Ef;
    [|reflexivity].
  apply find_some in Ef. destruct Ef as [Hin Hid].
  apply N.eqb_eq in Hid. exfalso. exact (Hp p Hin Hid).
Qed.

(** X5.  An id that is the rank of no pair and the id of no special token
    cannot be decoded: every token sequence that holds it is an error. *)
Theorem DecodeBytes_unknown (pairs specials : list (gostring * Rank))
    (toks : list token) (t : token) :
  (forall p, In p pairs -> snd p <> t) ->
  (forall q, In q specials -> snd q <> t) ->
  In t toks ->
  DecodeBytes (newCoreBPE pairs specials) toks = None.
Proof.
  intros Hp Hs Hin.
  apply in_split in Hin. destruct Hin as [l1 [l2 ->]].
  unfold DecodeBytes. rewrite DecodeBytesInto_app.
  destruct (DecodeBytesInto _ [] l1) as [d|]; [|reflexivity].
  cbn [DecodeBytesInto dec newCoreBPE].
  rewrite AppendInto_miss by assumption.
  now rewrite (proj2 (specialDec_find pairs specials t) Hs).
Qed.

(** ** Encoding *)

(** The loop of the encoder only appends to [out]: what it appends does not
    depend on what [out] holds. *)
Lemma encodeLoop_acc (b : coreBPE) (text : gostring)
    (allowed : list gostring) (fuel : nat) :
  forall (i : nat) (out : list token) (lp : nat),
    encodeLoop fuel b text allowed i out lp
    = (out ++ fst (encodeLoop fuel b text allowed i [] lp),
       snd (encodeLoop fuel b text allowed i [] lp)).
Proof.
  induction fuel as [|fuel IH]; intros i out lp; cbn [encodeLoop].
  - cbn [fst snd]. now rewrite app_nil_r.
  - destruct (i <? length text); [|cbn [fst snd]; now rewrite app_nil_r].
    destruct (if 0 <? length allowed then _ else _) as [tok n].
    destruct (_ && _); cbv zeta; [|destruct (encGet b _) as [id|]];
      match goal with
      | |- encodeLoop _ _ _ _ ?e (?o ++ ?x) ?l = _ =>
          rewrite (IH e (o ++ x) l), (IH e ([] ++ x) l)
      end;
      cbn [fst snd app]; now rewrite <- app_assoc.
Qed.

(** X6.  The in-place variant of the encoder appends to [out] exactly the
    tokens that [Encode] returns for the same text and the same allowed
    special literals, and returns the same length of the last piece. *)
Theorem encodeInto_appends (b : coreBPE) (text : gostring)
    (allowed : list gostring) (out : list token) :
  encodeInto b text allowed out
  = (out ++ fst (Encode b text allowed), snd (Encode b text allowed)).
Proof.
  unfold encodeInto, Encode.
  rewrite (encodeLoop_acc b text allowed (length text) 0 out 0).
  reflexivity.
Qed.

Lemma renderText_app (e : Encoding) (text : gostring) (out : list token) :
  renderText e text out = out ++ EncodeOrdinary (bpe e) text.
Proof.
  unfold renderText, EncodeIntoOrdinary, encodeInto, EncodeOrdinary, Encode.
  now rewrite encodeLoop_acc.
Qed.

(** *** Special literals in the text *)

(** The body of the loop of [matchSpecialAt]. *)
Definition matchStep (s : gostring) (i : nat) (allowed : list gostring)
    (acc : nat * token) (e : gostring * Rank) : nat * token :=
  let '(maxLen, id) := acc in
  let '(lit, tok) := e in
  if negb (setMem allowed lit) then acc
  else if length s - i <? length lit then acc
  else if gostring_eqb (slice s i (i + length lit)) lit
          && (maxLen <? length lit)
       then (length lit, tok) else acc.

(** The literal [lit] is allowed and stands in [s] at index [i]. *)
Definition occursAt (s : gostring) (i : nat) (allowed : list gostring)
    (lit : gostring) : Prop :=
  In lit allowed /\ length lit <= length s - i /\
  slice s i (i + length lit) = lit.

Lemma setMem_In (allowed : list gostring) (lit : gostring) :
  setMem allowed lit = true <-> In lit allowed.
Proof.
  unfold setMem. rewrite existsb_exists. split.
  - intros [x [Hin Hx]]. apply gostring_eqb_eq in Hx. now subst.
  - intros Hin. exists lit. split; [assumption|apply gostring_eqb_refl].
Qed.

Lemma matchStep_cases (s : gostring) (i : nat) (allowed : list gostring)
    (acc : nat * token) (lit : gostring) (tok : Rank) :
  (matchStep s i allowed acc (lit, tok) = acc /\
   (occursAt s i allowed lit -> length lit <= fst acc))
  \/ (matchStep s i allowed acc (lit, tok) = (length lit, tok) /\
      occursAt s i allowed lit /\ fst acc < length lit).
Proof.
  destruct acc as [maxLen id]. unfold matchStep, occursAt. cbn [fst].
  destruct (setMem allowed lit) eqn:Em; cbn [negb].
  2:{ left. split; [reflexivity|]. intros [Hin _].
      apply setMem_In in Hin. congruence. }
  apply setMem_In in Em.
  destruct (length s - i <? length lit) eqn:El.
  { apply Nat.ltb_lt in El. left. split; [reflexivity|]. intros [_ [H _]]. lia. }
  apply Nat.ltb_ge in El.
  destruct (gostring_eqb (slice s i (i + length lit)) lit) eqn:Eq; cbn [andb].
  2:{ left. split; [reflexivity|]. intros [_ [_ H]].
      rewrite H, gostring_eqb_refl in Eq. discriminate. }
  apply gostring_eqb_eq in Eq.
  destruct (maxLen <? length lit) eqn:Ex.
  - apply Nat.ltb_lt in Ex. right. auto.
  - apply Nat.ltb_ge in Ex. left. auto.
Qed.

Lemma matchStep_fold (s : gostring) (i : nat) (allowed : list gostring)
    (l : list (gostring * Rank)) :
  forall acc : nat * token,
    let r := fold_left (matchStep s i allowed) l acc in
    (r = acc \/
     exists lit, In (lit, snd r) l /\ occursAt s i allowed lit /\
                 length lit = fst r /\ fst acc < fst r)
    /\ fst acc <= fst r
    /\ (forall lit tok, In (lit, tok) l -> occursAt s i allowed lit ->
          length lit <= fst r).
Proof.
  induction l as [|[lit0 tok0] l IH]; intros acc; cbn [fold_left].
  - split; [now left|]. split; [lia|]. intros lit tok [].
  - specialize (IH (matchStep s i allowed acc (lit0, tok0))).
    cbv zeta in IH.
    set (r := fold_left (matchStep s i allowed) l
                (matchStep s i allowed acc (lit0, tok0))) in *.
    destruct IH as [IH1 [IH2 IH3]].
    destruct (matchStep_cases s i allowed acc lit0 tok0)
      as [[E Hle]|[E [Hocc Hlt]]]; rewrite E in *; cbn [fst] in *.
    + split; [|split].
      * destruct IH1 as [IH1|[lit [Hin H]]]; [now left|].
        right. exists lit. split; [now right|assumption].
      * assumption.
      * intros lit tok [Heq|Hin] Ho.
        -- inversion Heq; subst. specialize (Hle Ho). lia.
        -- eapply IH3; eauto.
    + split; [|split].
      * right. destruct IH1 as [IH1|[lit [Hin [Ho [Hl Hlt']]]]].
        -- exists lit0. rewrite IH1. cbn [fst snd].
           split; [now left|]. split; [assumption|]. split; [reflexivity|lia].
        -- exists lit. split; [now right|]. split; [assumption|].
           split; [assumption|lia].
      * lia.
      * intros lit tok [Heq|Hin] Ho.
        -- inversion Heq; subst. lia.
        -- eapply IH3; eauto.
Qed.

Lemma matchSpecialAt_fold (b : coreBPE) (s : gostring) (i : nat)
    (allowed : list gostring) :
  matchSpecialAt b s i allowed
  = let r := fold_left (matchStep s i allowed) (specialEnc b) (0, 0%N) in
    if fst r =? 0 then (0%N, 0) else (snd r, fst r).
Proof.
  unfold matchSpecialAt.
  change (fun (acc : nat * token) (e : gostring * Rank) =>
            let '(maxLen, id) := acc in
            let '(lit, tok) := e in
            if negb (setMem allowed lit) then acc
            else if length s - i <? length lit then acc
            else if gostring_eqb (slice s i (i + length lit)) lit
                    && (maxLen <? length lit)
                 then (length lit, tok) else acc)
    with (matchStep s i allowed).
  cbv zeta.
  destruct (fold_left (matchStep s i allowed) (specialEnc b) (0, 0%N))
    as [maxLen id].
  reflexivity.
Qed.

(** What a match is: an allowed literal of the table that stands at [i]. *)
Lemma matchSpecialAt_sound (b : coreBPE) (s : gostring) (i : nat)
    (allowed : list gostring) (tok : token) (n : nat) :
  matchSpecialAt b s i allowed = (tok, n) -> 0 < n ->
  exists lit, In (lit, tok) (specialEnc b) /\ occursAt s i allowed lit /\
              length lit = n.
Proof.
  rewrite matchSpecialAt_fold. cbv zeta.
  destruct (matchStep_fold s i allowed (specialEnc b) (0, 0%N))
    as [H1 _].
  set (r := fold_left (matchStep s i allowed) (specialEnc b) (0, 0%N)) in *.
  destruct (fst r =? 0) eqn:E0.
  - intros H. inversion H; subst. lia.
  - intros H _. inversion H; subst. clear H.
    apply Nat.eqb_neq in E0.
    destruct H1 as [H1|[lit [Hin [Ho [Hl _]]]]].
    + rewrite H1 in E0. cbn [fst] in E0. congruence.
    + exists lit. auto.
Qed.

(** X7.  [matchSpecialAt] finds the longest allowed literal of the specials
    table that stands in the text at index [i]: no such literal is longer
    than the length it returns; a positive length is the length of such a
    literal, and the id returned is the id of that literal; and when no
    such literal has a positive length, it returns the pair of zeros. *)
Theorem matchSpecialAt_longest (b : coreBPE) (s : gostring) (i : nat)
    (allowed : list gostring) :
  let r := matchSpecialAt b s i allowed in
  (forall lit tok, In (lit, tok) (specialEnc b) ->
     occursAt s i allowed lit -> length lit <= snd r)
  /\ (0 < snd r ->
      exists lit, In (lit, fst r) (specialEnc b) /\
                  occursAt s i allowed lit /\ length lit = snd r)
  /\ (snd r = 0 -> fst r = 0%N).
Proof.
  cbv zeta. rewrite matchSpecialAt_fold. cbv zeta.
  destruct (matchStep_fold s i allowed (specialEnc b) (0, 0%N))
    as [H1 [_ H3]].
  set (r := fold_left (matchStep s i allowed) (specialEnc b) (0, 0%N)) in *.
  destruct (fst r =? 0) eqn:E0; cbn [fst snd].
  - apply Nat.eqb_eq in E0. split; [|split].
    + intros lit tok Hin Ho. specialize (H3 lit tok Hin Ho). lia.
    + lia.
    + reflexivity.
  - apply Nat.eqb_neq in E0. split; [|split].
    + exact H3.
    + intros _. destruct H1 as [H1|[lit [Hin [Ho [Hl _]]]]].
      * rewrite H1 in E0. cbn [fst] in E0. congruence.
      * exists lit. auto.
    + intros H. congruence.
Qed.

Lemma NoDup_fst_inj (K V : Type) (l : list (K * V)) (k : K) (v v' : V) :
  NoDup (map fst l) -> In (k, v) l -> In (k, v') l -> v = v'.
Proof.
  induction l as [|[a c] l IH]; cbn [map]; intros Hnd H1 H2; [destruct H1|].
  inversion Hnd as [|? ? Hnotin Hnd']; subst.
  assert (Hno : forall x, In (k, x) l -> a <> k).
  { intros x Hx E. subst a. apply Hnotin.
    apply in_map_iff. exists (k, x). auto. }
  destruct H1 as [E1|H1]; destruct H2 as [E2|H2].
  - congruence.
  - inversion E1; subst. exfalso. eapply Hno; eauto.
  - inversion E2; subst. exfalso. eapply Hno; eauto.
  - now apply IH.
Qed.

(** X8.  The source ranges over a Go map, whose order of iteration is not
    fixed.  The result of [matchSpecialAt] does not depend on it: two
    tables with the same entries, in any order, give the same match, the
    literals of the table being distinct. *)
Theorem matchSpecialAt_order (b b' : coreBPE) (s : gostring) (i : nat)
    (allowed : list gostring) :
  NoDup (map fst (specialEnc b)) ->
  Permutation (specialEnc b) (specialEnc b') ->
  matchSpecialAt b s i allowed = matchSpecialAt b' s i allowed.
Proof.
  intros Hnd Hperm.
  rewrite !matchSpecialAt_fold. cbv zeta.
  destruct (matchStep_fold s i allowed (specialEnc b) (0, 0%N))
    as [H1 [_ H3]].
  destruct (matchStep_fold s i allowed (specialEnc b') (0, 0%N))
    as [H1' [_ H3']].
  set (r := fold_left (matchStep s i allowed) (specialEnc b) (0, 0%N)) in *.
  set (r' := fold_left (matchStep s i allowed) (specialEnc b') (0, 0%N)) in *.
  cbn [fst] in *.
  assert (Hr : fst r = 0 \/
               exists lit, In (lit, snd r) (specialEnc b) /\
                           occursAt s i allowed lit /\ length lit = fst r).
  { destruct H1 as [H1|[lit [Hin [Ho [Hl _]]]]]; [left; now rewrite H1|].
    right. exists lit. auto. }
  assert (Hr' : fst r' = 0 \/
                exists lit, In (lit, snd r') (specialEnc b) /\
                            occursAt s i allowed lit /\ length lit = fst r').
  { destruct H1' as [H1'|[lit [Hin [Ho [Hl _]]]]]; [left; now rewrite H1'|].
    right. exists lit. split; [|auto].
    eapply Permutation_in; [apply Permutation_sym; exact Hperm|exact Hin]. }
  assert (Hlen : fst r = fst r').
  { apply Nat.le_antisymm.
    - destruct Hr as [E|[lit [Hin [Ho Hl]]]]; [lia|].
      rewrite <- Hl. apply (H3' lit (snd r)); [|assumption].
      eapply Permutation_in; eauto.
    - destruct Hr' as [E|[lit [Hin [Ho Hl]]]]; [lia|].
      rewrite <- Hl. apply (H3 lit (snd r')); assumption. }
  rewrite <- Hlen.
  destruct (fst r =? 0) eqn:E0; [reflexivity|].
  apply Nat.eqb_neq in E0. f_equal.
  destruct Hr as [E|[lit [Hin [[_ [_ Ho]] Hl]]]]; [congruence|].
  destruct Hr' as [E|[lit' [Hin' [[_ [_ Ho']] Hl']]]]; [lia|].
  assert (lit = lit').
  { rewrite <- Ho, <- Ho'. rewrite Hl, Hl', Hlen. reflexivity. }
  subst lit'. eapply NoDup_fst_inj; eauto.
Qed.

(** *** The tokens of an encoding *)

Lemma specialEnc_In (pairs specials : list (gostring * Rank))
    (lit : gostring) (t : token) :
  In (lit, t) (specialEnc (newCoreBPE pairs specials)) ->
  In (lit, t) specials.
Proof.
  cbn [specialEnc newCoreBPE]. intros Hin.
  apply In_fold_mapSet in Hin. destruct Hin as [Hin|[]].
  apply in_map_iff in Hin. destruct Hin as [[k v] [E Hk]].
  cbn [fst snd] in E. inversion E; subst. assumption.
Qed.

Lemma bytePairEncode_vocab (pairs specials : list (gostring * Rank))
    (piece : gostring) (t : token) :
  byteComplete pairs = true ->
  piece <> [] ->
  In t (bytePairEncode (newCoreBPE pairs specials) piece) ->
  exists k, In (k, t) pairs.
Proof.
  intros Hbytes Hne. unfold bytePairEncode.
  set (b := newCoreBPE pairs specials).
  assert (Hent : forall sp, encGet b sp <> None ->
                   exists k, In (k, encAt b sp) pairs).
  { intros sp Hsp. unfold encAt.
    destruct (encGet b sp) as [r|] eqn:E; [|congruence].
    exists sp. subst b. now apply encGet_In in E. }
  destruct (length piece =? 1) eqn:E1.
  - apply Nat.eqb_eq in E1.
    destruct piece as [|c [|c' piece]]; cbn [length] in E1; try lia.
    intros [<-|[]]. apply Hent. apply (@encGet_byte pairs specials Hbytes).
  - apply Nat.eqb_neq in E1.
    assert (Hn : 2 <= length piece).
    { destruct piece as [|c [|c' piece]]; cbn [length] in *;
        try congruence; lia. }
    pose proof (@bytePairMerge_inv pairs specials Hbytes piece Hn) as Hinv.
    fold b in Hinv.
    intros Hin. apply in_map_iff in Hin. destruct Hin as [w [<- Hw]].
    apply in_seq in Hw. apply Hent.
    apply (inv_span Hinv). pose proof (inv_len Hinv). lia.
Qed.

Lemma encodeLoop_vocab (pairs specials : list (gostring * Rank))
    (text : gostring) (allowed : list gostring) (fuel : nat) :
  byteComplete pairs = true ->
  forall (i : nat) (out : list token) (lp : nat) (t : token),
    i <= length text ->
    In t (fst (encodeLoop fuel (newCoreBPE pairs specials) text allowed
                 i out lp)) ->
    In t out \/ (exists k, In (k, t) pairs)
    \/ (exists lit, In (lit, t) specials /\ In lit allowed).
Proof.
  intros Hbytes. set (b := newCoreBPE pairs specials).
  induction fuel as [|fuel IH]; intros i out lp t Hi; cbn [encodeLoop];
    [cbn [fst]; auto|].
  destruct (i <? length text) eqn:Elt; [|cbn [fst]; auto].
  apply Nat.ltb_lt in Elt.
  destruct (if 0 <? length allowed then _ else _) as [tok n] eqn:Em.
  destruct (_ && (0 <? n)) eqn:Esp.
  - apply andb_prop in Esp. destruct Esp as [Hh Hn].
    rewrite Hh in Em. apply Nat.ltb_lt in Hn.
    destruct (matchSpecialAt_sound _ _ _ _ Em Hn)
      as [lit [Hin [[Hal [Hfit Hs]] Hl]]].
    intros H. apply IH in H; [|lia].
    destruct H as [H|H]; [|auto].
    apply in_app_or in H. destruct H as [H|[<-|[]]]; [auto|].
    right. right. exists lit. split; [|assumption].
    exact (@specialEnc_In pairs specials lit _ Hin).
  - cbv zeta.
    pose proof (Next_gt text Elt) as Hgt.
    pose proof (@Next_le_len text i Hi) as Hle.
    assert (E : (Next text i <=? i) = false) by (apply Nat.leb_gt; lia).
    rewrite E.
    destruct (encGet b (slice text i (Next text i))) as [id|] eqn:Eenc.
    + intros H. apply IH in H; [|lia].
      destruct H as [H|H]; [|auto].
      apply in_app_or in H. destruct H as [H|[<-|[]]]; [auto|].
      right. left. exists (slice text i (Next text i)).
      subst b. now apply encGet_In in Eenc.
    + intros H. apply IH in H; [|lia].
      destruct H as [H|H]; [|auto].
      apply in_app_or in H. destruct H as [H|H]; [auto|].
      right. left. subst b.
      apply (@bytePairEncode_vocab pairs specials
               (slice text i (Next text i)) t Hbytes); [|assumption].
      intros Hnil. apply (f_equal (@length ascii)) in Hnil.
      rewrite length_slice in Hnil by lia. cbn [length] in Hnil. lia.
Qed.

Lemma EncodeOrdinary_vocab (pairs specials : list (gostring * Rank))
    (text : gostring) (t : token) :
  byteComplete pairs = true ->
  In t (EncodeOrdinary (newCoreBPE pairs specials) text) ->
  exists k, In (k, t) pairs.
Proof.
  intros Hbytes Hin. unfold EncodeOrdinary, Encode in Hin.
  apply (@encodeLoop_vocab pairs specials text [] (length text) Hbytes)
    in Hin; [|lia].
  destruct Hin as [[]|[H|[lit [_ []]]]]. exact H.
Qed.

(** X9.  Over a vocabulary that holds every single byte, every token of an
    ordinary encoding is the rank of an entry of the table; when the ranks
    lie below the ids of the special tokens, as those of O200k do, no token
    of an ordinary encoding is a special token, whatever the text holds. *)
Theorem EncodeOrdinary_no_special (pairs : list (gostring * Rank))
    (text : gostring) :
  byteComplete pairs = true ->
  ranksBelowSpecials pairs = true ->
  forall t, In t (EncodeOrdinary (newCoreBPE pairs HarmonySpecials) text) ->
    (exists k, In (k, t) pairs) /\
    IsSpecialToken (newCoreBPE pairs HarmonySpecials) t = false.
Proof.
  intros Hbytes Hbelow t Hin.
  apply EncodeOrdinary_vocab in Hin; [|assumption].
  split; [assumption|].
  destruct Hin as [k Hk].
  unfold ranksBelowSpecials in Hbelow. rewrite forallb_forall in Hbelow.
  apply Hbelow in Hk. cbn [snd] in Hk. apply N.ltb_lt in Hk.
  unfold IsSpecialToken.
  rewrite (proj2 (specialDec_find pairs HarmonySpecials t)); [reflexivity|].
  intros [lit id] Hq E. cbn [snd] in E. subst id.
  apply HarmonySpecials_above in Hq. lia.
Qed.

(** *** Decoding an encoding with special tokens *)

Lemma decode_special (pairs : list (gostring * Rank)) (lit : gostring)
    (t : token) (dst : gostring) :
  ranksBelowSpecials pairs = true ->
  In (lit, t) HarmonySpecials ->
  DecodeBytesInto (newCoreBPE pairs HarmonySpecials) dst [t]
  = Some (dst ++ lit).
Proof.
  intros Hbelow Hin. cbn [DecodeBytesInto dec newCoreBPE].
  rewrite AppendInto_above;
    [|assumption|eapply HarmonySpecials_above; eassumption].
  change (fold_left (fun m p0 => mapSet m (snd p0) (fst p0)) HarmonySpecials [])
    with (specialDec (newCoreBPE pairs HarmonySpecials)).
  rewrite (@specialDec_lookup pairs HarmonySpecials lit t
             HarmonySpecials_distinct Hin).
  reflexivity.
Qed.

Lemma encodeLoop_decode_special (pairs : list (gostring * Rank))
    (text : gostring) (allowed : list gostring) (fuel : nat) :
  byteComplete pairs = true ->
  ranksDistinct pairs = true ->
  ranksBelowSpecials pairs = true ->
  forall (i : nat) (out : list token) (lp : nat) (d : gostring),
    i <= length text -> length text - i <= fuel ->
    DecodeBytesInto (newCoreBPE pairs HarmonySpecials) [] out = Some d ->
    DecodeBytesInto (newCoreBPE pairs HarmonySpecials) []
      (fst (encodeLoop fuel (newCoreBPE pairs HarmonySpecials) text allowed
              i out lp))
    = Some (d ++ skipn i text).
Proof.
  intros Hbytes Hdistinct Hbelow.
  set (b := newCoreBPE pairs HarmonySpecials).
  induction fuel as [|fuel IH]; intros i out lp d Hi Hfuel Hout.
  - cbn [encodeLoop fst]. rewrite skipn_all2 by lia. now rewrite app_nil_r.
  - cbn [encodeLoop].
    destruct (i <? length text) eqn:Elt.
    2:{ apply Nat.ltb_ge in Elt. cbn [fst].
        rewrite skipn_all2 by lia. now rewrite app_nil_r. }
    apply Nat.ltb_lt in Elt.
    destruct (if 0 <? length allowed then _ else _) as [tok n] eqn:Em.
    destruct (_ && (0 <? n)) eqn:Esp.
    + apply andb_prop in Esp. destruct Esp as [Hh Hn].
      rewrite Hh in Em. apply Nat.ltb_lt in Hn.
      destruct (matchSpecialAt_sound _ _ _ _ Em Hn)
        as [lit [Hin [[Hal [Hfit Hs]] Hl]]].
      assert (Hin' : In (lit, tok) HarmonySpecials).
      { exact (@specialEnc_In pairs HarmonySpecials lit tok Hin). }
      rewrite (IH (i + n) (out ++ [tok]) 0 (d ++ lit)); try lia.
      * rewrite <- app_assoc. f_equal. f_equal.
        rewrite <- Hs, Hl. unfold slice.
        replace (i + n) with (n + i) by lia.
        replace (n + i - i) with n by lia.
        rewrite <- skipn_skipn. apply firstn_skipn.
      * rewrite DecodeBytesInto_app, Hout.
        apply decode_special; assumption.
    + cbv zeta.
      pose proof (Next_gt text Elt) as Hgt.
      pose proof (@Next_le_len text i Hi) as Hle.
      assert (E : (Next text i <=? i) = false) by (apply Nat.leb_gt; lia).
      rewrite E.
      set (e := Next text i) in *.
      assert (Hpiece : slice text i e ++ skipn e text = skipn i text).
      { unfold slice. replace e with ((e - i) + i) at 2 by lia.
        rewrite <- skipn_skipn. apply firstn_skipn. }
      assert (Hne : slice text i e <> []).
      { intros H. apply (f_equal (@length ascii)) in H.
        rewrite length_slice in H by lia. cbn [length] in H. lia. }
      destruct (encGet b (slice text i e)) as [id|] eqn:Eenc.
      * rewrite (IH e (out ++ [id]) 1 (d ++ slice text i e)); try lia.
        -- now rewrite <- app_assoc, Hpiece.
        -- rewrite DecodeBytesInto_app, Hout.
           replace id with (encAt b (slice text i e))
             by (unfold encAt; now rewrite Eenc).
           apply (@decode_entry pairs HarmonySpecials Hdistinct).
           fold b. congruence.
      * rewrite (IH e _ _ (d ++ slice text i e)); try lia.
        -- now rewrite <- app_assoc, Hpiece.
        -- rewrite DecodeBytesInto_app, Hout.
           now apply (@bytePairEncode_decode pairs HarmonySpecials
                        Hbytes Hdistinct).
Qed.

(** X10.  The round trip with special tokens: over the vocabulary of a loaded
    encoding (every single byte is a token, no rank is given twice, the
    ranks lie below the ids of the special tokens), decoding what
    [EncodeWithSpecialTokens] returns gives the text back, the literals of
    special tokens included. *)
Theorem special_roundtrip (pairs : list (gostring * Rank)) (T : gostring) :
  byteComplete pairs = true ->
  ranksDistinct pairs = true ->
  ranksBelowSpecials pairs = true ->
  DecodeUTF8 (newCoreBPE pairs HarmonySpecials)
             (EncodeWithSpecialTokens (newCoreBPE pairs HarmonySpecials) T)
  = Some T.
Proof.
  intros Hb Hd Hs.
  unfold DecodeUTF8, DecodeBytes, EncodeWithSpecialTokens, Encode.
  rewrite (@encodeLoop_decode_special pairs T _ (length T) Hb Hd Hs
             0 [] 0 []); auto; lia.
Qed.

(** ** The segmenter *)

Lemma isASCIISpace_ascii (b : N) :
  isASCIISpace b = true -> (b <? RuneSelf)%N = true.
Proof.
  unfold isASCIISpace, RuneSelf. intros H. apply N.ltb_lt.
  repeat (apply orb_prop in H; destruct H as [H|H]);
    apply N.eqb_eq in H; lia.
Qed.

Lemma isASCIILetter_ascii (b : N) :
  isASCIILetter b = true -> (b <? RuneSelf)%N = true.
Proof.
  unfold isASCIILetter, RuneSelf. intros H. apply N.ltb_lt.
  apply orb_prop in H. destruct H as [H|H]; apply andb_prop in H;
    destruct H as [_ H]; apply N.leb_le in H; lia.
Qed.

Lemma isASCIIDigit_ascii (b : N) :
  isASCIIDigit b = true -> (b <? RuneSelf)%N = true.
Proof.
  unfold isASCIIDigit, RuneSelf. intros H. apply N.ltb_lt.
  apply andb_prop in H. destruct H as [_ H]. apply N.leb_le in H. lia.
Qed.

Lemma isASCIIDigit_not_space (b : N) :
  isASCIIDigit b = true -> isASCIISpace b = false.
Proof.
  unfold isASCIIDigit, isASCIISpace. intros H.
  apply andb_prop in H. destruct H as [H1 H2].
  apply N.leb_le in H1. apply N.leb_le in H2.
  repeat (apply orb_false_intro); apply N.eqb_neq; lia.
Qed.

Lemma isASCIIDigit_not_letter (b : N) :
  isASCIIDigit b = true -> isASCIILetter b = false.
Proof.
  unfold isASCIIDigit, isASCIILetter. intros H.
  apply andb_prop in H. destruct H as [H1 H2].
  apply N.leb_le in H1. apply N.leb_le in H2.
  apply orb_false_intro; apply andb_false_iff; left; apply N.leb_gt; lia.
Qed.

Lemma isASCIILetter_not_space (b : N) :
  isASCIILetter b = true -> isASCIISpace b = false.
Proof.
  unfold isASCIILetter, isASCIISpace. intros H.
  assert (Hb : (65 <= b)%N).
  { apply orb_prop in H. destruct H as [H|H]; apply andb_prop in H;
      destruct H as [H _]; apply N.leb_le in H; lia. }
  repeat (apply orb_false_intro); apply N.eqb_neq; lia.
Qed.

Lemma scan_step_ascii (pa : N -> bool) (pr : rune -> bool) (fuel : nat)
    (s : gostring) (j : nat) (flag : bool) :
  j < length s -> (byteAt s j <? RuneSelf)%N = true ->
  scan pa pr (S fuel) s j flag
  = if negb (pa (byteAt s j)) then (j, flag, true)
    else scan pa pr fuel s (j + 1) true.
Proof.
  intros Hj Hb. cbn [scan].
  apply Nat.ltb_lt in Hj. rewrite Hj. cbv zeta. now rewrite Hb.
Qed.

Lemma scan_flag_indep (pa : N -> bool) (pr : rune -> bool) (fuel : nat)
    (s : gostring) (j : nat) (f1 f2 : bool) :
  fst (fst (scan pa pr fuel s j f1)) = fst (fst (scan pa pr fuel s j f2)).
Proof.
  destruct fuel as [|fuel]; cbn [scan]; [reflexivity|].
  destruct (j <? length s); [|reflexivity]. cbv zeta.
  destruct (byteAt s j <? RuneSelf)%N.
  - destruct (negb _); reflexivity.
  - destruct (utf8DecodeRuneInString _) as [r sz].
    destruct (negb _); reflexivity.
Qed.

(** A loop that meets only ASCII bytes that pass its test is not left by
    [break]. *)
Lemma scan_all_ascii (pa : N -> bool) (pr : rune -> bool) (s : gostring)
    (fuel : nat) :
  forall (j : nat) (flag : bool),
    (forall k, j <= k < length s ->
       (byteAt s k <? RuneSelf)%N = true /\ pa (byteAt s k) = true) ->
    snd (scan pa pr fuel s j flag) = false.
Proof.
  induction fuel as [|fuel IH]; intros j flag Hall; [reflexivity|].
  destruct (Nat.lt_ge_cases j (length s)) as [Hj|Hj].
  - destruct (Hall j (conj (Nat.le_refl j) Hj)) as [Hb Hp].
    rewrite scan_step_ascii by assumption. rewrite Hp. cbn [negb].
    apply IH. intros k Hk. apply Hall. lia.
  - cbn [scan]. apply Nat.ltb_ge in Hj. now rewrite Hj.
Qed.

(** X11.  Rule 6: when everything from [i] to the end of the string is
    ASCII whitespace, the whole remainder is one segment. *)
Theorem Next_trailing_whitespace (s : gostring) (i : nat) :
  i < length s ->
  (forall k, i <= k < length s -> isASCIISpace (byteAt s k) = true) ->
  Next s i = length s.
Proof.
  intros Hi Hall. unfold Next.
  assert (E : (length s <=? i) = false) by (apply Nat.leb_gt; lia).
  rewrite E.
  assert (Hb : snd (scanFrom isASCIISpace isSpace s i) = false).
  { unfold scanFrom. apply scan_all_ascii. intros k Hk.
    specialize (Hall k Hk). split; [now apply isASCIISpace_ascii|assumption]. }
  destruct (scanFrom isASCIISpace isSpace s i) as [[j f] broke].
  cbn [snd] in Hb. subst broke. reflexivity.
Qed.

Lemma scanFrom_break (pa : N -> bool) (pr : rune -> bool) (s : gostring)
    (j : nat) :
  j < length s -> (byteAt s j <? RuneSelf)%N = true ->
  pa (byteAt s j) = false ->
  scanFrom pa pr s j = (j, false, true).
Proof.
  intros Hj Hb Hp. unfold scanFrom.
  replace (length s - j) with (S (length s - j - 1)) by lia.
  rewrite scan_step_ascii by assumption. now rewrite Hp.
Qed.

Lemma ruleNumbers_loop_cap (fuel : nat) (s : gostring) (j : nat) :
  ruleNumbers_loop fuel s j 3 = (j, 3).
Proof.
  destruct fuel as [|fuel]; cbn [ruleNumbers_loop]; [reflexivity|].
  destruct (j <? length s); [|reflexivity]. cbv zeta.
  destruct (byteAt s j <? RuneSelf)%N.
  - change (3 <=? 3) with true. now rewrite orb_true_r.
  - destruct (utf8DecodeRuneInString _) as [r sz].
    change (3 <=? 3) with true. now rewrite orb_true_r.
Qed.

Lemma ruleNumbers_loop_digit (fuel : nat) (s : gostring) (j count : nat) :
  j < length s -> isASCIIDigit (byteAt s j) = true -> count < 3 ->
  ruleNumbers_loop (S fuel) s j count
  = ruleNumbers_loop fuel s (j + 1) (count + 1).
Proof.
  intros Hj Hd Hc. cbn [ruleNumbers_loop].
  apply Nat.ltb_lt in Hj. rewrite Hj. cbv zeta.
  rewrite (isASCIIDigit_ascii _ Hd), Hd.
  assert (E : (3 <=? count) = false) by (apply Nat.leb_gt; lia).
  now rewrite E.
Qed.

(** X12.  Rule 3 takes at most three digits: where three ASCII digits
    stand at [i], the segment is these three digits, whatever follows. *)
Theorem Next_three_digits (s : gostring) (i : nat) :
  i + 3 <= length s ->
  isASCIIDigit (byteAt s i) = true ->
  isASCIIDigit (byteAt s (i + 1)) = true ->
  isASCIIDigit (byteAt s (i + 2)) = true ->
  Next s i = i + 3.
Proof.
  intros Hlen H0 H1 H2. unfold Next.
  assert (E : (length s <=? i) = false) by (apply Nat.leb_gt; lia).
  rewrite E.
  rewrite (@scanFrom_break isASCIISpace isSpace s i);
    [|lia|now apply isASCIIDigit_ascii|now apply isASCIIDigit_not_space].
  cbn [negb].
  assert (Hrun0 : consumeLetterRun s i = i).
  { unfold consumeLetterRun. rewrite scanFrom_break;
      [reflexivity|lia|now apply isASCIIDigit_ascii
      |now apply isASCIIDigit_not_letter]. }
  assert (Hrun1 : consumeLetterRun s (i + 1) = i + 1).
  { unfold consumeLetterRun. rewrite scanFrom_break;
      [reflexivity|lia|now apply isASCIIDigit_ascii
      |now apply isASCIIDigit_not_letter]. }
  assert (Hr2 : ruleLettersWithContraction s i = i).
  { unfold ruleLettersWithContraction. cbv zeta.
    rewrite Hrun0, Nat.ltb_irrefl. reflexivity. }
  assert (Hr1 : ruleLettersWithPrefixAndContraction s i = i).
  { unfold ruleLettersWithPrefixAndContraction. cbv zeta.
    pose proof (isASCIIDigit_ascii _ H0) as Hb.
    unfold RuneSelf in Hb. apply N.ltb_lt in Hb.
    assert (E128 : (128 <=? byteAt s i)%N = false) by (apply N.leb_gt; lia).
    rewrite E128.
    destruct (negb _); [exact Hr2|].
    rewrite Hrun1, Nat.ltb_irrefl. reflexivity. }
  assert (Hr3 : ruleNumbers s i = i + 3).
  { unfold ruleNumbers.
    replace (length s - i) with (S (S (S (length s - i - 3)))) by lia.
    rewrite ruleNumbers_loop_digit by (assumption || lia).
    rewrite ruleNumbers_loop_digit by (assumption || lia).
    replace (i + 1 + 1) with (i + 2) by lia.
    rewrite ruleNumbers_loop_digit by (assumption || lia).
    cbn [Nat.add]. rewrite ruleNumbers_loop_cap. cbn [Nat.ltb Nat.leb].
    lia. }
  rewrite Hr1, Hr2, Hr3, Nat.ltb_irrefl.
  assert (E3 : (i <? i + 3) = true) by (apply Nat.ltb_lt; lia).
  now rewrite E3.
Qed.

(** X13.  Where an ASCII letter stands at [i], the segment is the run of
    letters that starts at [i], with the contraction that follows it if
    there is one; the optional prefix of rule 1 and the Unicode tables play
    no part. *)
Theorem Next_letters (s : gostring) (i : nat) :
  i < length s ->
  isASCIILetter (byteAt s i) = true ->
  i < consumeLetterRun s i /\
  Next s i
  = if consumeLetterRun s i <? matchContraction s (consumeLetterRun s i)
    then matchContraction s (consumeLetterRun s i)
    else consumeLetterRun s i.
Proof.
  intros Hi Hl.
  pose proof (isASCIILetter_ascii _ Hl) as Hb.
  assert (Hrun : consumeLetterRun s i = consumeLetterRun s (i + 1)).
  { unfold consumeLetterRun, scanFrom.
    replace (length s - i) with (S (length s - (i + 1))) by lia.
    rewrite scan_step_ascii by assumption. rewrite Hl. cbn [negb].
    apply scan_flag_indep. }
  assert (Hge : i + 1 <= consumeLetterRun s (i + 1)).
  { unfold consumeLetterRun.
    pose proof (@scanFrom_bounds isASCIILetter isL s (i + 1)). lia. }
  split; [lia|].
  set (e := consumeLetterRun s i) in *.
  set (R := if e <? matchContraction s e then matchContraction s e else e).
  assert (HR : i < R).
  { subst R. destruct (e <? matchContraction s e) eqn:Ec;
      [apply Nat.ltb_lt in Ec|]; lia. }
  assert (Hr2 : ruleLettersWithContraction s i = R).
  { unfold ruleLettersWithContraction. cbv zeta. fold e.
    assert (E : (i <? e) = true) by (apply Nat.ltb_lt; lia).
    now rewrite E. }
  unfold Next.
  assert (E : (length s <=? i) = false) by (apply Nat.leb_gt; lia).
  rewrite E.
  rewrite (@scanFrom_break isASCIISpace isSpace s i);
    [|lia|assumption|now apply isASCIILetter_not_space].
  cbn [negb].
  assert (ER : (i <? R) = true) by (apply Nat.ltb_lt; lia).
  assert (Hr1 : ruleLettersWithPrefixAndContraction s i = R
                \/ ruleLettersWithPrefixAndContraction s i = i).
  { unfold ruleLettersWithPrefixAndContraction. cbv zeta.
    unfold RuneSelf in Hb. apply N.ltb_lt in Hb.
    assert (E128 : (128 <=? byteAt s i)%N = false) by (apply N.leb_gt; lia).
    rewrite E128.
    destruct (negb _); [now left|].
    rewrite <- Hrun.
    destruct (i + 1 <? e); [now left|now right]. }
  destruct Hr1 as [Hr1|Hr1]; rewrite Hr1.
  - now rewrite ER.
  - rewrite Nat.ltb_irrefl, Hr2. now rewrite ER.
Qed.

(** [collectSegments], which cuts a text into its segments; [None] is the
    panic "segmenter did not advance". *)
Fixpoint collectLoop (fuel : nat) (text : gostring) (i : nat)
    (out : list gostring) : option (list gostring) :=
  match fuel with
  | O => Some out
  | S fuel' =>
    if i <? length text then
      let next := Next text i in
      if next <=? i then None
      else collectLoop fuel' text next (out ++ [slice text i next])
    else Some out
  end.

Definition collectSegments (text : gostring) : option (list gostring) :=
  collectLoop (length text) text 0 [].

Lemma collectLoop_spec (text : gostring) (fuel : nat) :
  forall (i : nat) (out : list gostring),
    i <= length text -> length text - i <= fuel ->
    exists segs,
      collectLoop fuel text i out = Some (out ++ segs) /\
      concat segs = skipn i text /\
      (forall seg, In seg segs -> seg <> []).
Proof.
  induction fuel as [|fuel IH]; intros i out Hi Hf.
  - exists []. cbn [collectLoop]. rewrite app_nil_r.
    split; [reflexivity|]. split; [|intros seg []].
    rewrite skipn_all2 by lia. reflexivity.
  - cbn [collectLoop].
    destruct (i <? length text) eqn:Elt.
    2:{ apply Nat.ltb_ge in Elt. exists []. rewrite app_nil_r.
        split; [reflexivity|]. split; [|intros seg []].
        rewrite skipn_all2 by lia. reflexivity. }
    apply Nat.ltb_lt in Elt. cbv zeta.
    pose proof (Next_gt text Elt) as Hgt.
    pose proof (@Next_le_len text i Hi) as Hle.
    assert (E : (Next text i <=? i) = false) by (apply Nat.leb_gt; lia).
    rewrite E.
    destruct (IH (Next text i) (out ++ [slice text i (Next text i)]))
      as [segs [H1 [H2 H3]]]; [lia|lia|].
    exists (slice text i (Next text i) :: segs).
    split; [|split].
    + rewrite H1. now rewrite <- app_assoc.
    + cbn [concat]. rewrite H2. unfold slice.
      replace (Next text i) with ((Next text i - i) + i) at 2 by lia.
      rewrite <- skipn_skipn. apply firstn_skipn.
    + intros seg [<-|Hin]; [|now apply H3].
      intros Hnil. apply (f_equal (@length ascii)) in Hnil.
      rewrite length_slice in Hnil by lia. cbn [length] in Hnil. lia.
Qed.

(** X14.  The segments of a text partition it: cutting a text at the
    indices the segmenter returns never meets the panic of the loop, gives
    no empty segment, and the segments put together are the text. *)
Theorem collectSegments_partition (text : gostring) :
  exists segs,
    collectSegments text = Some segs /\
    concat segs = text /\
    (forall seg, In seg segs -> seg <> []).
Proof.
  destruct (@collectLoop_spec text (length text) 0 []) as [segs H];
    [lia|lia|].
  exists segs. exact H.
Qed.

(** ** Rendering a message *)

Ltac app_norm :=
  repeat (rewrite app_nil_l || rewrite app_nil_r || rewrite <- app_assoc).

Lemma renderContentType_app (e : Encoding) (ct : gostring)
    (out : list token) :
  renderContentType e ct out = out ++ renderContentType e ct [].
Proof.
  unfold renderContentType.
  destruct (HasPrefix ct _); cbv zeta; [destruct (nonEmpty _)|];
    rewrite !renderText_app; app_norm; reflexivity.
Qed.

Lemma renderContents_app (e : Encoding) (opts : renderOptions)
    (cs : list Content) :
  forall out,
    renderContents e cs opts out
    = option_map (app out) (renderContents e cs opts []).
Proof.
  induction cs as [|c cs IH]; intros out; cbn [renderContents].
  - cbn [option_map]. now rewrite app_nil_r.
  - unfold renderSystemContent, renderDeveloperContent.
    destruct (gostring_eqb (Type_ c) ContentText);
      [|destruct (gostring_eqb (Type_ c) ContentSystem);
        [destruct (System c); [|reflexivity]
        |destruct (gostring_eqb (Type_ c) ContentDeveloper);
         [destruct (Developer c); [|reflexivity]|reflexivity]]];
      match goal with
      | |- renderContents _ _ _ (renderText _ ?t _) = _ =>
          rewrite (IH (renderText e t out)), (IH (renderText e t []));
          rewrite !renderText_app;
          destruct (renderContents e cs opts []); cbn [option_map];
          [f_equal; app_norm; reflexivity|reflexivity]
      end.
Qed.

(** The text of the header, as [renderMessageInto] joins it. *)
Definition headerText (msg : Message) : gostring :=
  if gostring_eqb (Role_ (Author_ msg)) RoleTool then
    if needsRecipient msg
    then Name (Author_ msg) ++ str " to=" ++ Recipient msg
    else Name (Author_ msg)
  else
    if gostring_eqb (Name (Author_ msg)) [] && negb (needsRecipient msg)
    then Role_ (Author_ msg)
    else
      let header := Role_ (Author_ msg) in
      let header :=
        if nonEmpty (Name (Author_ msg))
        then header ++ str ":" ++ Name (Author_ msg) else header in
      if needsRecipient msg
      then header ++ str " to=" ++ Recipient msg else header.

(** The tokens of the header, as [renderMessage] renders it field by
    field. *)
Definition headerTokens (e : Encoding) (msg : Message) : list token :=
  if gostring_eqb (Role_ (Author_ msg)) RoleTool then
    if needsRecipient msg
    then EncodeOrdinary (bpe e) (Name (Author_ msg))
           ++ EncodeOrdinary (bpe e) (str " to=")
           ++ EncodeOrdinary (bpe e) (Recipient msg)
    else EncodeOrdinary (bpe e) (Name (Author_ msg))
  else
    if gostring_eqb (Name (Author_ msg)) [] && negb (needsRecipient msg)
    then EncodeOrdinary (bpe e) (Role_ (Author_ msg))
    else
      EncodeOrdinary (bpe e) (Role_ (Author_ msg))
        ++ (if nonEmpty (Name (Author_ msg))
            then EncodeOrdinary (bpe e) (str ":")
                   ++ EncodeOrdinary (bpe e) (Name (Author_ msg))
            else [])
        ++ (if needsRecipient msg
            then EncodeOrdinary (bpe e) (str " to=")
                   ++ EncodeOrdinary (bpe e) (Recipient msg)
            else []).

(** What follows the header: the channel, the content type, the marker
    [<|message|>], the body and the end-of-message marker. *)
Definition afterHeader (e : Encoding) (msg : Message) (body : list token)
    : list token :=
  (if nonEmpty (Channel msg)
   then [idChannel e] ++ EncodeOrdinary (bpe e) (Channel msg) else [])
  ++ (if nonEmpty (ContentType_ msg)
      then renderContentType e (ContentType_ msg) [] else [])
  ++ [idMessage e] ++ body ++ [terminator e msg].

(** A tool message without a name cannot be rendered. *)
Definition namelessTool (msg : Message) : bool :=
  gostring_eqb (Role_ (Author_ msg)) RoleTool
  && gostring_eqb (Name (Author_ msg)) [].

Lemma renderMessageInto_layout (e : Encoding) (msg : Message)
    (opts : renderOptions) (out : list token) :
  renderMessageInto e msg opts out
  = if namelessTool msg then None
    else option_map
           (fun body => out ++ [idStart e]
                          ++ EncodeOrdinary (bpe e) (headerText msg)
                          ++ afterHeader e msg body)
           (renderContents e (Content_ msg) opts []).
Proof.
  unfold renderMessageInto, namelessTool, headerText, afterHeader.
  cbv zeta.
  destruct (gostring_eqb (Role_ (Author_ msg)) RoleTool
            && gostring_eqb (Name (Author_ msg)) []); [reflexivity|].
  rewrite renderContents_app.
  destruct (renderContents e (Content_ msg) opts []) as [body|];
    cbn [option_map]; [|reflexivity].
  f_equal.
  repeat match goal with
         | |- context [if ?c then _ else _] => destruct c
         end;
    rewrite ?renderText_app;
    try match goal with
        | |- context [renderContentType e ?ct (?a ++ ?b)] =>
            rewrite (renderContentType_app e ct (a ++ b))
        end;
    app_norm; reflexivity.
Qed.

Lemma renderMessage_layout (e : Encoding) (msg : Message)
    (opts : renderOptions) :
  renderMessage e msg opts
  = if namelessTool msg then None
    else option_map
           (fun body => [idStart e] ++ headerTokens e msg
                          ++ afterHeader e msg body)
           (renderContents e (Content_ msg) opts []).
Proof.
  unfold renderMessage, namelessTool, headerTokens, afterHeader.
  cbv zeta.
  destruct (gostring_eqb (Role_ (Author_ msg)) RoleTool
            && gostring_eqb (Name (Author_ msg)) []); [reflexivity|].
  rewrite renderContents_app.
  destruct (renderContents e (Content_ msg) opts []) as [body|];
    cbn [option_map]; [|reflexivity].
  f_equal.
  repeat match goal with
         | |- context [if ?c then _ else _] => destruct c
         end;
    rewrite ?renderText_app;
    try match goal with
        | |- context [renderContentType e ?ct (?a ++ ?b)] =>
            rewrite (renderContentType_app e ct (a ++ b))
        end;
    app_norm; reflexivity.
Qed.

(** X16.  [renderMessageInto] appends to the buffer it is given: the tokens
    it adds, and whether it fails, do not depend on what the buffer
    holds. *)
Theorem renderMessageInto_appends (e : Encoding) (msg : Message)
    (opts : renderOptions) (out : list token) :
  renderMessageInto e msg opts out
  = option_map (app out) (renderMessageInto e msg opts []).
Proof.
  rewrite (renderMessageInto_layout e msg opts out).
  rewrite (renderMessageInto_layout e msg opts []).
  destruct (namelessTool msg); [reflexivity|].
  destruct (renderContents e (Content_ msg) opts []); cbn [option_map];
    [|reflexivity].
  now rewrite app_nil_l.
Qed.

(** The header is one field: no recipient is written, and the author is a
    tool (whose name is the header) or has no name. *)
Definition plainHeader (msg : Message) : bool :=
  negb (needsRecipient msg)
  && (gostring_eqb (Role_ (Author_ msg)) RoleTool
      || gostring_eqb (Name (Author_ msg)) []).

Lemma headerTokens_plain (e : Encoding) (msg : Message) :
  plainHeader msg = true ->
  headerTokens e msg = EncodeOrdinary (bpe e) (headerText msg).
Proof.
  unfold plainHeader, headerTokens, headerText. intros H.
  apply andb_prop in H. destruct H as [Hn Hr].
  apply negb_true_iff in Hn. rewrite Hn. cbn [negb].
  destruct (gostring_eqb (Role_ (Author_ msg)) RoleTool); [reflexivity|].
  cbn [orb] in Hr. rewrite Hr. reflexivity.
Qed.

(** X17.  The two renderers of a message, [renderMessage] (used by [Render]
    and by the parallel path) and [renderMessageInto] (used by the
    sequential path), give the same tokens for a message whose header is
    one field: without a recipient other than [all], and with a tool as
    author or with no author name. *)
Theorem renderMessage_plain (e : Encoding) (msg : Message)
    (opts : renderOptions) :
  plainHeader msg = true ->
  renderMessage e msg opts = renderMessageInto e msg opts [].
Proof.
  intros H.
  rewrite renderMessage_layout, renderMessageInto_layout.
  rewrite (headerTokens_plain e msg H).
  destruct (namelessTool msg); [reflexivity|].
  destruct (renderContents e (Content_ msg) opts []); cbn [option_map];
    [|reflexivity].
  now rewrite app_nil_l.
Qed.

(** ** Rendering a conversation *)

Lemma renderSequential_parallel (e : Encoding) (msgs : list Message)
    (opts : renderOptions) (idxs : list nat) :
  (forall i, In i idxs -> plainHeader (msgAt msgs i) = true) ->
  forall out,
    renderSequential e msgs opts idxs out
    = option_map (fun rs => out ++ concat rs)
        (renderParallel e msgs opts idxs).
Proof.
  induction idxs as [|idx rest IH]; intros Hall out;
    cbn [renderSequential renderParallel].
  - cbn [option_map concat]. now rewrite app_nil_r.
  - rewrite renderMessageInto_layout, renderMessage_layout.
    rewrite (headerTokens_plain e _ (Hall idx (or_introl eq_refl))).
    destruct (namelessTool (msgAt msgs idx)); [reflexivity|].
    destruct (renderContents e _ opts []) as [body|]; cbn [option_map];
      [|reflexivity].
    rewrite IH by (intros i Hi; apply Hall; now right).
    destruct (renderParallel e msgs opts rest) as [rs|]; cbn [option_map];
      [|reflexivity].
    cbn [concat]. f_equal. app_norm. reflexivity.
Qed.

(** X18.  When every message that is rendered has a header of one field,
    the result of [RenderConversation] does not depend on whether the
    messages are rendered in parallel: it is what the sequential loop
    gives. *)
Theorem RenderConversation_paths_agree (e : Encoding) (conv : Conversation)
    (cfg : option RenderConversationConfig) :
  (forall i, In i (renderIdx conv cfg) ->
     plainHeader (msgAt (Messages conv) i) = true) ->
  RenderConversation e conv cfg
  = renderSequential e (Messages conv)
      {| conversationHasFunctionTools := hasFunctionTools (runPrepass conv) |}
      (renderIdx conv cfg) [].
Proof.
  intros Hall. unfold RenderConversation, renderIndices.
  destruct (length (renderIdx conv cfg) =? 0) eqn:E0.
  { apply Nat.eqb_eq in E0.
    destruct (renderIdx conv cfg); [reflexivity|discriminate]. }
  cbv zeta.
  destruct (shouldParallelRender (Messages conv) (renderIdx conv cfg));
    [|reflexivity].
  rewrite (@renderSequential_parallel e (Messages conv) _ _ Hall []).
  destruct (renderParallel e (Messages conv) _ (renderIdx conv cfg));
    reflexivity.
Qed.

(** X19.  The prompt for a completion is the rendered conversation followed
    by [<|start|>] and the ordinary encoding of the next role; it fails
    exactly when rendering the conversation fails. *)
Theorem completion_appends_header (e : Encoding) (conv : Conversation)
    (next : Role) (cfg : option RenderConversationConfig) :
  RenderConversationForCompletion e conv next cfg
  = option_map
      (fun base => base ++ [idStart e] ++ EncodeOrdinary (bpe e) next)
      (RenderConversation e conv cfg).
Proof.
  unfold RenderConversationForCompletion.
  destruct (RenderConversation e conv cfg) as [base|]; cbn [option_map];
    [|reflexivity].
  rewrite renderText_app. now rewrite <- app_assoc.
Qed.

(** *** When rendering fails *)

(** A content block can be rendered: it is text, or a system or developer
    block whose pointer is not nil. *)
Definition contentRenderable (c : Content) : bool :=
  gostring_eqb (Type_ c) ContentText
  || (gostring_eqb (Type_ c) ContentSystem
      && match System c with Some _ => true | None => false end)
  || (gostring_eqb (Type_ c) ContentDeveloper
      && match Developer c with Some _ => true | None => false end).

Definition renderable (msg : Message) : bool :=
  negb (namelessTool msg) && forallb contentRenderable (Content_ msg).

Lemma renderContents_none (e : Encoding) (opts : renderOptions)
    (cs : list Content) :
  forall out,
    renderContents e cs opts out = None
    <-> forallb contentRenderable cs = false.
Proof.
  induction cs as [|c cs IH]; intros out; cbn [renderContents forallb].
  - split; discriminate.
  - unfold contentRenderable.
    destruct (gostring_eqb (Type_ c) ContentText) eqn:Et.
    { apply gostring_eqb_eq in Et. cbn [orb andb]. apply IH. }
    destruct (gostring_eqb (Type_ c) ContentSystem) eqn:Es.
    { cbn [orb andb]. destruct (System c); cbn [orb andb]; [apply IH|].
      apply gostring_eqb_eq in Es. rewrite Es.
      change (gostring_eqb ContentSystem ContentDeveloper) with false.
      cbn [andb]. tauto. }
    destruct (gostring_eqb (Type_ c) ContentDeveloper).
    { cbn [orb andb]. destruct (Developer c); cbn [orb andb];
        [apply IH|tauto]. }
    cbn [orb andb]. tauto.
Qed.

Lemma renderMessageInto_none (e : Encoding) (msg : Message)
    (opts : renderOptions) (out : list token) :
  renderMessageInto e msg opts out = None <-> renderable msg = false.
Proof.
  rewrite renderMessageInto_layout. unfold renderable.
  destruct (namelessTool msg); cbn [negb andb]; [tauto|].
  rewrite <- (renderContents_none e opts (Content_ msg) []).
  destruct (renderContents e (Content_ msg) opts []); cbn [option_map];
    split; congruence.
Qed.

Lemma renderMessage_none (e : Encoding) (msg : Message)
    (opts : renderOptions) :
  renderMessage e msg opts = None <-> renderable msg = false.
Proof.
  rewrite renderMessage_layout. unfold renderable.
  destruct (namelessTool msg); cbn [negb andb]; [tauto|].
  rewrite <- (renderContents_none e opts (Content_ msg) []).
  destruct (renderContents e (Content_ msg) opts []); cbn [option_map];
    split; congruence.
Qed.

Lemma renderSequential_none (e : Encoding) (msgs : list Message)
    (opts : renderOptions) (idxs : list nat) :
  forall out,
    renderSequential e msgs opts idxs out = None
    <-> exists i, In i idxs /\ renderable (msgAt msgs i) = false.
Proof.
  induction idxs as [|idx rest IH]; intros out; cbn [renderSequential].
  - split; [discriminate|intros [i [[] _]]].
  - destruct (renderMessageInto e (msgAt msgs idx) opts out) as [o|] eqn:E.
    + rewrite IH. split.
      * intros [i [Hi Hr]]. exists i. split; [now right|assumption].
      * intros [i [[<-|Hi] Hr]]; [|exists i; auto].
        apply (renderMessageInto_none e _ opts out) in Hr. congruence.
    + split; [|reflexivity]. intros _. exists idx.
      split; [now left|]. now apply (renderMessageInto_none e _ opts out).
Qed.

Lemma renderParallel_none (e : Encoding) (msgs : list Message)
    (opts : renderOptions) (idxs : list nat) :
  renderParallel e msgs opts idxs = None
  <-> exists i, In i idxs /\ renderable (msgAt msgs i) = false.
Proof.
  induction idxs as [|idx rest IH]; cbn [renderParallel].
  - split; [discriminate|intros [i [[] _]]].
  - destruct (renderMessage e (msgAt msgs idx) opts) as [o|] eqn:E.
    + destruct (renderParallel e msgs opts rest) as [rs|].
      * split; [discriminate|].
        intros [i [[<-|Hi] Hr]].
        -- apply (renderMessage_none e _ opts) in Hr. congruence.
        -- destruct IH as [_ IH].
           assert (Hc : Some rs = None) by (apply IH; exists i; auto).
           discriminate.
      * split; [|reflexivity]. intros _.
        destruct IH as [IH _]. destruct (IH eq_refl) as [i [Hi Hr]].
        exists i. split; [now right|assumption].
    + split; [|reflexivity]. intros _. exists idx.
      split; [now left|]. now apply (renderMessage_none e _ opts).
Qed.

(** X20.  [RenderConversation] fails exactly when one of the messages it
    renders cannot be rendered: a tool message without a name, or a
    message with a content block that is not text and whose system or
    developer block is missing.  A message that is dropped cannot make it
    fail, and the parallel and the sequential path fail on the same
    conversations. *)
Theorem RenderConversation_error (e : Encoding) (conv : Conversation)
    (cfg : option RenderConversationConfig) :
  RenderConversation e conv cfg = None
  <-> exists i, In i (renderIdx conv cfg)
                /\ renderable (msgAt (Messages conv) i) = false.
Proof.
  unfold RenderConversation, renderIndices.
  destruct (length (renderIdx conv cfg) =? 0) eqn:E0.
  { apply Nat.eqb_eq in E0. split; [discriminate|].
    destruct (renderIdx conv cfg); [|discriminate].
    intros [i [[] _]]. }
  cbv zeta.
  destruct (shouldParallelRender (Messages conv) (renderIdx conv cfg)).
  - set (opts := {| conversationHasFunctionTools :=
                      hasFunctionTools (runPrepass conv) |}).
    rewrite <- (renderParallel_none e (Messages conv) opts
                  (renderIdx conv cfg)).
    destruct (renderParallel e (Messages conv) opts (renderIdx conv cfg));
      split; congruence.
  - apply renderSequential_none.
Qed.

(** *** The pre-pass and the choice of the path *)

Lemma prepassLoop_tools (msgs : list Message) :
  forall (i : nat) (st : prepass),
    hasFunctionTools (prepassLoop msgs i st)
    = hasFunctionTools st || existsb declaresFunctionTools msgs.
Proof.
  induction msgs as [|m rest IH]; intros i st;
    cbn [prepassLoop existsb].
  - now rewrite orb_false_r.
  - rewrite IH. cbn [prepassStep hasFunctionTools].
    destruct (hasFunctionTools st); cbn [negb orb]; reflexivity.
Qed.

(** X21.  The flag [hasFunctionTools] that the pre-pass hands to the
    renderers is set exactly when some message of the conversation, dropped
    or not, holds a developer block that declares a non-empty namespace
    [functions]. *)
Theorem hasFunctionTools_spec (conv : Conversation) :
  hasFunctionTools (runPrepass conv)
  = existsb declaresFunctionTools (Messages conv).
Proof.
  unfold runPrepass. rewrite prepassLoop_tools. reflexivity.
Qed.

Lemma sumOf_acc (A : Type) (f : A -> nat) (l : list A) :
  forall a, fold_left (fun total x => total + f x) l a = a + sumOf f l.
Proof.
  unfold sumOf. induction l as [|x l IH]; intros a; cbn [fold_left]; [lia|].
  rewrite IH, (IH (0 + f x)). lia.
Qed.

Lemma reachesMinBytes_spec (msgs : list Message) (indices : list nat) :
  forall total,
    total < parallelRenderMinBytes ->
    reachesMinBytes msgs indices total
    = (parallelRenderMinBytes
       <=? total + sumOf (fun i => estimateMessageSize (msgAt msgs i))
                     indices).
Proof.
  induction indices as [|idx rest IH]; intros total Ht;
    cbn [reachesMinBytes].
  - unfold sumOf. cbn [fold_left]. symmetry. apply Nat.leb_gt. lia.
  - cbv zeta. unfold sumOf at 1. cbn [fold_left].
    rewrite sumOf_acc.
    destruct (parallelRenderMinBytes
              <=? total + estimateMessageSize (msgAt msgs idx)) eqn:E.
    + apply Nat.leb_le in E. symmetry. apply Nat.leb_le. lia.
    + apply Nat.leb_gt in E. rewrite IH by assumption.
      f_equal. lia.
Qed.

(** X22.  The parallel path is taken exactly when it is enabled, at least
    two messages are rendered, and the estimated sizes of the rendered
    messages add up to 8192 bytes or more: leaving the summing loop at the
    threshold changes nothing. *)
Theorem shouldParallelRender_spec (msgs : list Message)
    (indices : list nat) :
  shouldParallelRender msgs indices
  = parallelRenderEnabled
    && (parallelRenderMinMessages <=? length indices)
    && (parallelRenderMinBytes
        <=? sumOf (fun i => estimateMessageSize (msgAt msgs i)) indices).
Proof.
  unfold shouldParallelRender.
  destruct parallelRenderEnabled; cbn [negb andb]; [|reflexivity].
  destruct (length indices <? parallelRenderMinMessages) eqn:E.
  - apply Nat.ltb_lt in E.
    assert (E' : (parallelRenderMinMessages <=? length indices) = false)
      by (apply Nat.leb_gt; lia).
    now rewrite E'.
  - apply Nat.ltb_ge in E.
    assert (E' : (parallelRenderMinMessages <=? length indices) = true)
      by (apply Nat.leb_le; lia).
    rewrite E'. cbn [andb].
    rewrite reachesMinBytes_spec by (unfold parallelRenderMinBytes; lia).
    reflexivity.
Qed.

(** ** The table of special tokens *)

Lemma HarmonySpecials_In (x : gostring * token) :
  In x HarmonySpecials <->
  In x (map (fun id => (str "<|reserved_" ++ decimal id ++ str "|>", id))
          reservedIds)
  \/ In x [ (str "<|startoftext|>", TokStartOfText);
            (str "<|endoftext|>", TokEndOfText);
            (str "<|return|>", TokReturn);
            (str "<|constrain|>", TokConstrain);
            (str "<|channel|>", TokChannel);
            (str "<|start|>", TokStart);
            (str "<|end|>", TokEnd);
            (str "<|message|>", TokMessage);
            (str "<|call|>", TokCall) ].
Proof.
  unfold HarmonySpecials, buildHarmonySpecials.
  exact (@In_fold_mapSet N gostring token
           (fun id => str "<|reserved_" ++ decimal id ++ str "|>")
           (fun id => id) reservedIds _ x).
Qed.

Lemma reservedIds_In (t : N) :
  In t reservedIds <-> (ReservedStart <= t <= ReservedEnd)%N.
Proof.
  unfold reservedIds. rewrite in_map_iff.
  change (N.to_nat (ReservedEnd - ReservedStart + 1)) with 1075.
  unfold ReservedStart, ReservedEnd. split.
  - intros [k [<- Hk]]. apply in_seq in Hk. lia.
  - intros H. exists (N.to_nat (t - 200014)). split; [lia|].
    apply in_seq. lia.
Qed.

Lemma HarmonySpecials_reserved (t : N) :
  (ReservedStart <= t <= ReservedEnd)%N ->
  In (str "<|reserved_" ++ decimal t ++ str "|>", t) HarmonySpecials.
Proof.
  intros H. apply (proj2 (HarmonySpecials_In (_, t))). left.
  apply in_map_iff. exists t. split; [reflexivity|].
  apply (proj2 (reservedIds_In t)). exact H.
Qed.

(** X23.  The special tokens of the Harmony vocabulary are the nine named
    markers and the reserved range 200014..201088, and nothing else: the ids
    in between (200000, 200001, 200004, 200009 to 200011 and 200013) are
    not special tokens. *)
Theorem IsSpecialToken_spec (pairs : list (gostring * Rank)) (t : token) :
  IsSpecialToken (newCoreBPE pairs HarmonySpecials) t = true
  <-> In t [199998; 199999; 200002; 200003; 200005; 200006; 200007;
            200008; 200012]%N
      \/ (200014 <= t <= 201088)%N.
Proof.
  unfold IsSpecialToken. split.
  - destruct (mapGet N.eqb _ t) as [lit|] eqn:E; [intros _|discriminate].
    pose proof (@specialDec_In pairs HarmonySpecials lit t E) as Hk.
    destruct (proj1 (HarmonySpecials_In (lit, t)) Hk) as [Hk'|Hk'];
      clear Hk E; rename Hk' into Hk.
    + right. apply in_map_iff in Hk. destruct Hk as [id [E Hid]].
      inversion E; subst. now apply reservedIds_In in Hid.
    + left. cbn [In] in Hk.
      repeat (destruct Hk as [Hk|Hk];
              [inversion Hk; subst; cbn [In]; tauto|]).
      destruct Hk.
  - intros H.
    assert (Hin : exists lit, In (lit, t) HarmonySpecials).
    { destruct H as [H|H].
      - cbn [In] in H.
        repeat (destruct H as [H|H];
                [subst t; eexists;
                 apply (proj2 (HarmonySpecials_In (_, _))); right;
                 cbn [In]; unfold TokStartOfText, TokEndOfText, TokReturn,
                   TokConstrain, TokChannel, TokStart, TokEnd, TokMessage,
                   TokCall; tauto|]).
        destruct H.
      - eexists. now apply HarmonySpecials_reserved. }
    destruct Hin as [lit Hin].
    rewrite (@specialDec_lookup pairs HarmonySpecials lit t
               HarmonySpecials_distinct Hin).
    reflexivity.
Qed.

(** Every id of the reserved range decodes to the literal that
    [buildHarmonySpecials] gave it, [<|reserved_N|>] with the id in
    decimal, the ranks of the vocabulary lying below the special ids. *)
Theorem reserved_decode (pairs : list (gostring * Rank)) (t : token) :
  ranksBelowSpecials pairs = true ->
  (200014 <= t <= 201088)%N ->
  DecodeUTF8 (newCoreBPE pairs HarmonySpecials) [t]
  = Some (str "<|reserved_" ++ decimal t ++ str "|>").
Proof.
  intros Hbelow Ht. unfold DecodeUTF8, DecodeBytes.
  rewrite (@decode_special pairs (str "<|reserved_" ++ decimal t ++ str "|>")
             t [] Hbelow); [reflexivity|].
  now apply HarmonySpecials_reserved.
Qed.

(** ** The streaming parser, further *)




(** X25.  A header whose first word is not a role, not an alias
    [role:name] and not the word [tool] is read as a message of a tool that
    is named by this word; and whatever the first word is, the role that is
    detected is one of the five roles. *)
Theorem detectRoleAndAuthor_unknown (roleToken remainder : gostring) :
  isRoleOrAlias roleToken RoleUser = false ->
  isRoleOrAlias roleToken RoleAssistant = false ->
  isRoleOrAlias roleToken RoleSystem = false ->
  isRoleOrAlias roleToken RoleDeveloper = false ->
  isRoleOrAlias roleToken RoleTool = false ->
  roleToken <> [] ->
  detectRoleAndAuthor roleToken remainder = (RoleTool, roleToken)
  /\ forall rt rem,
       In (fst (detectRoleAndAuthor rt rem))
          [RoleUser; RoleAssistant; RoleSystem; RoleDeveloper; RoleTool].
Proof using TrimSpace.
  intros Hu Ha Hs Hd Ht Hne. split.
  - unfold detectRoleAndAuthor. rewrite Hu, Ha, Hs, Hd. cbv zeta.
    change (gostring_eqb RoleTool RoleTool) with true. cbv iota.
    unfold isRoleOrAlias in Ht. apply orb_false_elim in Ht.
    destruct Ht as [Ht1 Ht2].
    change (RoleTool ++ str ":") with (str "tool:") in Ht2.
    rewrite Ht2, Ht1.
    assert (Hn : nonEmpty roleToken = true).
    { unfold nonEmpty. destruct roleToken; [congruence|reflexivity]. }
    rewrite Hn. unfold nonEmpty in Hn. apply negb_true_iff in Hn.
    now rewrite Hn.
  - intros rt rem. unfold detectRoleAndAuthor. cbv zeta. cbn [fst In].
    destruct (isRoleOrAlias rt RoleUser); [now left|].
    destruct (isRoleOrAlias rt RoleAssistant); [right; now left|].
    destruct (isRoleOrAlias rt RoleSystem); [do 2 right; now left|].
    destruct (isRoleOrAlias rt RoleDeveloper);
      [do 3 right; now left|do 4 right; now left].
Qed.

(** X26.  In the Content state an id that is no rank of the vocabulary and
    no special token is an error, and one that lasts: the id stays in the
    content buffer, so that finalizing the message at the end of the stream
    fails as well. *)
Theorem content_unknown_token (name : EncodingName)
    (pairs : list (gostring * Rank)) (e : Encoding) (p : StreamParser)
    (t : token) :
  LoadEncoding name (Some pairs) = Some e ->
  enc_ p = e ->
  state p = stContent ->
  messages p <> [] ->
  (forall q, In q pairs -> snd q <> t) ->
  IsSpecialToken (bpe e) t = false ->
  exists p',
    fst (Process p t) = p' /\
    snd (Process p t) <> None /\
    state p' = stContent /\
    contentToks p' = contentToks p ++ [t] /\
    snd (ProcessEOS p') <> None.
Proof using TrimSpace.
  intros Hload He Hst Hmsgs Hp Hsp.
  destruct (@LoadEncoding_inv name (Some pairs) e Hload)
    as [pairs' [Ho [Hbpe [_ [_ [_ [_ [_ [_ [_ [Hall _]]]]]]]]]]].
  inversion Ho; subst pairs'. clear Ho.
  assert (Hdec : mapGet N.eqb (specialDec (bpe e)) t = None).
  { unfold IsSpecialToken in Hsp.
    destruct (mapGet N.eqb (specialDec (bpe e)) t); [discriminate|reflexivity]. }
  assert (Hone : forall dst, DecodeBytesInto (bpe e) dst [t] = None).
  { intros dst. cbn [DecodeBytesInto]. rewrite Hdec.
    rewrite Hbpe. cbn [dec newCoreBPE].
    now rewrite AppendInto_miss by assumption. }
  assert (Hstop : isStop (enc_ p) t = false).
  { unfold isStop. rewrite He, Hall. cbn [existsb].
    rewrite Hbpe in Hdec.
    assert (Hno : forall lit, ~ In (lit, t) HarmonySpecials).
    { intros lit Hin.
      pose proof (@specialDec_lookup pairs HarmonySpecials lit t
                    HarmonySpecials_distinct Hin) as Hl.
      rewrite Hdec in Hl. discriminate Hl. }
    repeat match goal with
           | |- context [(t =? ?c)%N] =>
               let E := fresh "E" in
               destruct (t =? c)%N eqn:E;
               [apply N.eqb_eq in E; exfalso; subst t|]
           end; [| | |reflexivity].
    - apply (Hno (str "<|return|>")).
      apply (proj2 (HarmonySpecials_In (_, _))). right.
      cbn [In]. do 2 right. left. reflexivity.
    - apply (Hno (str "<|call|>")).
      apply (proj2 (HarmonySpecials_In (_, _))). right.
      cbn [In]. do 8 right. left. reflexivity.
    - apply (Hno (str "<|end|>")).
      apply (proj2 (HarmonySpecials_In (_, _))). right.
      cbn [In]. do 6 right. left. reflexivity. }
  unfold Process. cbv zeta. cbn [state enc_ contentToks]. rewrite Hst, Hstop.
  rewrite He, (Hone []).
  eexists. split; [reflexivity|]. cbn [fst snd state contentToks].
  split; [discriminate|]. split; [reflexivity|]. split; [reflexivity|].
  unfold ProcessEOS. cbn [state].
  unfold finalizeMessage. cbn [messages contentToks enc_].
  destruct (length (messages p) =? 0) eqn:E0.
  { apply Nat.eqb_eq in E0. destruct (messages p); [congruence|discriminate]. }
  cbv zeta. unfold DecodeUTF8, DecodeBytes.
  rewrite DecodeBytesInto_app.
  destruct (DecodeBytesInto (bpe e) [] (contentToks p)) as [d|];
    [rewrite (Hone d)|]; cbn [snd]; discriminate.
Qed.

(** ** From a rendered message back to the message *)

(** *** Words in the header *)

(** A printable ASCII character other than ['<'], and so no space. *)
Definition wordChar (c : ascii) : bool :=
  ((33 <=? N_of_ascii c) && (N_of_ascii c <=? 126)
   && negb (N_of_ascii c =? 60))%N.

Definition isWord (s : gostring) : bool := forallb wordChar s.

(** A printable ASCII character. *)
Definition graphicChar (c : ascii) : bool :=
  ((33 <=? N_of_ascii c) && (N_of_ascii c <=? 126))%N.

(** What is used of [strings.TrimSpace]: it leaves the empty string and
    every string that begins and ends with a printable ASCII character as
    they are, and it drops a leading space. *)
Definition trimsSpace (trim : gostring -> gostring) : Prop :=
  trim [] = []
  /\ (forall s, trim (" "%char :: s) = trim s)
  /\ (forall c s, graphicChar c = true -> graphicChar (last s c) = true ->
        trim (c :: s) = c :: s).

(** The string begins with a space or with ['<'], as the markers that are
    searched for in a header do. *)
Definition startsMarker (pat : gostring) : bool :=
  match pat with
  | [] => false
  | x :: _ => Ascii.eqb x " "%char || Ascii.eqb x "<"%char
  end.

Lemma wordChar_neq (c x : ascii) :
  wordChar c = true -> Ascii.eqb x " "%char || Ascii.eqb x "<"%char = true ->
  Ascii.eqb c x = false.
Proof.
  intros Hc Hx. apply Ascii.eqb_neq. intros E. subst c.
  apply orb_prop in Hx.
  destruct Hx as [Hx|Hx]; apply Ascii.eqb_eq in Hx; subst x; discriminate Hc.
Qed.

Lemma wordChar_graphic (c : ascii) : wordChar c = true -> graphicChar c = true.
Proof.
  unfold wordChar, graphicChar. intros H.
  apply andb_prop in H. now destruct H.
Qed.

Lemma isWord_cons (c : ascii) (s : gostring) :
  isWord (c :: s) = true -> wordChar c = true /\ isWord s = true.
Proof. unfold isWord. cbn [forallb]. apply andb_prop. Qed.

Lemma isWord_last (s : gostring) (c : ascii) :
  isWord s = true -> graphicChar c = true -> graphicChar (last s c) = true.
Proof.
  revert c. induction s as [|x s IH]; intros c Hs Hc; [exact Hc|].
  apply isWord_cons in Hs. destruct Hs as [Hx Hs].
  destruct s as [|y s]; [now apply wordChar_graphic|].
  change (last (x :: y :: s) c) with (last (y :: s) c). now apply IH.
Qed.

Lemma HasPrefix_app (p s : gostring) : HasPrefix (p ++ s) p = true.
Proof.
  induction p as [|c p IH]; [destruct s; reflexivity|].
  cbn [HasPrefix app]. now rewrite Ascii.eqb_refl, IH.
Qed.

Lemma HasPrefix_word (s pat : gostring) :
  isWord s = true -> startsMarker pat = true -> HasPrefix s pat = false.
Proof.
  intros Hs Hx. destruct pat as [|x pat]; [discriminate|].
  destruct s as [|c s]; [reflexivity|].
  apply isWord_cons in Hs. destruct Hs as [Hc _].
  cbn [HasPrefix]. now rewrite (@wordChar_neq c x Hc Hx).
Qed.

Lemma Index_word (s pat : gostring) :
  isWord s = true -> startsMarker pat = true -> Index s pat = None.
Proof.
  intros Hs Hx. induction s as [|c s IH].
  - destruct pat; [discriminate|reflexivity].
  - cbn [Index]. rewrite (@HasPrefix_word (c :: s) pat Hs Hx).
    apply isWord_cons in Hs. destruct Hs as [_ Hs].
    now rewrite (IH Hs).
Qed.

(** A word in front of [s] is skipped by the search for a marker. *)
Lemma Index_skip_word (pre s pat : gostring) :
  isWord pre = true -> startsMarker pat = true ->
  Index (pre ++ s) pat = option_map (Nat.add (length pre)) (Index s pat).
Proof.
  intros Hp Hx. induction pre as [|c pre IH].
  - cbn [app length]. destruct (Index s pat); reflexivity.
  - pose proof (@HasPrefix_word ((c :: pre)) pat Hp Hx) as Hno.
    assert (Hno' : HasPrefix ((c :: pre) ++ s) pat = false).
    { destruct pat as [|x pat]; [discriminate|].
      cbn [app HasPrefix] in *.
      apply andb_false_iff in Hno. destruct Hno as [Hno|Hno].
      - now rewrite Hno.
      - apply isWord_cons in Hp. destruct Hp as [Hc _].
        now rewrite (@wordChar_neq c x Hc Hx). }
    cbn [app] in *. cbn [Index]. rewrite Hno'.
    apply isWord_cons in Hp. destruct Hp as [_ Hp].
    rewrite (IH Hp). cbn [length]. destruct (Index s pat); reflexivity.
Qed.

Lemma Index_at_marker (m s : gostring) : Index (m ++ s) m = Some 0.
Proof.
  destruct m as [|c m]; [destruct s; reflexivity|].
  cbn [Index app]. change (c :: m ++ s) with ((c :: m) ++ s).
  now rewrite HasPrefix_app.
Qed.

Lemma Index_cons_miss (c : ascii) (s pat : gostring) :
  HasPrefix (c :: s) pat = false ->
  Index (c :: s) pat = option_map S (Index s pat).
Proof. intros H. cbn [Index]. now rewrite H. Qed.

Lemma IndexByte_word (s : gostring) :
  isWord s = true -> IndexByte s " "%char = None.
Proof.
  induction s as [|c s IH]; intros Hs; [reflexivity|].
  apply isWord_cons in Hs. destruct Hs as [Hc Hs].
  cbn [IndexByte]. rewrite (@wordChar_neq c " "%char Hc eq_refl).
  now rewrite (IH Hs).
Qed.

Lemma indexSpaceOrLt_word (pre s : gostring) :
  isWord pre = true ->
  s = [] \/ startsMarker s = true ->
  indexSpaceOrLt (pre ++ s) = length pre.
Proof.
  intros Hp Hs. induction pre as [|c pre IH].
  - cbn [app length]. destruct s as [|x s]; [reflexivity|].
    destruct Hs as [Hs|Hs]; [discriminate|].
    cbn [indexSpaceOrLt startsMarker] in *. now rewrite Hs.
  - apply isWord_cons in Hp. destruct Hp as [Hc Hp].
    cbn [app indexSpaceOrLt length].
    rewrite (@wordChar_neq c " "%char Hc eq_refl).
    rewrite (@wordChar_neq c "<"%char Hc eq_refl).
    cbn [orb]. now rewrite (IH Hp).
Qed.

Lemma replaceAll_word (s old new : gostring) (fuel : nat) :
  isWord s = true -> startsMarker old = true ->
  replaceAll_loop fuel s old new = s.
Proof.
  intros Hs Ho. revert s Hs.
  induction fuel as [|fuel IH]; intros s Hs; [reflexivity|].
  cbn [replaceAll_loop].
  rewrite (@HasPrefix_word s old Hs Ho).
  destruct s as [|c s]; [reflexivity|].
  apply isWord_cons in Hs. destruct Hs as [_ Hs]. now rewrite (IH s Hs).
Qed.

Lemma replaceAll_skip_word (pre s old new : gostring) (fuel : nat) :
  isWord pre = true -> startsMarker old = true ->
  replaceAll_loop (length pre + fuel) (pre ++ s) old new
  = pre ++ replaceAll_loop fuel s old new.
Proof.
  intros Hp Ho. induction pre as [|c pre IH]; [reflexivity|].
  assert (Hno : HasPrefix ((c :: pre) ++ s) old = false).
  { destruct old as [|x old]; [discriminate|].
    apply isWord_cons in Hp. destruct Hp as [Hc _].
    cbn [app HasPrefix]. now rewrite (@wordChar_neq c x Hc Ho). }
  cbn [length Nat.add replaceAll_loop]. rewrite Hno.
  apply isWord_cons in Hp. destruct Hp as [_ Hp].
  cbn [app]. now rewrite (IH Hp).
Qed.

Lemma replaceAll_loop_S (fuel : nat) (s old new : gostring) :
  replaceAll_loop (S fuel) s old new
  = if HasPrefix s old
    then new ++ replaceAll_loop fuel (sliceFrom s (length old)) old new
    else match s with
         | [] => []
         | c :: s' => c :: replaceAll_loop fuel s' old new
         end.
Proof. reflexivity. Qed.

Lemma sliceFrom_app (pre s : gostring) :
  sliceFrom (pre ++ s) (length pre) = s.
Proof.
  unfold sliceFrom. induction pre as [|c pre IH]; [reflexivity|exact IH].
Qed.

Lemma slice_app_prefix (pre s : gostring) :
  slice (pre ++ s) 0 (length pre) = pre.
Proof.
  unfold slice. rewrite Nat.sub_0_r. cbn [skipn].
  induction pre as [|c pre IH]; [reflexivity|].
  cbn [app length firstn]. now rewrite IH.
Qed.

Lemma stripChannels_nil (fuel : nat) : stripChannels fuel [] = [].
Proof. destruct fuel; reflexivity. Qed.

(** *** The header of a plain message *)

(** The text of the header of a message without name, recipient and content
    type: the role, then the channel behind its marker if there is one. *)
Definition plainHeaderText (role chan : gostring) : gostring :=
  role ++ (if nonEmpty chan then str "<|channel|>" ++ chan else []).

Lemma last_app_ne (A : Type) (a b : list A) (d : A) :
  b <> [] -> last (a ++ b) d = last b d.
Proof.
  intros Hb. induction a as [|x a IH]; [reflexivity|].
  cbn [app]. destruct (a ++ b) as [|y l] eqn:E.
  - destruct a; [cbn [app] in E; congruence|discriminate].
  - exact IH.
Qed.

Lemma TrimSpace_fixed (a b : gostring) :
  trimsSpace TrimSpace ->
  match a with [] => False | c :: _ => graphicChar c = true end ->
  isWord b = true -> b <> [] ->
  TrimSpace (a ++ b) = a ++ b.
Proof.
  intros [_ [_ Ht2]] Ha Hb Hne.
  destruct a as [|c a]; [destruct Ha|].
  cbn [app]. apply Ht2; [assumption|].
  rewrite (@last_app_ne ascii a b c Hne).
  apply isWord_last; assumption.
Qed.

Lemma normalizeHeader_plain (role chan : gostring) :
  trimsSpace TrimSpace ->
  isWord role = true -> role <> [] -> isWord chan = true ->
  normalizeHeader (plainHeaderText role chan)
  = role ++ (if nonEmpty chan then str " <|channel|>" ++ chan else []).
Proof.
  intros Htrim Hr Hne Hc.
  unfold normalizeHeader, plainHeaderText, Contains.
  destruct (nonEmpty chan) eqn:En.
  - assert (Hcn : chan <> []).
    { intros E. subst chan. discriminate En. }
    rewrite (@Index_skip_word role _ (str "<|channel|>") Hr eq_refl).
    rewrite Index_at_marker. cbn [option_map].
    assert (HR : ReplaceAll (role ++ str "<|channel|>" ++ chan)
                   (str "<|channel|>") (str " <|channel|>")
                 = role ++ str " <|channel|>" ++ chan).
    { unfold ReplaceAll. rewrite length_app.
      rewrite (@replaceAll_skip_word role _ (str "<|channel|>") _ _ Hr
                 eq_refl).
      f_equal. rewrite length_app.
      change (length (str "<|channel|>") + length chan)
        with (S (10 + length chan)).
      rewrite replaceAll_loop_S, HasPrefix_app, sliceFrom_app.
      now rewrite (@replaceAll_word chan (str "<|channel|>") _ _ Hc eq_refl). }
    rewrite HR.
    assert (HT : TrimSpace (role ++ str " <|channel|>" ++ chan)
                 = role ++ str " <|channel|>" ++ chan).
    { rewrite app_assoc. apply TrimSpace_fixed; try assumption.
      destruct role as [|c role]; [congruence|].
      apply isWord_cons in Hr. destruct Hr as [Hc0 _].
      cbn [app]. now apply wordChar_graphic. }
    rewrite HT.
    rewrite (@Index_skip_word role _ (str "<|constrain|>") Hr eq_refl).
    change (str " <|channel|>" ++ chan)
      with (" "%char :: "<"%char :: str "|channel|>" ++ chan).
    rewrite Index_cons_miss by reflexivity.
    rewrite Index_cons_miss by reflexivity.
    rewrite (@Index_skip_word (str "|channel|>") chan (str "<|constrain|>")
               eq_refl eq_refl).
    rewrite (@Index_word chan (str "<|constrain|>") Hc eq_refl).
    reflexivity.
  - rewrite app_nil_r.
    rewrite (@Index_word role (str "<|channel|>") Hr eq_refl).
    rewrite (@Index_word role (str "<|constrain|>") Hr eq_refl).
    reflexivity.
Qed.

Lemma nonEmpty_false (s : gostring) : nonEmpty s = false -> s = [].
Proof. destruct s; [reflexivity|discriminate]. Qed.

Lemma nonEmpty_true (s : gostring) : nonEmpty s = true -> s <> [].
Proof. destruct s; [discriminate|congruence]. Qed.

Lemma splitLeadingToken_plain (role chan : gostring) :
  trimsSpace TrimSpace ->
  isWord role = true -> isWord chan = true ->
  splitLeadingToken
    (role ++ (if nonEmpty chan then str " <|channel|>" ++ chan else []))
  = (role, if nonEmpty chan then str "<|channel|>" ++ chan else []).
Proof.
  intros Htrim Hr Hc. unfold splitLeadingToken. cbv zeta.
  destruct (nonEmpty chan) eqn:En.
  - rewrite (@indexSpaceOrLt_word role (str " <|channel|>" ++ chan) Hr
               (or_intror eq_refl)).
    rewrite slice_app_prefix, sliceFrom_app.
    assert (E : (length role <? length (role ++ str " <|channel|>" ++ chan))
                = true).
    { apply Nat.ltb_lt. rewrite !length_app.
      change (length (str " <|channel|>")) with 12. lia. }
    rewrite E. f_equal.
    change (str " <|channel|>" ++ chan)
      with (" "%char :: str "<|channel|>" ++ chan).
    destruct Htrim as [Ht0 [Ht1 Ht2]]. rewrite Ht1.
    apply TrimSpace_fixed; [repeat split; assumption|reflexivity|assumption|].
    now apply nonEmpty_true.
  - rewrite (@indexSpaceOrLt_word role [] Hr (or_introl eq_refl)).
    rewrite slice_app_prefix, app_nil_r. now rewrite Nat.ltb_irrefl.
Qed.

Lemma detectRoleAndAuthor_known (role remainder : gostring) :
  In role [RoleUser; RoleAssistant; RoleSystem; RoleDeveloper] ->
  detectRoleAndAuthor role remainder = (role, []).
Proof. intros [<-|[<-|[<-|[<-|[]]]]]; reflexivity. Qed.

Lemma extractChannel_plain (role chan : gostring) :
  isWord role = true -> isWord chan = true ->
  extractChannel
    (role ++ (if nonEmpty chan then str " <|channel|>" ++ chan else []))
  = chan.
Proof.
  intros Hr Hc. unfold extractChannel.
  destruct (nonEmpty chan) eqn:En.
  - rewrite (@Index_skip_word role _ (str "<|channel|>") Hr eq_refl).
    change (str " <|channel|>" ++ chan)
      with (" "%char :: str "<|channel|>" ++ chan).
    rewrite Index_cons_miss by reflexivity.
    rewrite Index_at_marker. cbn [option_map]. cbv zeta.
    replace (length role + 1 + length (str "<|channel|>"))
      with (length (role ++ str " <|channel|>"))
      by (rewrite length_app; change (length (str " <|channel|>")) with 12;
          change (length (str "<|channel|>")) with 11; lia).
    change (role ++ " "%char :: str "<|channel|>" ++ chan)
      with (role ++ str " <|channel|>" ++ chan).
    rewrite app_assoc, sliceFrom_app.
    now rewrite (@IndexByte_word chan Hc).
  - rewrite app_nil_r.
    rewrite (@Index_word role (str "<|channel|>") Hr eq_refl).
    symmetry. now apply nonEmpty_false.
Qed.

Lemma Index_to_marker (chan : gostring) :
  isWord chan = true ->
  Index (str "<|channel|>" ++ chan) (str " to=") = None.
Proof.
  intros Hc.
  change (str "<|channel|>" ++ chan)
    with ("<"%char :: str "|channel|>" ++ chan).
  rewrite Index_cons_miss by reflexivity.
  rewrite (@Index_skip_word (str "|channel|>") chan (str " to=")
             eq_refl eq_refl).
  now rewrite (@Index_word chan (str " to=") Hc eq_refl).
Qed.

Lemma extractRecipient_plain (role chan : gostring) :
  isWord role = true -> isWord chan = true ->
  extractRecipient
    (role ++ (if nonEmpty chan then str " <|channel|>" ++ chan else []))
  = [].
Proof.
  intros Hr Hc. unfold extractRecipient.
  destruct (nonEmpty chan) eqn:En.
  - rewrite (@Index_skip_word role _ (str " to=") Hr eq_refl).
    change (str " <|channel|>" ++ chan)
      with (" "%char :: str "<|channel|>" ++ chan).
    rewrite Index_cons_miss by reflexivity.
    now rewrite (@Index_to_marker chan Hc).
  - rewrite app_nil_r.
    now rewrite (@Index_word role (str " to=") Hr eq_refl).
Qed.

Lemma stripChannels_S (fuel : nat) (ss : gostring) :
  stripChannels (S fuel) ss
  = match Index ss (str "<|channel|>") with
    | None => ss
    | Some idx =>
      let after := sliceFrom ss (idx + length (str "<|channel|>")) in
      match IndexByte after " "%char with
      | None => stripChannels fuel (TrimSpace (slice ss 0 idx))
      | Some sp =>
        stripChannels fuel (TrimSpace (slice ss 0 idx ++ sliceFrom after sp))
      end
    end.
Proof. reflexivity. Qed.

Lemma scrubContentType_plain (roleToken chan : gostring) :
  trimsSpace TrimSpace ->
  isWord chan = true ->
  scrubContentType roleToken
    (if nonEmpty chan then str "<|channel|>" ++ chan else [])
  = [].
Proof.
  intros [Ht0 [Ht1 Ht2]] Hc.
  destruct (nonEmpty chan) eqn:En.
  - unfold scrubContentType. cbv zeta.
    change (find (HasPrefix (str "<|channel|>" ++ chan))
              [str "assistant"; str "user"; str "system"; str "developer"])
      with (@None gostring).
    cbv iota.
    change (HasPrefix (str "<|channel|>" ++ chan) (str "to=")) with false.
    cbv iota.
    rewrite (@Index_to_marker chan Hc).
    rewrite length_app.
    change (length (str "<|channel|>") + length chan)
      with (S (10 + length chan)).
    rewrite stripChannels_S, Index_at_marker. cbv zeta.
    change (0 + length (str "<|channel|>")) with (length (str "<|channel|>")).
    rewrite sliceFrom_app, (@IndexByte_word chan Hc).
    change (slice (str "<|channel|>" ++ chan) 0 0) with (@nil ascii).
    now rewrite Ht0, stripChannels_nil.
  - change (scrubContentType roleToken []) with (TrimSpace []).
    exact Ht0.
Qed.

(** The header of a plain message is parsed back to what was rendered. *)
Lemma parseHeader_plain (p : StreamParser) (header : list token)
    (role chan : gostring) :
  trimsSpace TrimSpace ->
  nextRole p = None ->
  DecodeUTF8 (bpe (enc_ p)) header = Some (plainHeaderText role chan) ->
  In role [RoleUser; RoleAssistant; RoleSystem; RoleDeveloper] ->
  isWord chan = true ->
  parseHeaderFromTokens p header
  = Some {| author := {| Role_ := role; Name := [] |};
            recipient := []; channel := chan; contentType := [] |}.
Proof.
  intros Htrim Hnr Hdec Hrole Hc.
  assert (Hr : isWord role = true /\ role <> []).
  { destruct Hrole as [<-|[<-|[<-|[<-|[]]]]]; split;
      solve [reflexivity|discriminate]. }
  destruct Hr as [Hr Hne].
  unfold parseHeaderFromTokens. rewrite Hdec, Hnr.
  rewrite (@normalizeHeader_plain role chan Htrim Hr Hne Hc).
  rewrite (@splitLeadingToken_plain role chan Htrim Hr Hc).
  rewrite (@detectRoleAndAuthor_known role _ Hrole).
  rewrite (@extractChannel_plain role chan Hr Hc),
    (@extractRecipient_plain role chan Hr Hc).
  f_equal. f_equal.
  exact (@scrubContentType_plain role chan Htrim Hc).
Qed.

(** *** Runs of tokens *)

Lemma processAll_app (a b : list token) :
  forall p : StreamParser,
    processAll p (a ++ b)
    = match processAll p a with
      | (p', None) => processAll p' b
      | (p', Some err) => (p', Some err)
      end.
Proof.
  induction a as [|t a IH]; intros p; cbn [app processAll]; [reflexivity|].
  destruct (Process p t) as [p' [err|]]; [reflexivity|apply IH].
Qed.

(** In the Header state the tokens other than [<|start|>] and
    [<|message|>] are collected. *)
Lemma processAll_header (toks : list token) :
  forall p : StreamParser,
    state p = stHeader ->
    (forall t, In t toks ->
       (t =? TokStart)%N = false /\ (t =? TokMessage)%N = false) ->
    processAll p toks
    = ({| enc_ := enc_ p; nextRole := nextRole p; state := stHeader;
          tokens := tokens p ++ toks; messages := messages p;
          headerToks := headerToks p ++ toks;
          contentToks := contentToks p;
          lastDeltaBytes := lastDeltaBytes p; scratch := scratch p |},
       None).
Proof.
  induction toks as [|t rest IH]; intros p Hst Hall; cbn [processAll].
  - rewrite !app_nil_r. destruct p. cbn in Hst. subst. reflexivity.
  - destruct (Hall t (or_introl eq_refl)) as [H1 H2].
    unfold Process at 1. cbv zeta. cbn [state]. rewrite Hst, H1, H2.
    cbn [enc_ nextRole state tokens messages headerToks contentToks
         lastDeltaBytes scratch].
    rewrite IH; [|reflexivity|intros x Hx; apply Hall; now right].
    cbn [enc_ nextRole state tokens messages headerToks contentToks
         lastDeltaBytes scratch].
    now rewrite <- !app_assoc.
Qed.

(** In the Content state the tokens that can be decoded and are no stop
    tokens are collected. *)
Lemma processAll_content (toks : list token) :
  forall p : StreamParser,
    state p = stContent ->
    (forall t, In t toks ->
       isStop (enc_ p) t = false /\
       DecodeBytesInto (bpe (enc_ p)) [] [t] <> None) ->
    exists p',
      processAll p toks = (p', None) /\
      state p' = stContent /\ enc_ p' = enc_ p /\
      nextRole p' = nextRole p /\ messages p' = messages p /\
      contentToks p' = contentToks p ++ toks.
Proof.
  induction toks as [|t rest IH]; intros p Hst Hall; cbn [processAll].
  - exists p. rewrite app_nil_r. repeat split; reflexivity || assumption.
  - destruct (Hall t (or_introl eq_refl)) as [H1 H2].
    unfold Process at 1. cbv zeta. cbn [state enc_ contentToks].
    rewrite Hst, H1.
    destruct (DecodeBytesInto (bpe (enc_ p)) [] [t]) as [sc|];
      [|congruence].
    match goal with
    | |- context [processAll ?q rest] =>
        destruct (IH q) as [p' [Hp [Hs [He [Hn [Hm Hc]]]]]];
        [reflexivity|intros x Hx; apply Hall; now right|]
    end.
    exists p'. rewrite Hp.
    cbn [enc_ nextRole messages contentToks] in *.
    repeat split; try assumption.
    rewrite Hc. now rewrite <- app_assoc.
Qed.

(** *** The round trip *)

Definition textContent (t : gostring) : Content :=
  {| Type_ := ContentText; Text := t; System := None; Developer := None |}.

(** A message without author name, recipient and content type. *)
Definition plainMessage (role : Role) (chan : gostring)
    (cs : list Content) : Message :=
  {| Author_ := {| Role_ := role; Name := [] |}; Recipient := [];
     Content_ := cs; Channel := chan; ContentType_ := [] |}.

Lemma renderContents_text (e : Encoding) (opts : renderOptions)
    (texts : list gostring) :
  forall out,
    renderContents e (map textContent texts) opts out
    = Some (out ++ concat (map (EncodeOrdinary (bpe e)) texts)).
Proof.
  induction texts as [|t texts IH]; intros out;
    cbn [map renderContents concat].
  - now rewrite app_nil_r.
  - change (gostring_eqb (Type_ (textContent t)) ContentText) with true.
    cbv iota. rewrite IH, renderText_app. cbn [textContent Text].
    now rewrite <- app_assoc.
Qed.

Lemma decode_EncodeOrdinary (pairs specials : list (gostring * Rank))
    (T dst : gostring) :
  byteComplete pairs = true ->
  ranksDistinct pairs = true ->
  DecodeBytesInto (newCoreBPE pairs specials) dst
    (EncodeOrdinary (newCoreBPE pairs specials) T)
  = Some (dst ++ T).
Proof.
  intros Hb Hd. rewrite DecodeBytesInto_acc.
  unfold EncodeOrdinary, Encode.
  rewrite (@encodeLoop_decode pairs specials Hb Hd T (length T) 0 [] 0 []);
    auto; lia.
Qed.

Lemma decode_concat_EncodeOrdinary (pairs specials : list (gostring * Rank))
    (texts : list gostring) :
  byteComplete pairs = true ->
  ranksDistinct pairs = true ->
  forall dst,
    DecodeBytesInto (newCoreBPE pairs specials) dst
      (concat (map (EncodeOrdinary (newCoreBPE pairs specials)) texts))
    = Some (dst ++ concat texts).
Proof.
  intros Hb Hd. induction texts as [|t texts IH]; intros dst;
    cbn [map concat].
  - cbn [DecodeBytesInto]. now rewrite app_nil_r.
  - rewrite DecodeBytesInto_app, decode_EncodeOrdinary by assumption.
    rewrite IH. now rewrite <- app_assoc.
Qed.

(** A rank of the vocabulary is no marker and no stop token, and it can be
    decoded on its own. *)
Lemma rank_token (pairs : list (gostring * Rank)) (k : gostring)
    (t : token) :
  ranksDistinct pairs = true ->
  ranksBelowSpecials pairs = true ->
  In (k, t) pairs ->
  (t < 199998)%N /\
  DecodeBytesInto (newCoreBPE pairs HarmonySpecials) [] [t] <> None.
Proof.
  intros Hd Hbelow Hin. split.
  - unfold ranksBelowSpecials in Hbelow. rewrite forallb_forall in Hbelow.
    apply Hbelow in Hin. cbn [snd] in Hin. now apply N.ltb_lt in Hin.
  - cbn [DecodeBytesInto dec newCoreBPE].
    rewrite (@AppendInto_newTokenStore pairs k t []);
      [discriminate| |assumption].
    now apply distinctb_NoDup.
Qed.

(** X28.  The round trip of a plain message.  A message of one of the roles
    user, assistant, system or developer, without author name, recipient
    and content type, whose channel is empty or a word of printable ASCII
    characters other than ['<'], and whose content is text, is rendered to
    tokens from which the parser, without a role hint, reads one message:
    the same role and channel, and one text block that holds the texts of
    the content one after the other.  The vocabulary is that of a loaded
    encoding: every single byte is a token, no rank is given twice, and the
    ranks lie below the ids of the special tokens. *)
Theorem render_parse_roundtrip (name : EncodingName)
    (pairs : list (gostring * Rank)) (e : Encoding) (role chan : gostring)
    (texts : list gostring) :
  LoadEncoding name (Some pairs) = Some e ->
  byteComplete pairs = true ->
  ranksDistinct pairs = true ->
  ranksBelowSpecials pairs = true ->
  trimsSpace TrimSpace ->
  In role [RoleUser; RoleAssistant; RoleSystem; RoleDeveloper] ->
  isWord chan = true ->
  exists toks,
    Render e (plainMessage role chan (map textContent texts)) = Some toks /\
    ParseMessagesFromCompletionTokens e toks None
    = Some [plainMessage role chan [textContent (concat texts)]].
Proof.
  intros Hload Hb Hd Hbelow Htrim Hrole Hc.
  destruct (@LoadEncoding_inv name (Some pairs) e Hload)
    as [pairs' [Ho [Hbpe [Hstart [Hmsg [Hend [_ [_ [_ [Hchan [Hall _]]]]]]]]]]].
  inversion Ho; subst pairs'. clear Ho.
  set (b := newCoreBPE pairs HarmonySpecials) in *.
  set (H := EncodeOrdinary b role
            ++ (if nonEmpty chan
                then [TokChannel] ++ EncodeOrdinary b chan else [])).
  set (B := concat (map (EncodeOrdinary b) texts)).
  assert (Htool : gostring_eqb role RoleTool = false).
  { destruct Hrole as [<-|[<-|[<-|[<-|[]]]]]; reflexivity. }
  assert (Hasst : terminator e (plainMessage role chan
                                  (map textContent texts)) = TokEnd).
  { unfold terminator. cbn [plainMessage Recipient].
    change (nonEmpty []) with false.
    now rewrite andb_false_r. }
  (* the tokens that are rendered *)
  assert (Hrender :
    Render e (plainMessage role chan (map textContent texts))
    = Some ([TokStart] ++ H ++ [TokMessage] ++ B ++ [TokEnd])).
  { unfold Render. rewrite renderMessage_layout.
    unfold namelessTool. cbn [plainMessage Author_ Role_ Name Content_].
    rewrite Htool. cbn [andb].
    rewrite renderContents_text. cbn [option_map app].
    unfold headerTokens, afterHeader.
    cbn [plainMessage Author_ Role_ Name Content_ Channel ContentType_].
    rewrite Htool.
    change (gostring_eqb [] []) with true.
    change (needsRecipient
              {| Author_ := {| Role_ := role; Name := [] |};
                 Recipient := []; Content_ := map textContent texts;
                 Channel := chan; ContentType_ := [] |}) with false.
    cbn [andb negb]. change (nonEmpty []) with false. cbv iota.
    fold (plainMessage role chan (map textContent texts)).
    rewrite Hasst, Hstart, Hmsg, Hchan, Hbpe.
    fold b. fold B. subst H.
    destruct (nonEmpty chan); cbn [app]; rewrite <- ?app_assoc; reflexivity. }
  exists ([TokStart] ++ H ++ [TokMessage] ++ B ++ [TokEnd]).
  split; [exact Hrender|].
  (* the tokens of the header and of the content *)
  assert (Hrank : forall T t, In t (EncodeOrdinary b T) ->
            (t < 199998)%N /\ DecodeBytesInto b [] [t] <> None).
  { intros T t Hin.
    destruct (@EncodeOrdinary_vocab pairs HarmonySpecials T t Hb Hin)
      as [k Hk].
    exact (@rank_token pairs k t Hd Hbelow Hk). }
  assert (HH : forall t, In t H ->
            (t =? TokStart)%N = false /\ (t =? TokMessage)%N = false).
  { intros t Hin. unfold TokStart, TokMessage.
    assert (Ht : (t < 199998)%N \/ t = TokChannel).
    { subst H. apply in_app_or in Hin. destruct Hin as [Hin|Hin].
      - left. now apply (Hrank role).
      - destruct (nonEmpty chan); [|destruct Hin].
        destruct Hin as [<-|Hin]; [now right|].
        left. now apply (Hrank chan). }
    unfold TokChannel in Ht. split; apply N.eqb_neq; lia. }
  assert (HdE : forall T dst,
            DecodeBytesInto b dst (EncodeOrdinary b T) = Some (dst ++ T)).
  { intros T dst. now apply decode_EncodeOrdinary. }
  assert (HdC : forall dst,
            DecodeBytesInto b dst [TokChannel]
            = Some (dst ++ str "<|channel|>")).
  { intros dst. apply decode_special; [assumption|].
    apply (proj2 (HarmonySpecials_In (_, _))). right. cbn [In]. tauto. }
  assert (HdecH : DecodeUTF8 b H = Some (plainHeaderText role chan)).
  { unfold DecodeUTF8, DecodeBytes, plainHeaderText. subst H.
    rewrite DecodeBytesInto_app, HdE.
    destruct (nonEmpty chan).
    - rewrite DecodeBytesInto_app, HdC, HdE. cbn [app].
      now rewrite <- app_assoc.
    - cbn [DecodeBytesInto app]. now rewrite app_nil_r. }
  assert (HB : forall t, In t B ->
            isStop e t = false /\ DecodeBytesInto b [] [t] <> None).
  { intros t Hin. subst B. apply in_concat in Hin.
    destruct Hin as [l [Hl Hin]]. apply in_map_iff in Hl.
    destruct Hl as [T [<- _]].
    destruct (Hrank T t Hin) as [Hlt Hdec]. split; [|assumption].
    unfold isStop. rewrite Hall. cbn [existsb].
    unfold TokReturn, TokCall, TokEnd.
    repeat (apply orb_false_intro); try reflexivity; apply N.eqb_neq; lia. }
  assert (HdecB : DecodeUTF8 b B = Some (concat texts)).
  { exact (@decode_concat_EncodeOrdinary pairs HarmonySpecials texts
             Hb Hd []). }
  (* the parser *)
  unfold ParseMessagesFromCompletionTokens.
  cbn [app processAll].
  unfold Process at 1. unfold NewStreamParser.
  cbn [enc_ nextRole state tokens messages headerToks contentToks
       lastDeltaBytes scratch].
  rewrite N.eqb_refl.
  rewrite processAll_app.
  match goal with
  | |- context [processAll ?q H] =>
      rewrite (@processAll_header H q eq_refl HH)
  end.
  cbn [enc_ nextRole state tokens messages headerToks contentToks
       lastDeltaBytes scratch].
  cbn [app processAll].
  unfold Process at 1. cbv zeta.
  cbn [enc_ nextRole state tokens messages headerToks contentToks
       lastDeltaBytes scratch].
  change ((TokMessage =? TokStart)%N) with false.
  rewrite N.eqb_refl. cbv iota.
  assert (HdecH' : DecodeUTF8 (bpe e) H = Some (plainHeaderText role chan))
    by (rewrite Hbpe; exact HdecH).
  match goal with
  | |- context [parseHeaderFromTokens ?q ?h] =>
      rewrite (@parseHeader_plain q h role chan Htrim eq_refl HdecH'
                 Hrole Hc)
  end.
  cbn [author recipient channel contentType].
  match goal with
  | |- context [processAll ?q (B ++ [TokEnd])] =>
      rewrite (processAll_app B [TokEnd] q);
      destruct (@processAll_content B q eq_refl)
        as [p4 [Hp4 [Hs4 [He4 [Hn4 [Hm4 Hc4]]]]]]
  end.
  { cbn [enc_]. rewrite Hbpe. exact HB. }
  rewrite Hp4.
  cbn [enc_ nextRole messages contentToks app] in He4, Hn4, Hm4, Hc4.
  cbn [processAll]. unfold Process at 1. cbv zeta.
  cbn [enc_ nextRole state tokens messages headerToks contentToks
       lastDeltaBytes scratch].
  rewrite Hs4, He4.
  assert (Hstop : isStop e TokEnd = true).
  { unfold isStop. rewrite Hall. reflexivity. }
  rewrite Hstop.
  unfold finalizeMessage.
  cbn [enc_ nextRole state tokens messages headerToks contentToks
       lastDeltaBytes scratch].
  rewrite Hm4, Hc4, Hbpe. rewrite HdecB.
  cbn [length Nat.eqb Nat.sub updAt].
  unfold ProcessEOS.
  cbn [enc_ nextRole state tokens messages headerToks contentToks
       lastDeltaBytes scratch Author_ Recipient Channel ContentType_].
  reflexivity.
Qed.

(** ** The reference segmenter of the tests

    [slowSegmenter] decodes every character to a rune, the ASCII ones
    included, and tests the rune with the Unicode predicates. *)

(** [r, sz := rune(s[j]), 1; if r >= 0x80 { r, sz = utf8DecodeRuneInString(s[j:]) }] *)
Definition slowRune (s : gostring) (j : nat) : rune * nat :=
  if (128 <=? byteAt s j)%N then utf8DecodeRuneInString (sliceFrom s j)
  else (byteAt s j, 1).

(** The scanning loop of the reference rules; it returns the index reached,
    whether some iteration advanced, and whether it was left by [break]. *)
Fixpoint slowScan (pr : rune -> bool) (fuel : nat) (s : gostring) (j : nat)
    (flag : bool) : nat * bool * bool :=
  match fuel with
  | O => (j, flag, false)
  | S fuel' =>
    if j <? length s then
      let '(r, sz) := slowRune s j in
      if negb (pr r) then (j, flag, true)
      else slowScan pr fuel' s (j + sz) true
    else (j, flag, false)
  end.

Definition slowScanFrom (pr : rune -> bool) (s : gostring) (j : nat)
    : nat * bool * bool :=
  slowScan pr (length s - j) s j false.

Definition slowConsumeLetterRun (s : gostring) (i : nat) : nat :=
  fst (fst (slowScanFrom isL s i)).

Definition slowRuleLettersWithContraction (s : gostring) (i : nat) : nat :=
  let j := i in
  let e := slowConsumeLetterRun s j in
  if j <? e then
    let j := e in
    let e2 := matchContraction s j in
    if j <? e2 then e2 else j
  else i.

Definition slowRuleLettersWithPrefixAndContraction (s : gostring) (i : nat)
    : nat :=
  let j := i in
  let '(r, sz) := slowRune s j in
  if negb (negb (isSpace r) && negb (isL r) && negb (isN r)) then
    slowRuleLettersWithContraction s i
  else
    let j := j + sz in
    let e := slowConsumeLetterRun s j in
    if j <? e then
      let j := e in
      let e2 := matchContraction s j in
      if j <? e2 then e2 else j
    else i.

Fixpoint slowRuleNumbers_loop (fuel : nat) (s : gostring) (j count : nat)
    : nat * nat :=
  match fuel with
  | O => (j, count)
  | S fuel' =>
    if j <? length s then
      let '(r, sz) := slowRune s j in
      if negb (isN r) || (3 <=? count) then (j, count)
      else slowRuleNumbers_loop fuel' s (j + sz) (count + 1)
    else (j, count)
  end.

Definition slowRuleNumbers (s : gostring) (i : nat) : nat :=
  let '(j, count) := slowRuleNumbers_loop (length s - i) s i 0 in
  if 0 <? count then j else i.

Definition slowRulePunctRun (s : gostring) (i : nat) : nat :=
  let j := i in
  let j :=
    if j <? length s then
      let '(r, sz) := slowRune s j in
      if isSpace r then j + sz else j
    else j in
  let '(j, had, _) :=
    slowScanFrom (fun r => negb (isSpace r || isL r || isN r)) s j in
  if negb had then i
  else
    if j <? length s then
      let '(r, sz) := slowRune s j in
      (if ((r =? CR) || (r =? LF) || (r =? 47))%N then j + sz else j)
    else j.

Definition slowRuleNewlines (s : gostring) (i : nat) : nat :=
  let j := i in
  let '(j, _, _) :=
    slowScanFrom
      (fun r => negb (negb (isSpace r) || (r =? CR) || (r =? LF))%N) s j in
  let '(j, have, _) := slowScanFrom isCRLF s j in
  if negb have then i
  else
    let '(j, _, _) := slowScanFrom isCRLF s j in
    j.

Definition slowRuleWhitespace (s : gostring) (i : nat) : nat :=
  let '(j, _, _) := slowScanFrom isSpace s i in
  if i <? j then j else i.

(** [slowSegmenter.Next] *)
Definition slowNext (s : gostring) (i : nat) : nat :=
  if length s <=? i then i
  else
    let '(_, _, broke) := slowScanFrom isSpace s i in
    let allWS := negb broke in
    if allWS then length s
    else
      let e := slowRuleLettersWithPrefixAndContraction s i in
      if i <? e then e else
      let e := slowRuleLettersWithContraction s i in
      if i <? e then e else
      let e := slowRuleNumbers s i in
      if i <? e then e else
      let e := slowRulePunctRun s i in
      if i <? e then e else
      let e := slowRuleNewlines s i in
      if i <? e then e else
      let e := slowRuleWhitespace s i in
      if i <? e then e else
      i + 1.

(** On ASCII the Unicode test for white space is the ASCII test. *)
Lemma isSpace_ascii (b : N) :
  (b <? RuneSelf)%N = true -> isSpace b = isASCIISpace b.
Proof.
  intros Hb. unfold RuneSelf in Hb. apply N.ltb_lt in Hb.
  unfold isSpace, unicodeIsSpace, isASCIISpace.
  assert (E : forall x y : bool, (x = true <-> y = true) -> x = y).
  { intros [|] [|] H; try reflexivity; [symmetry|]; apply H; reflexivity. }
  apply E.
  rewrite !orb_true_iff, !andb_true_iff, !N.eqb_eq, !N.leb_le. lia.
Qed.

Lemma slowRune_cases (s : gostring) (j : nat) :
  slowRune s j
  = if (byteAt s j <? RuneSelf)%N then (byteAt s j, 1)
    else utf8DecodeRuneInString (sliceFrom s j).
Proof.
  unfold slowRune, RuneSelf. rewrite N.ltb_antisym.
  destruct (128 <=? byteAt s j)%N; reflexivity.
Qed.

Lemma slowScan_scan (pa : N -> bool) (pr : rune -> bool) (s : gostring) :
  (forall b, (b <? RuneSelf)%N = true -> pa b = pr b) ->
  forall (fuel j : nat) (flag : bool),
    slowScan pr fuel s j flag = scan pa pr fuel s j flag.
Proof.
  intros Hpa. induction fuel as [|fuel IH]; intros j flag;
    cbn [slowScan scan]; [reflexivity|].
  destruct (j <? length s); [|reflexivity].
  rewrite slowRune_cases. cbv zeta.
  destruct (byteAt s j <? RuneSelf)%N eqn:Eb.
  - rewrite (Hpa _ Eb). destruct (negb _); [reflexivity|apply IH].
  - destruct (utf8DecodeRuneInString _) as [r sz].
    destruct (negb _); [reflexivity|apply IH].
Qed.

Section SlowSegmenter.

(** On ASCII the range tables hold the letters and the digits, as those of
    the Go standard library do. *)
Hypothesis HL :
  forall b, (b <? RuneSelf)%N = true -> isL b = isASCIILetter b.
Hypothesis HN :
  forall b, (b <? RuneSelf)%N = true -> isN b = isASCIIDigit b.

Lemma slowConsumeLetterRun_eq (s : gostring) (i : nat) :
  slowConsumeLetterRun s i = consumeLetterRun s i.
Proof using HL.
  unfold slowConsumeLetterRun, consumeLetterRun, slowScanFrom, scanFrom.
  rewrite (@slowScan_scan isASCIILetter isL s); [reflexivity|].
  intros b Hb. symmetry. now apply HL.
Qed.

Lemma slowRuleLettersWithContraction_eq (s : gostring) (i : nat) :
  slowRuleLettersWithContraction s i = ruleLettersWithContraction s i.
Proof using HL.
  unfold slowRuleLettersWithContraction, ruleLettersWithContraction.
  now rewrite slowConsumeLetterRun_eq.
Qed.

Lemma slowRuleLettersWithPrefixAndContraction_eq (s : gostring) (i : nat) :
  slowRuleLettersWithPrefixAndContraction s i
  = ruleLettersWithPrefixAndContraction s i.
Proof using HL.
  unfold slowRuleLettersWithPrefixAndContraction,
    ruleLettersWithPrefixAndContraction, slowRune.
  cbv zeta.
  destruct (if (128 <=? byteAt s i)%N then _ else _) as [r sz].
  rewrite slowRuleLettersWithContraction_eq.
  now rewrite slowConsumeLetterRun_eq.
Qed.

Lemma slowRuleNumbers_loop_eq (s : gostring) (fuel : nat) :
  forall j count,
    slowRuleNumbers_loop fuel s j count = ruleNumbers_loop fuel s j count.
Proof using HN.
  induction fuel as [|fuel IH]; intros j count;
    cbn [slowRuleNumbers_loop ruleNumbers_loop]; [reflexivity|].
  destruct (j <? length s); [|reflexivity].
  rewrite slowRune_cases. cbv zeta.
  destruct (byteAt s j <? RuneSelf)%N eqn:Eb.
  - rewrite (HN _ Eb). destruct (_ || _); [reflexivity|apply IH].
  - destruct (utf8DecodeRuneInString _) as [r sz].
    destruct (_ || _); [reflexivity|apply IH].
Qed.

Lemma slowRuleNumbers_eq (s : gostring) (i : nat) :
  slowRuleNumbers s i = ruleNumbers s i.
Proof using HN.
  unfold slowRuleNumbers, ruleNumbers. now rewrite slowRuleNumbers_loop_eq.
Qed.

Lemma slowRulePunctRun_eq (s : gostring) (i : nat) :
  slowRulePunctRun s i = rulePunctRun s i.
Proof using HL HN.
  unfold slowRulePunctRun, rulePunctRun. cbv zeta.
  assert (H1 : (if i <? length s
                then let '(r, sz) := slowRune s i in
                     if isSpace r then i + sz else i
                else i)
               = (if i <? length s
                  then if (byteAt s i <? RuneSelf)%N
                       then (if isASCIISpace (byteAt s i) then i + 1 else i)
                       else let '(r, sz) :=
                              utf8DecodeRuneInString (sliceFrom s i) in
                            if isSpace r then i + sz else i
                  else i)).
  { destruct (i <? length s); [|reflexivity].
    rewrite slowRune_cases.
    destruct (byteAt s i <? RuneSelf)%N eqn:Eb; [|reflexivity].
    now rewrite (isSpace_ascii _ Eb). }
  rewrite H1. clear H1.
  unfold slowScanFrom, scanFrom.
  match goal with
  | |- context [slowScan ?pr (length s - ?j) s ?j false] =>
      set (J := j);
      rewrite (@slowScan_scan
                 (fun b => negb (isASCIISpace b || isASCIILetter b
                                 || isASCIIDigit b)) pr s)
  end.
  2:{ intros b Hb. cbv beta.
      now rewrite (isSpace_ascii _ Hb), (HL _ Hb), (HN _ Hb). }
  destruct (scan _ _ (length s - J) s J false) as [[j' had] broke].
  destruct (negb had); [reflexivity|].
  destruct (j' <? length s); [|reflexivity].
  rewrite slowRune_cases.
  destruct (byteAt s j' <? RuneSelf)%N; reflexivity.
Qed.

Lemma slowRuleNewlines_eq (s : gostring) (i : nat) :
  slowRuleNewlines s i = ruleNewlines s i.
Proof using.
  unfold slowRuleNewlines, ruleNewlines, slowScanFrom, scanFrom. cbv zeta.
  rewrite (@slowScan_scan
             (fun b => negb (negb (isASCIISpace b) || (b =? CR) || (b =? LF))%N)
             (fun r => negb (negb (isSpace r) || (r =? CR) || (r =? LF))%N) s).
  2:{ intros b Hb. cbv beta. now rewrite (isSpace_ascii _ Hb). }
  destruct (scan _ _ (length s - i) s i false) as [[j1 f1] b1].
  rewrite (@slowScan_scan isCRLF isCRLF s) by reflexivity.
  destruct (scan isCRLF isCRLF (length s - j1) s j1 false) as [[j2 f2] b2].
  destruct (negb f2); [reflexivity|].
  now rewrite (@slowScan_scan isCRLF isCRLF s) by reflexivity.
Qed.

Lemma slowScanFrom_space (s : gostring) (i : nat) :
  slowScanFrom isSpace s i = scanFrom isASCIISpace isSpace s i.
Proof using.
  unfold slowScanFrom, scanFrom.
  apply slowScan_scan. intros b Hb. symmetry. now apply isSpace_ascii.
Qed.

Lemma slowRuleWhitespace_eq (s : gostring) (i : nat) :
  slowRuleWhitespace s i = ruleWhitespace s i.
Proof using.
  unfold slowRuleWhitespace, ruleWhitespace.
  now rewrite slowScanFrom_space.
Qed.

(** X15.  The segmenter agrees with the reference segmenter of the tests on
    every string and at every index, the range tables being those of
    letters and digits on ASCII: testing the ASCII bytes directly instead
    of decoding them changes no segment. *)
Theorem slowSegmenter_agrees (s : gostring) (i : nat) :
  slowNext s i = Next s i.
Proof using HL HN.
  unfold slowNext, Next.
  rewrite slowScanFrom_space.
  rewrite slowRuleLettersWithPrefixAndContraction_eq,
    slowRuleLettersWithContraction_eq, slowRuleNumbers_eq,
    slowRulePunctRun_eq, slowRuleNewlines_eq, slowRuleWhitespace_eq.
  reflexivity.
Qed.

End SlowSegmenter.

(** ** The accessors of the streaming parser *)

(** [CurrentRole]; [None] is nil. *)
Definition CurrentRole (p : StreamParser) : option Role :=
  match state p with
  | stContent =>
    if length (messages p) =? 0 then None
    else Some (Role_ (Author_ (msgAt (messages p) (length (messages p) - 1))))
  | _ => nextRole p
  end.

(** [CurrentContent]: the empty string outside the Content state and when
    the buffer cannot be decoded. *)
Definition CurrentContent (p : StreamParser) : gostring :=
  match state p with
  | stContent =>
    match DecodeUTF8 (bpe (enc_ p)) (contentToks p) with
    | Some s => s
    | None => []
    end
  | _ => []
  end.

Definition CurrentChannel (p : StreamParser) : gostring :=
  match state p with
  | stContent =>
    if length (messages p) =? 0 then []
    else Channel (msgAt (messages p) (length (messages p) - 1))
  | _ => []
  end.

Definition CurrentRecipient (p : StreamParser) : gostring :=
  match state p with
  | stContent =>
    if length (messages p) =? 0 then []
    else Recipient (msgAt (messages p) (length (messages p) - 1))
  | _ => []
  end.

Definition CurrentContentType (p : StreamParser) : gostring :=
  match state p with
  | stContent =>
    if length (messages p) =? 0 then []
    else ContentType_ (msgAt (messages p) (length (messages p) - 1))
  | _ => []
  end.

(** What [LastContentDelta] returns after each token of a run. *)
Fixpoint deltas (p : StreamParser) (toks : list token) : list gostring :=
  match toks with
  | [] => []
  | t :: rest =>
    let p' := fst (Process p t) in
    LastContentDelta p' :: deltas p' rest
  end.

(** X27.  Streaming is consistent.  While the parser is in the Content
    state and is fed tokens that can be decoded and are no stop tokens, no
    call fails, and the content of the current message is the content
    before the run followed by the deltas that [LastContentDelta] gave
    after each token; role, channel, recipient and content type of the
    current message do not change. *)
Theorem streaming_deltas (toks : list token) :
  forall p : StreamParser,
    state p = stContent ->
    DecodeUTF8 (bpe (enc_ p)) (contentToks p) <> None ->
    (forall t, In t toks ->
       isStop (enc_ p) t = false /\
       DecodeBytesInto (bpe (enc_ p)) [] [t] <> None) ->
    snd (processAll p toks) = None /\
    CurrentContent (fst (processAll p toks))
    = CurrentContent p ++ concat (deltas p toks) /\
    CurrentRole (fst (processAll p toks)) = CurrentRole p /\
    CurrentChannel (fst (processAll p toks)) = CurrentChannel p /\
    CurrentRecipient (fst (processAll p toks)) = CurrentRecipient p /\
    CurrentContentType (fst (processAll p toks)) = CurrentContentType p.
Proof using TrimSpace.
  induction toks as [|t rest IH]; intros p Hst Hdec Hall.
  - cbn [processAll fst snd deltas concat]. rewrite app_nil_r.
    repeat split; reflexivity.
  - destruct (Hall t (or_introl eq_refl)) as [Hstop Hone].
    destruct (DecodeBytesInto (bpe (enc_ p)) [] [t]) as [sc|] eqn:Esc;
      [clear Hone|congruence].
    destruct (DecodeUTF8 (bpe (enc_ p)) (contentToks p)) as [c|] eqn:Ec;
      [clear Hdec|congruence].
    assert (Hstep : Process p t
      = ({| enc_ := enc_ p; nextRole := nextRole p; state := state p;
            tokens := tokens p ++ [t]; messages := messages p;
            headerToks := headerToks p;
            contentToks := contentToks p ++ [t];
            lastDeltaBytes := sc; scratch := sc |}, None)).
    { unfold Process. cbv zeta. cbn [state enc_ contentToks].
      rewrite Hst, Hstop, Esc. reflexivity. }
    cbn [processAll deltas]. rewrite Hstep. cbn [fst].
    set (p1 := {| enc_ := enc_ p; nextRole := nextRole p; state := state p;
                  tokens := tokens p ++ [t]; messages := messages p;
                  headerToks := headerToks p;
                  contentToks := contentToks p ++ [t];
                  lastDeltaBytes := sc; scratch := sc |}).
    assert (Hc1 : DecodeUTF8 (bpe (enc_ p1)) (contentToks p1)
                  = Some (c ++ sc)).
    { unfold DecodeUTF8, DecodeBytes in *. subst p1. cbn [enc_ contentToks].
      rewrite DecodeBytesInto_app, Ec, DecodeBytesInto_acc, Esc.
      reflexivity. }
    destruct (IH p1) as [H1 [H2 [H3 [H4 [H5 H6]]]]].
    + exact Hst.
    + rewrite Hc1. discriminate.
    + intros x Hx. apply Hall. now right.
    + split; [exact H1|].
      split; [|repeat split; assumption].
      rewrite H2. unfold CurrentContent. rewrite Hc1, Ec.
      replace (state p1) with stContent by (symmetry; exact Hst).
      rewrite Hst. cbn [concat LastContentDelta lastDeltaBytes].
      subst p1. cbn [lastDeltaBytes]. now rewrite <- app_assoc.
Qed.

(** ** tokenizer/decoder_store_arena.go

    The store that is built under the [arenas] experiment: one blob that
    holds the bytes of all tokens, and the table of the offsets. *)

(** The conversion [uint32(n)] of a non-negative [int]. *)
Definition u32 (n : nat) : N := (N.of_nat n mod 4294967296)%N.

Record arenaStore := { blob : gostring; off : list N }.

(** The first pass: the length of the bytes of every id, and their sum. *)
Definition lensStep (acc : list N * nat) (p : gostring * Rank)
    : list N * nat :=
  let '(lens, total) := acc in
  if (nth (N.to_nat (snd p)) lens 0 =? 0)%N
  then (updAt lens (N.to_nat (snd p)) (fun _ => u32 (length (fst p))),
        total + length (fst p))
  else (lens, total).

(** [copy(blob[pos:pos+n], b)], which writes [min(n, len(b))] bytes. *)
Definition copyInto (blob : gostring) (pos n : nat) (b : gostring)
    : gostring :=
  firstn pos blob ++ firstn (Nat.min n (length b)) b
    ++ skipn (pos + Nat.min n (length b)) blob.

(** The second pass, for the id [i]. *)
Definition fillStep (pairs : list (gostring * Rank)) (lens : list N)
    (acc : gostring * list N * nat) (i : nat) : gostring * list N * nat :=
  let '(blob, off, pos) := acc in
  let off := updAt off i (fun _ => u32 pos) in
  let n := N.to_nat (nth i lens 0%N) in
  if 0 <? n then
    let blob :=
      match find (fun p => N.to_nat (snd p) =? i) pairs with
      | Some p => copyInto blob pos n (fst p)
      | None => blob
      end in
    (blob, off, pos + n)
  else (blob, off, pos).

Definition newTokenStoreArena (pairs : list (gostring * Rank)) : arenaStore :=
  let maxID :=
    fold_left (fun m p => if (m <? snd p)%N then snd p else m) pairs 0%N in
  let size := N.to_nat maxID + 1 in
  let '(lens, total) := fold_left lensStep pairs (repeat 0%N size, 0) in
  let blob := repeat Ascii.zero total in
  let off := repeat 0%N (size + 1) in
  let '(blob, off, pos) :=
    fold_left (fillStep pairs lens) (seq 0 size) (blob, off, 0) in
  let off := updAt off size (fun _ => u32 pos) in
  {| blob := blob; off := off |}.

(** [arenaStore.AppendInto]: [None] is the result [false]. *)
Definition AppendIntoArena (s : arenaStore) (dst : gostring) (id : token)
    : option gostring :=
  if length (off s) - 1 <=? N.to_nat id then None
  else
    let a := nth (N.to_nat id) (off s) 0%N in
    let b := nth (N.to_nat id + 1) (off s) 0%N in
    if (a =? b)%N then None
    else Some (dst ++ slice (blob s) (N.to_nat a) (N.to_nat b)).

(** The bytes of the first pair that has the rank [i]. *)
Definition firstBytes (pairs : list (gostring * Rank)) (i : nat) : gostring :=
  match find (fun p => N.to_nat (snd p) =? i) pairs with
  | Some p => fst p
  | None => []
  end.

(** The offset of the id [k]: the lengths of the ids below it. *)
Definition offsetOf (pairs : list (gostring * Rank)) (k : nat) : nat :=
  list_sum (map (fun i => length (firstBytes pairs i)) (seq 0 k)).

Definition bytesTotal (pairs : list (gostring * Rank)) : nat :=
  list_sum (map (fun p => length (fst p)) pairs).

Lemma bytesTotal_In (pairs : list (gostring * Rank)) (p : gostring * Rank) :
  In p pairs -> length (fst p) <= bytesTotal pairs.
Proof.
  induction pairs as [|q l IH]; intros Hp; [destruct Hp|].
  change (bytesTotal (q :: l)) with (length (fst q) + bytesTotal l).
  destruct Hp as [Hp|Hp]; [subst q; lia|].
  specialize (IH Hp). lia.
Qed.

Lemma u32_small (n : nat) :
  (N.of_nat n < 4294967296)%N -> u32 n = N.of_nat n.
Proof. intros H. unfold u32. now apply N.mod_small. Qed.

Lemma list_sum_updAt (l : list N) (i : nat) (v : N) :
  i < length l -> nth i l 0%N = 0%N ->
  list_sum (map N.to_nat (updAt l i (fun _ => v)))
  = list_sum (map N.to_nat l) + N.to_nat v.
Proof.
  revert i. induction l as [|x l IH]; intros [|i] Hi Hx;
    cbn [length] in Hi; try lia.
  - cbn [nth] in Hx. subst x. cbn [updAt map list_sum fold_right]. lia.
  - cbn [nth] in Hx. cbn [updAt map list_sum fold_right].
    change (fold_right Nat.add 0) with list_sum.
    rewrite IH by (assumption || lia). lia.
Qed.

Lemma lens_fold (l : list (gostring * Rank)) :
  forall (lens : list N) (total : nat),
    (forall p, In p l ->
       0 < length (fst p) /\
       (N.of_nat (length (fst p)) < 4294967296)%N /\
       N.to_nat (snd p) < length lens) ->
    total = list_sum (map N.to_nat lens) ->
    length (fst (fold_left lensStep l (lens, total))) = length lens /\
    snd (fold_left lensStep l (lens, total))
    = list_sum (map N.to_nat (fst (fold_left lensStep l (lens, total)))) /\
    snd (fold_left lensStep l (lens, total)) <= total + bytesTotal l /\
    forall i, i < length lens ->
      nth i (fst (fold_left lensStep l (lens, total))) 0%N
      = if (nth i lens 0 =? 0)%N
        then N.of_nat (length (firstBytes l i))
        else nth i lens 0%N.
Proof.
  induction l as [|p l IH]; intros lens total Hgood Htot.
  - cbn [fold_left fst snd]. unfold bytesTotal. cbn [map list_sum fold_right].
    split; [reflexivity|]. split; [assumption|]. split; [lia|].
    intros i Hi. unfold firstBytes. cbn [find length].
    destruct (nth i lens 0 =? 0)%N eqn:E; [|reflexivity].
    now apply N.eqb_eq in E.
  - destruct (Hgood p (or_introl eq_refl)) as [Hlen [Hlen32 Hid]].
    assert (Hgood' : forall q, In q l ->
              0 < length (fst q) /\
              (N.of_nat (length (fst q)) < 4294967296)%N /\
              N.to_nat (snd q) < length lens).
    { intros q Hq. apply Hgood. now right. }
    cbn [fold_left].
    change (bytesTotal (p :: l)) with (length (fst p) + bytesTotal l).
    assert (Hstep : lensStep (lens, total) p
                    = if (nth (N.to_nat (snd p)) lens 0 =? 0)%N
                      then (updAt lens (N.to_nat (snd p))
                              (fun _ => u32 (length (fst p))),
                            total + length (fst p))
                      else (lens, total)) by reflexivity.
    rewrite Hstep. clear Hstep.
    destruct (nth (N.to_nat (snd p)) lens 0 =? 0)%N eqn:E0.
    + apply N.eqb_eq in E0.
      set (lens' := updAt lens (N.to_nat (snd p))
                      (fun _ => u32 (length (fst p)))).
      assert (Hl' : length lens' = length lens) by apply length_updAt.
      destruct (IH lens' (total + length (fst p))) as [H1 [H2 [H3 H4]]].
      { intros q Hq. rewrite Hl'. now apply Hgood'. }
      { subst lens'. rewrite list_sum_updAt by assumption.
        rewrite u32_small by assumption. rewrite Nat2N.id. lia. }
      split; [now rewrite H1|]. split; [assumption|]. split; [lia|].
      intros i Hi. rewrite H4 by (rewrite Hl'; assumption).
      subst lens'. rewrite nth_updAt.
      unfold firstBytes. cbn [find].
      destruct (N.to_nat (snd p) =? i) eqn:Ei.
      * apply Nat.eqb_eq in Ei. subst i.
        rewrite Nat.eqb_refl. apply Nat.ltb_lt in Hid. rewrite Hid.
        cbn [andb]. rewrite E0, N.eqb_refl.
        rewrite u32_small by assumption.
        assert (En : (N.of_nat (length (fst p)) =? 0)%N = false)
          by (apply N.eqb_neq; lia).
        now rewrite En.
      * rewrite Nat.eqb_sym in Ei. rewrite Ei. cbn [andb]. reflexivity.
    + destruct (IH lens total Hgood' Htot) as [H1 [H2 [H3 H4]]].
      split; [assumption|]. split; [assumption|]. split; [lia|].
      intros i Hi. rewrite H4 by assumption.
      unfold firstBytes. cbn [find].
      destruct (N.to_nat (snd p) =? i) eqn:Ei; [|reflexivity].
      apply Nat.eqb_eq in Ei. subst i. now rewrite E0.
Qed.

Lemma slice_app_l (A R : gostring) (a b : nat) :
  b <= length A -> slice (A ++ R) a b = slice A a b.
Proof.
  intros Hb. unfold slice.
  destruct (Nat.le_gt_cases a b) as [Hab|Hab].
  - rewrite skipn_app.
    replace (a - length A) with 0 by lia. cbn [skipn].
    rewrite firstn_app, length_skipn.
    replace (b - a - (length A - a)) with 0 by lia.
    cbn [firstn]. now rewrite app_nil_r.
  - replace (b - a) with 0 by lia. reflexivity.
Qed.

Lemma slice_firstn (l : gostring) (n a b : nat) :
  b <= n -> slice (firstn n l) a b = slice l a b.
Proof.
  intros Hb. rewrite <- (firstn_skipn n l) at 2.
  destruct (Nat.le_gt_cases n (length l)) as [Hn|Hn].
  - rewrite slice_app_l; [reflexivity|]. rewrite length_firstn. lia.
  - rewrite (firstn_all2 l) by lia. rewrite (skipn_all2 l) by lia.
    now rewrite app_nil_r.
Qed.

Lemma slice_app_mid (A Y Z : gostring) :
  slice (A ++ Y ++ Z) (length A) (length A + length Y) = Y.
Proof.
  unfold slice. rewrite skipn_app, skipn_all, Nat.sub_diag. cbn [skipn app].
  replace (length A + length Y - length A) with (length Y) by lia.
  rewrite firstn_app, firstn_all, Nat.sub_diag. cbn [firstn].
  now rewrite app_nil_r.
Qed.

Lemma offsetOf_S (pairs : list (gostring * Rank)) (k : nat) :
  offsetOf pairs (S k) = offsetOf pairs k + length (firstBytes pairs k).
Proof.
  unfold offsetOf. rewrite seq_S, map_app, list_sum_app.
  cbn [map list_sum fold_right Nat.add]. lia.
Qed.

Lemma offsetOf_mono (pairs : list (gostring * Rank)) (a b : nat) :
  a <= b -> offsetOf pairs a <= offsetOf pairs b.
Proof.
  induction 1 as [|b Hab IH]; [lia|]. rewrite offsetOf_S. lia.
Qed.

(** The second pass, up to the id [k]. *)
Lemma fill_fold (pairs : list (gostring * Rank)) (lens : list N)
    (blob0 : gostring) (off0 : list N) (size : nat) :
  (forall i, i < size ->
     N.to_nat (nth i lens 0%N) = length (firstBytes pairs i)) ->
  offsetOf pairs size <= length blob0 ->
  (N.of_nat (offsetOf pairs size) < 4294967296)%N ->
  forall k, k <= size ->
    exists blobk offk,
      fold_left (fillStep pairs lens) (seq 0 k) (blob0, off0, 0)
      = (blobk, offk, offsetOf pairs k) /\
      length blobk = length blob0 /\
      length offk = length off0 /\
      (forall i, i < k -> i < length off0 ->
         nth i offk 0%N = N.of_nat (offsetOf pairs i)) /\
      (forall i, i < k ->
         slice blobk (offsetOf pairs i) (offsetOf pairs (S i))
         = firstBytes pairs i).
Proof.
  intros Hlens Hfit Hsmall.
  induction k as [|k IH]; intros Hk.
  - exists blob0, off0. cbn [seq fold_left].
    split; [reflexivity|]. split; [reflexivity|]. split; [reflexivity|].
    split; intros i Hi; lia.
  - destruct IH as [blobk [offk [Hf [Hlb [Hlo [Hoff Hsl]]]]]]; [lia|].
    rewrite seq_S, fold_left_app, Hf. cbn [Nat.add fold_left].
    unfold fillStep. cbv zeta.
    rewrite (Hlens k) by lia.
    pose proof (offsetOf_mono pairs Hk) as Hm.
    rewrite offsetOf_S in Hm.
    set (pos := offsetOf pairs k) in *.
    set (Bk := firstBytes pairs k) in *.
    assert (Hoffk : forall i, i < S k -> i < length off0 ->
              nth i (updAt offk k (fun _ => u32 pos)) 0%N
              = N.of_nat (offsetOf pairs i)).
    { intros i Hi Hi0. rewrite nth_updAt.
      destruct (i =? k) eqn:Ei.
      - apply Nat.eqb_eq in Ei. subst i.
        assert (E : (k <? length offk) = true)
          by (apply Nat.ltb_lt; lia).
        rewrite E. cbn [andb]. apply u32_small.
        pose proof (offsetOf_mono pairs Hk). rewrite offsetOf_S in *.
        subst pos. lia.
      - cbn [andb]. apply Hoff; [|assumption].
        apply Nat.eqb_neq in Ei. lia. }
    destruct (0 <? length Bk) eqn:En.
    + apply Nat.ltb_lt in En.
      assert (Hfind : find (fun p => N.to_nat (snd p) =? k) pairs <> None).
      { intros E. subst Bk. unfold firstBytes in En. rewrite E in En.
        cbn [length] in En. lia. }
      destruct (find (fun p => N.to_nat (snd p) =? k) pairs) as [p|] eqn:Ef;
        [|congruence].
      assert (Hp : fst p = Bk).
      { subst Bk. unfold firstBytes. now rewrite Ef. }
      rewrite Hp. unfold copyInto. rewrite Nat.min_id.
      rewrite (firstn_all Bk).
      exists (firstn pos blobk ++ Bk ++ skipn (pos + length Bk) blobk),
             (updAt offk k (fun _ => u32 pos)).
      rewrite offsetOf_S. fold pos. fold Bk.
      split; [reflexivity|].
      assert (Hfp : length (firstn pos blobk) = pos)
        by (rewrite length_firstn; lia).
      split; [|split; [|split]].
      * rewrite !length_app, Hfp, length_skipn. lia.
      * now rewrite length_updAt.
      * exact Hoffk.
      * intros i Hi.
        destruct (Nat.eq_dec i k) as [->|Hne].
        -- fold pos. rewrite offsetOf_S. fold pos. fold Bk.
           pose proof (slice_app_mid (firstn pos blobk) Bk
                         (skipn (pos + length Bk) blobk)) as Hmid.
           rewrite Hfp in Hmid. exact Hmid.
        -- assert (Hik : i < k) by lia.
           assert (Hle : offsetOf pairs (S i) <= pos).
           { subst pos. apply offsetOf_mono. lia. }
           rewrite slice_app_l by lia.
           rewrite slice_firstn by assumption.
           now apply Hsl.
    + apply Nat.ltb_ge in En.
      assert (Hz : length Bk = 0) by lia.
      exists blobk, (updAt offk k (fun _ => u32 pos)).
      rewrite offsetOf_S. fold pos. fold Bk. rewrite Hz, Nat.add_0_r.
      split; [reflexivity|]. split; [assumption|].
      split; [now rewrite length_updAt|]. split; [exact Hoffk|].
      intros i Hi.
      destruct (Nat.eq_dec i k) as [->|Hne].
      * fold pos. rewrite offsetOf_S. fold pos. fold Bk.
        rewrite Hz, Nat.add_0_r. unfold slice. rewrite Nat.sub_diag.
        cbn [firstn]. symmetry. now apply length_zero_iff_nil.
      * apply Hsl. lia.
Qed.

Lemma find_rank_nat (pairs : list (gostring * Rank)) (id : N) :
  find (fun p => N.to_nat (snd p) =? N.to_nat id) pairs
  = find (fun p => (snd p =? id)%N) pairs.
Proof. apply find_rank_ext. Qed.

(** X2.  The two stores agree.  For a table whose byte strings are not
    empty and add up to less than 4 GiB, the store of the [arenas] build
    answers every lookup as the default store does: it appends the same
    bytes for an id of the table, and reports a miss for every other id.
    Ranks may occur twice: both stores keep the first pair. *)
Theorem arena_agrees_heap (pairs : list (gostring * Rank)) (dst : gostring)
    (id : token) :
  (forall p, In p pairs -> fst p <> []) ->
  (N.of_nat (bytesTotal pairs) < 4294967296)%N ->
  AppendIntoArena (newTokenStoreArena pairs) dst id
  = AppendInto (newTokenStore pairs) dst id.
Proof using.
  intros Hne Hsmall.
  (* the default store *)
  assert (Hheap : AppendInto (newTokenStore pairs) dst id
                  = match find (fun p => (snd p =? id)%N) pairs with
                    | Some p => Some (dst ++ fst p)
                    | None => None
                    end).
  { unfold AppendInto, newTokenStore. cbn [arr].
    change (fun tmp p => match nth (N.to_nat (snd p)) tmp None with
                         | Some _ => tmp
                         | None => updAt tmp (N.to_nat (snd p))
                                     (fun _ => Some (fst p))
                         end) with storeStep.
    rewrite store_fold_length, repeat_length.
    match goal with
    | |- context [N.to_nat ?m + 1] => set (maxID := m)
    end.
    destruct (N.to_nat maxID + 1 <=? N.to_nat id) eqn:E.
    - apply Nat.leb_le in E.
      destruct (find (fun p => (snd p =? id)%N) pairs) as [p|] eqn:Ef;
        [|reflexivity].
      apply find_some in Ef. destruct Ef as [Hin Hid].
      apply N.eqb_eq in Hid.
      pose proof (maxID_ge pairs 0%N p Hin) as Hmax. fold maxID in Hmax. lia.
    - apply Nat.leb_gt in E.
      rewrite store_fold_spec by (rewrite repeat_length; lia).
      rewrite nth_repeat_None, find_rank_ext.
      destruct (find (fun p => (snd p =? id)%N) pairs); reflexivity. }
  rewrite Hheap. clear Hheap.
  (* the store of the arenas build *)
  unfold newTokenStoreArena.
  match goal with
  | |- context [N.to_nat ?m + 1] => set (maxID := m)
  end.
  set (size := N.to_nat maxID + 1).
  assert (Hgood : forall p, In p pairs ->
            0 < length (fst p) /\
            (N.of_nat (length (fst p)) < 4294967296)%N /\
            N.to_nat (snd p) < length (repeat 0%N size)).
  { intros p Hp. rewrite repeat_length. split; [|split].
    - specialize (Hne p Hp). destruct (fst p); [congruence|cbn; lia].
    - pose proof (@bytesTotal_In pairs p Hp). lia.
    - pose proof (maxID_ge pairs 0%N p Hp) as Hmax. fold maxID in Hmax.
      subst size. lia. }
  destruct (@lens_fold pairs (repeat 0%N size) 0 Hgood)
    as [Hl1 [Hl2 [Hl3 Hl4]]].
  { clear. induction size as [|n IH]; [reflexivity|exact IH]. }
  destruct (fold_left lensStep pairs (repeat 0%N size, 0))
    as [lens total].
  cbn [fst snd] in Hl1, Hl2, Hl3, Hl4. rewrite repeat_length in Hl1, Hl4.
  assert (Hlens : forall i, i < size ->
            N.to_nat (nth i lens 0%N) = length (firstBytes pairs i)).
  { intros i Hi. rewrite (Hl4 i Hi).
    assert (E : nth i (repeat 0%N size) 0%N = 0%N).
    { clear. revert i. induction size as [|n IH]; intros [|i];
        cbn [repeat nth]; auto. }
    rewrite E. cbn [N.eqb]. apply Nat2N.id. }
  assert (Htot : total = offsetOf pairs size).
  { rewrite Hl2. unfold offsetOf.
    rewrite <- Hl1 in Hlens. rewrite <- Hl1. clear - Hlens.
    assert (G : forall (l : list N) (f : nat -> nat) (a : nat),
              (forall i, i < length l ->
                 N.to_nat (nth i l 0%N) = f (a + i)) ->
              list_sum (map N.to_nat l)
              = list_sum (map f (seq a (length l)))).
    { unfold list_sum.
      induction l as [|x l IH]; intros f a H; [reflexivity|].
      cbn [length seq map fold_right].
      rewrite (IH f (S a)).
      - specialize (H 0). cbn [nth length] in H.
        rewrite Nat.add_0_r in H. rewrite H by lia. reflexivity.
      - intros i Hi. specialize (H (S i)). cbn [nth length] in H.
        rewrite H by lia. f_equal. lia. }
    apply (G lens (fun i => length (firstBytes pairs i)) 0).
    intros i Hi. cbn [Nat.add]. now apply Hlens. }
  assert (Hfit : offsetOf pairs size <= length (repeat Ascii.zero total))
    by (rewrite repeat_length; lia).
  assert (Hsum : (N.of_nat (offsetOf pairs size) < 4294967296)%N)
    by (cbn [Nat.add] in Hl3; lia).
  destruct (@fill_fold pairs lens (repeat Ascii.zero total)
              (repeat 0%N (size + 1)) size Hlens Hfit Hsum size
              (Nat.le_refl size))
    as [blobk [offk [Hf [Hlb [Hlo [Hoff Hsl]]]]]].
  match goal with
  | |- context [fold_left (fillStep pairs lens) ?l ?z] =>
      destruct (fold_left (fillStep pairs lens) l z) as [[b0 o0] p0] eqn:Ef0
  end.
  assert (Hf' : (b0, o0, p0) = (blobk, offk, offsetOf pairs size))
    by (rewrite <- Ef0; exact Hf).
  injection Hf' as -> -> ->. clear Ef0.
  unfold AppendIntoArena. cbn [off blob].
  rewrite repeat_length in Hlo.
  rewrite length_updAt, Hlo.
  replace (size + 1 - 1) with size by lia.
  destruct (size <=? N.to_nat id) eqn:E.
  - apply Nat.leb_le in E.
    destruct (find (fun p => (snd p =? id)%N) pairs) as [p|] eqn:Ef;
      [|reflexivity].
    apply find_some in Ef. destruct Ef as [Hin Hid].
    apply N.eqb_eq in Hid.
    pose proof (maxID_ge pairs 0%N p Hin) as Hmax. fold maxID in Hmax.
    subst size. lia.
  - apply Nat.leb_gt in E. cbv zeta.
    assert (Ha : nth (N.to_nat id) (updAt offk size
                        (fun _ => u32 (offsetOf pairs size))) 0%N
                 = N.of_nat (offsetOf pairs (N.to_nat id))).
    { rewrite nth_updAt.
      assert (E1 : (N.to_nat id =? size) = false)
        by (apply Nat.eqb_neq; lia).
      rewrite E1. cbn [andb]. apply Hoff; [assumption|].
      rewrite repeat_length. lia. }
    assert (Hb : nth (N.to_nat id + 1) (updAt offk size
                        (fun _ => u32 (offsetOf pairs size))) 0%N
                 = N.of_nat (offsetOf pairs (S (N.to_nat id)))).
    { rewrite nth_updAt.
      replace (N.to_nat id + 1) with (S (N.to_nat id)) by lia.
      destruct (S (N.to_nat id) =? size) eqn:E1.
      - apply Nat.eqb_eq in E1.
        assert (E2 : (size <? length offk) = true)
          by (apply Nat.ltb_lt; lia).
        rewrite E2. cbn [andb]. rewrite E1. now apply u32_small.
      - cbn [andb]. apply Nat.eqb_neq in E1.
        apply Hoff; [lia|]. rewrite repeat_length. lia. }
    rewrite Ha, Hb, !Nat2N.id.
    rewrite (Hsl (N.to_nat id) E).
    rewrite offsetOf_S.
    unfold firstBytes. rewrite find_rank_nat.
    destruct (find (fun p => (snd p =? id)%N) pairs) as [p|] eqn:Ef.
    + apply find_some in Ef. destruct Ef as [Hin _].
      specialize (Hne p Hin).
      assert (Hpos : 0 < length (fst p))
        by (destruct (fst p); [congruence|cbn; lia]).
      match goal with
      | |- context [(?a =? ?b)%N] =>
          assert (En : (a =? b)%N = false) by (apply N.eqb_neq; lia)
      end.
      now rewrite En.
    + cbn [length]. rewrite Nat.add_0_r. now rewrite N.eqb_refl.
Qed.

End Harmony.

(** ** Concrete instances *)

(** The range tables restricted to Latin-1 (U+0000..U+00FF), where they are
    small enough to write down; used to run the code on concrete inputs. *)
Definition latinL (r : rune) : bool :=
  ((65 <=? r) && (r <=? 90) || (97 <=? r) && (r <=? 122) || (r =? 170)
   || (r =? 181) || (r =? 186) || (192 <=? r) && (r <=? 214)
   || (216 <=? r) && (r <=? 246) || (248 <=? r) && (r <=? 255))%N.
Definition latinM (r : rune) : bool := false.
Definition latinN (r : rune) : bool :=
  ((48 <=? r) && (r <=? 57) || (r =? 178) || (r =? 179) || (r =? 185)
   || (188 <=? r) && (r <=? 190))%N.


(** [strings.ToLower] and [strings.TrimSpace] on ASCII text. *)
Definition asciiToLower (s : gostring) : gostring :=
  map (fun c =>
         let n := N_of_ascii c in
         if ((65 <=? n) && (n <=? 90))%N then ascii_of_N (n + 32) else c) s.

Fixpoint dropSpaces (s : gostring) : gostring :=
  match s with
  | [] => []
  | c :: s' => if isASCIISpace (N_of_ascii c) then dropSpaces s' else s
  end.

Definition asciiTrimSpace (s : gostring) : gostring :=
  rev (dropSpaces (rev (dropSpaces s))).

(** The inputs below declare no tools: the tools section is never written. *)
Definition noToolsSection (tools : ToolsMap) : gostring := [].

(** A small vocabulary with the two properties of the O200k table: the 256
    single bytes, and a few merges. *)
Definition toyPairs : list (gostring * Rank) :=
  map (fun n => ([ascii_of_nat n], N.of_nat n)) (seq 0 256)
  ++ [ (str "as", 256%N); (str "is", 257%N); (str "an", 258%N);
       (str "al", 259%N); (str "fin", 260%N); (str "final", 261%N);
       (str "ass", 262%N); (str "ist", 263%N); (str "fi", 264%N) ].

Definition emptyEncoding : Encoding :=
  {| name := []; bpe := newCoreBPE [] []; fmt := [];
     idStart := 0%N; idMessage := 0%N; idEnd := 0%N; idReturn := 0%N;
     idCall := 0%N; idConstrain := 0%N; idChannel := 0%N;
     stopAll := []; stopAssistant := [] |}.

Definition toyEnc : Encoding :=
  match LoadEncoding HarmonyGptOss (Some toyPairs) with
  | Some e => e
  | None => emptyEncoding
  end.

Lemma toyEnc_loaded : LoadEncoding HarmonyGptOss (Some toyPairs) = Some toyEnc.
Proof. reflexivity. Qed.

Definition toyRenderConversation :=
  RenderConversation latinL latinM latinN asciiToLower noToolsSection true toyEnc.
Definition toyRenderTraining :=
  RenderConversationForTraining latinL latinM latinN asciiToLower
    noToolsSection true toyEnc.

Definition textMessage (role : Role) (chan recip text : string) : Message :=
  {| Author_ := {| Role_ := role; Name := [] |}; Recipient := str recip;
     Content_ := [{| Type_ := ContentText; Text := str text;
                     System := None; Developer := None |}];
     Channel := str chan; ContentType_ := [] |}.

(** *** C6: the segmenter *)

Lemma segmenter_progress_witness :
  0 < length (str "hello world") /\
  0 < Next latinL latinM latinN (str "hello world") 0
    <= length (str "hello world").
Proof.
  split; [vm_compute; lia|].
  apply (segmenter_progress latinL latinM latinN (str "hello world")).
  vm_compute; lia.
Defined.

(** At the end of the string the index given comes back: the segmenter
    does not make progress for every index. *)
Lemma segmenter_progress_counterexample :
  Next latinL latinM latinN (str "ab") 2 = 2 /\
  ~ (forall (s : gostring) (i : nat), i < Next latinL latinM latinN s i).
Proof.
  split; [reflexivity|].
  intros H. specialize (H (str "ab") 2). vm_compute in H. lia.
Qed.

(** *** C5: the round trip *)

Lemma bpe_roundtrip_witness :
  byteComplete toyPairs = true /\
  ranksDistinct toyPairs = true /\
  DecodeUTF8 (newCoreBPE toyPairs HarmonySpecials)
    (EncodeOrdinary latinL latinM latinN
       (newCoreBPE toyPairs HarmonySpecials) (str "assistant finals"))
  = Some (str "assistant finals").
Proof.
  assert (Hb : byteComplete toyPairs = true) by (vm_compute; reflexivity).
  assert (Hd : ranksDistinct toyPairs = true) by (vm_compute; reflexivity).
  split; [exact Hb|]. split; [exact Hd|].
  exact (bpe_roundtrip latinL latinM latinN toyPairs HarmonySpecials
           (str "assistant finals") Hb Hd).
Defined.

(** *** C1: auto-drop *)

(** user; assistant analysis; assistant commentary; assistant final. *)
Definition convDrop : Conversation :=
  {| Messages :=
       [ textMessage RoleUser "" "" "hi";
         textMessage RoleAssistant "analysis" "" "thinking";
         textMessage RoleAssistant "commentary" "" "call tool";
         textMessage RoleAssistant "final" "" "done" ] |}.

Lemma auto_drop_analysis_witness :
  autoDropOf None = true /\
  lastAssistantIsFinal convDrop = true /\
  renderIdx convDrop None = [0; 2; 3].
Proof.
  split; [reflexivity|]. split; [reflexivity|].
  destruct (auto_drop_analysis latinL latinM latinN asciiToLower
              noToolsSection true toyEnc convDrop None eq_refl eq_refl)
    as [f [Hf [Hidx _]]].
  vm_compute in Hf. inversion Hf; subst f.
  rewrite Hidx. reflexivity.
Defined.

(** A user message in channel [analysis] before the first [final] message:
    it is not an assistant message, and it is left out all the same. *)
Definition convUserAnalysis : Conversation :=
  {| Messages :=
       [ textMessage RoleUser "analysis" "" "note";
         textMessage RoleAssistant "final" "" "done" ] |}.

Lemma auto_drop_analysis_counterexample :
  autoDropOf None = true /\
  lastAssistantIsFinal convUserAnalysis = true /\
  isAssistant (msgAt (Messages convUserAnalysis) 0) = false /\
  isAnalysis (msgAt (Messages convUserAnalysis) 0) = true /\
  renderIdx convUserAnalysis None = [1] /\
  toyRenderConversation convUserAnalysis None
  = renderMessage latinL latinM latinN asciiToLower noToolsSection toyEnc
      (msgAt (Messages convUserAnalysis) 1)
      {| conversationHasFunctionTools := false |}.
Proof. vm_compute. repeat split; reflexivity. Qed.

(** *** C2: the training render *)

Definition convPing : Conversation :=
  {| Messages :=
       [ textMessage RoleUser "" "" "ping";
         textMessage RoleAssistant "final" "" "pong" ] |}.

Definition basePing : list token :=
  Eval vm_compute in
    match toyRenderConversation convPing None with
    | Some toks => toks
    | None => []
    end.

Lemma training_last_token_example :
  exists pre,
    basePing = pre ++ [200007%N] /\
    toyRenderTraining convPing None = Some (pre ++ [200002%N]) /\
    toyRenderTraining convPing None <> Some basePing.
Proof.
  assert (Hbase : toyRenderConversation convPing None = Some basePing)
    by (vm_compute; reflexivity).
  destruct (training_last_token latinL latinM latinN asciiToLower
              noToolsSection true HarmonyGptOss (Some toyPairs) convPing None
              toyEnc_loaded Hbase) as [H _].
  exact (H eq_refl).
Defined.

(** An assistant message in channel [final] that has a recipient. *)
Definition convFinalCall : Conversation :=
  {| Messages := [ textMessage RoleAssistant "final" "functions.f" "x" ] |}.

(** C2.  For a last message with role assistant, channel [final] and a
    recipient, the base render ends with [<|call|>] (200012), and the
    training render puts [<|return|>] (200002) in its place: the token that
    is substituted is not [<|end|>]. *)
Theorem training_overwrites_call :
  lastIsAssistantFinal convFinalCall = true /\
  exists pre,
    toyRenderConversation convFinalCall None = Some (pre ++ [200012%N]) /\
    toyRenderTraining convFinalCall None = Some (pre ++ [200002%N]).
Proof.
  split; [reflexivity|].
  exists [200006; 262; 263; 258; 116; 32; 116; 111; 61; 102; 117; 110; 99;
          116; 105; 111; 110; 115; 46; 102; 200005; 261; 200008; 120]%N.
  vm_compute. split; reflexivity.
Qed.

(** *** C7: the stop tokens *)

Lemma stop_token_sets_witness :
  LoadEncoding HarmonyGptOss (Some toyPairs) = Some toyEnc /\
  StopTokens toyEnc [200012; 200007; 200002]%N /\
  StopTokensForAssistantActions toyEnc [200012; 200002]%N /\
  (NoDup [200012; 200007; 200002]%N /\
   forall t, In t [200012; 200007; 200002]%N
             <-> t = 200002%N \/ t = 200007%N \/ t = 200012%N)
  /\ (NoDup [200012; 200002]%N /\
      forall t, In t [200012; 200002]%N <-> t = 200002%N \/ t = 200012%N).
Proof.
  assert (H1 : StopTokens toyEnc [200012; 200007; 200002]%N)
    by (exact (Permutation_cons_append [200012; 200007]%N 200002%N)).
  assert (H2 : StopTokensForAssistantActions toyEnc [200012; 200002]%N)
    by (exact (Permutation_cons_append [200012]%N 200002%N)).
  split; [exact toyEnc_loaded|]. split; [exact H1|]. split; [exact H2|].
  exact (stop_token_sets HarmonyGptOss (Some toyPairs) toyEnc_loaded H1 H2).
Defined.

(** *** C3: a stray start in the Header state *)

(** A parser constructed without a role hint, after its [<|start|>]. *)
Definition parserInHeader : StreamParser :=
  fst (Process asciiTrimSpace (NewStreamParser toyEnc None) TokStart).

Lemma header_ignores_start_witness :
  state parserInHeader = stHeader /\
  nextRole parserInHeader = None /\
  snd (Process asciiTrimSpace parserInHeader TokStart) = None /\
  state (fst (Process asciiTrimSpace parserInHeader TokStart)) = stHeader.
Proof.
  assert (Hst : state parserInHeader = stHeader) by reflexivity.
  split; [exact Hst|]. split; [reflexivity|].
  rewrite (header_ignores_start asciiTrimSpace parserInHeader Hst).
  split; reflexivity.
Defined.

(** Without a role hint a stray [<|start|>] in Header is no error. *)
Lemma header_start_counterexample :
  nextRole (NewStreamParser toyEnc None) = None /\
  Process asciiTrimSpace (NewStreamParser toyEnc None) 200006%N
  = (parserInHeader, None) /\
  state parserInHeader = stHeader /\
  snd (Process asciiTrimSpace parserInHeader 200006%N) = None.
Proof. vm_compute. repeat split; reflexivity. Qed.

(** *** C4: the name under a role hint *)

(** The header [ to=functions.f<|channel|>commentary] of a completion that
    was prompted with [<|start|>assistant], then [<|message|>]. *)
Definition hintedHeaderTokens : list token :=
  map N_of_ascii (str " to=functions.f") ++ [TokChannel]
    ++ map N_of_ascii (str "commentary") ++ [TokMessage].

(** C4.  With the hint [assistant] the message gets the hinted role and
    keeps the name detected in the header text, [to=functions.f]: the name
    is preserved although the hint is not the tool role. *)
Theorem hinted_header_keeps_detected_name :
  exists p,
    processAll asciiTrimSpace (NewStreamParser toyEnc (Some RoleAssistant))
      hintedHeaderTokens = (p, None) /\
    map Author_ (messages p)
    = [{| Role_ := RoleAssistant; Name := str "to=functions.f" |}].
Proof. vm_compute. eexists. split; reflexivity. Qed.

(** *** C10: a special token in the Content state *)

Definition pairIn (lit : gostring) (t : token) (l : list (gostring * token))
    : bool :=
  existsb (fun q => gostring_eqb (fst q) lit && (snd q =? t)%N) l.

Lemma pairIn_In (lit : gostring) (t : token) (l : list (gostring * token)) :
  pairIn lit t l = true -> In (lit, t) l.
Proof.
  unfold pairIn. rewrite existsb_exists. intros [[k v] [Hin H]].
  apply andb_prop in H. destruct H as [Hk Hv]. cbn [fst snd] in *.
  apply gostring_eqb_eq in Hk. apply N.eqb_eq in Hv. now subst.
Qed.

(** A parser that has read [<|start|>assistant<|message|>]. *)
Definition parserInContent : StreamParser :=
  fst (processAll asciiTrimSpace (NewStreamParser toyEnc None)
         ([TokStart] ++ map N_of_ascii (str "assistant") ++ [TokMessage])).

Lemma content_special_token_witness :
  LoadEncoding HarmonyGptOss (Some toyPairs) = Some toyEnc /\
  ranksBelowSpecials toyPairs = true /\
  enc_ parserInContent = toyEnc /\
  state parserInContent = stContent /\
  In (str "<|start|>", 200006%N) HarmonySpecials /\
  exists p',
    Process asciiTrimSpace parserInContent 200006%N = (p', None) /\
    state p' = stContent /\
    messages p' = messages parserInContent /\
    contentToks p' = contentToks parserInContent ++ [200006%N] /\
    LastContentDelta p' = str "<|start|>".
Proof.
  assert (Hbelow : ranksBelowSpecials toyPairs = true)
    by (vm_compute; reflexivity).
  assert (Hin : In (str "<|start|>", 200006%N) HarmonySpecials)
    by (apply pairIn_In; vm_compute; reflexivity).
  assert (Henc : enc_ parserInContent = toyEnc) by reflexivity.
  assert (Hst : state parserInContent = stContent)
    by (vm_compute; reflexivity).
  split; [exact toyEnc_loaded|]. split; [exact Hbelow|].
  split; [exact Henc|]. split; [exact Hst|]. split; [exact Hin|].
  apply (content_special_token asciiTrimSpace HarmonyGptOss toyPairs
           parserInContent toyEnc_loaded Hbelow Henc Hst Hin);
    discriminate.
Defined.

(** *** Further instances *)

Lemma toyPairs_ranks (q : gostring * Rank) :
  In q toyPairs -> (snd q < 265)%N.
Proof.
  assert (H : forallb (fun q => (snd q <? 265)%N) toyPairs = true)
    by (vm_compute; reflexivity).
  rewrite forallb_forall in H. intros Hq. apply H in Hq.
  now apply N.ltb_lt in Hq.
Qed.

Lemma asciiTrimSpace_trims : trimsSpace asciiTrimSpace.
Proof.
  assert (Hg : forall c, graphicChar c = true ->
                 isASCIISpace (N_of_ascii c) = false).
  { intros c H. unfold graphicChar in H. apply andb_prop in H.
    destruct H as [H _]. apply N.leb_le in H.
    unfold isASCIISpace. repeat (apply orb_false_intro); apply N.eqb_neq; lia. }
  assert (Hd : forall c l, graphicChar c = true ->
                 dropSpaces (c :: l) = c :: l).
  { intros c l H. cbn [dropSpaces]. now rewrite (Hg c H). }
  assert (Hlast : forall (s : gostring) (c d : ascii),
                    s <> [] -> last s c = last s d).
  { induction s as [|x s IH]; intros c d Hne; [congruence|].
    destruct s as [|y s]; [reflexivity|].
    change (last (y :: s) c = last (y :: s) d). apply IH. discriminate. }
  assert (Hrev : forall (s : gostring) (c : ascii),
                   exists l, rev (c :: s) = last s c :: l).
  { induction s as [|y s IH]; intros c.
    - exists []. reflexivity.
    - destruct (IH y) as [l Hl].
      exists (l ++ [c]).
      change (rev (c :: y :: s)) with (rev (y :: s) ++ [c]). rewrite Hl.
      cbn [app]. f_equal.
      destruct s as [|z s]; [reflexivity|].
      change (last (y :: z :: s) c) with (last (z :: s) c).
      apply Hlast. discriminate. }
  split; [reflexivity|]. split; [reflexivity|].
  intros c s Hc Hl. unfold asciiTrimSpace.
  rewrite (Hd c s Hc).
  destruct (Hrev s c) as [l Hr]. rewrite Hr, (Hd _ l Hl), <- Hr.
  apply rev_involutive.
Qed.

Lemma DecodeBytes_unknown_witness :
  DecodeBytes (newCoreBPE toyPairs HarmonySpecials) [104; 300; 105]%N = None.
Proof.
  apply (@DecodeBytes_unknown toyPairs HarmonySpecials [104; 300; 105]%N
           300%N).
  - intros q Hq. apply toyPairs_ranks in Hq. lia.
  - intros [lit t] Hq. apply HarmonySpecials_above in Hq.
    unfold TokStartOfText in Hq. cbn [snd]. lia.
  - cbn [In]. tauto.
Defined.

Definition twoSpecials : coreBPE :=
  newCoreBPE [] [(str "<a>", 1%N); (str "<a>b", 2%N)].
Definition twoSpecialsSwapped : coreBPE :=
  newCoreBPE [] [(str "<a>b", 2%N); (str "<a>", 1%N)].

Lemma matchSpecialAt_order_witness :
  matchSpecialAt twoSpecials (str "x<a>b") 1 [str "<a>"; str "<a>b"]
  = matchSpecialAt twoSpecialsSwapped (str "x<a>b") 1 [str "<a>"; str "<a>b"]
  /\ matchSpecialAt twoSpecials (str "x<a>b") 1 [str "<a>"; str "<a>b"]
     = (2%N, 4).
Proof.
  split; [|reflexivity].
  apply (@matchSpecialAt_order _ _ _ _ _).
  - repeat constructor; cbn [In]; intros H;
      repeat (destruct H as [H|H]; [discriminate H|]); exact H.
  - apply perm_swap.
Defined.

Lemma EncodeOrdinary_no_special_witness :
  byteComplete toyPairs = true /\
  ranksBelowSpecials toyPairs = true /\
  forall t,
    In t (EncodeOrdinary latinL latinM latinN
            (newCoreBPE toyPairs HarmonySpecials) (str "<|start|>final")) ->
    (exists k, In (k, t) toyPairs) /\
    IsSpecialToken (newCoreBPE toyPairs HarmonySpecials) t = false.
Proof.
  assert (Hb : byteComplete toyPairs = true) by (vm_compute; reflexivity).
  assert (Hs : ranksBelowSpecials toyPairs = true)
    by (vm_compute; reflexivity).
  split; [exact Hb|]. split; [exact Hs|].
  exact (@EncodeOrdinary_no_special latinL latinM latinN toyPairs
           (str "<|start|>final") Hb Hs).
Defined.

Lemma special_roundtrip_witness :
  byteComplete toyPairs = true /\
  ranksDistinct toyPairs = true /\
  ranksBelowSpecials toyPairs = true /\
  DecodeUTF8 (newCoreBPE toyPairs HarmonySpecials)
    (EncodeWithSpecialTokens latinL latinM latinN
       (newCoreBPE toyPairs HarmonySpecials)
       (str "<|start|>assistant<|message|>final<|end|>"))
  = Some (str "<|start|>assistant<|message|>final<|end|>").
Proof.
  assert (Hb : byteComplete toyPairs = true) by (vm_compute; reflexivity).
  assert (Hd : ranksDistinct toyPairs = true) by (vm_compute; reflexivity).
  assert (Hs : ranksBelowSpecials toyPairs = true)
    by (vm_compute; reflexivity).
  split; [exact Hb|]. split; [exact Hd|]. split; [exact Hs|].
  exact (@special_roundtrip latinL latinM latinN toyPairs
           (str "<|start|>assistant<|message|>final<|end|>") Hb Hd Hs).
Defined.

Lemma Next_trailing_whitespace_witness :
  2 < length (str "ab   ") /\
  Next latinL latinM latinN (str "ab   ") 2 = length (str "ab   ").
Proof.
  split; [vm_compute; lia|].
  apply (@Next_trailing_whitespace latinL latinM latinN (str "ab   ") 2).
  - vm_compute; lia.
  - intros k Hk. change (length (str "ab   ")) with 5 in Hk.
    do 5 (destruct k as [|k]; [try lia; reflexivity|]). lia.
Defined.

Lemma Next_three_digits_witness :
  Next latinL latinM latinN (str "1234abc") 0 = 3.
Proof.
  apply (@Next_three_digits latinL latinM latinN (str "1234abc") 0).
  - vm_compute; lia.
  - reflexivity.
  - reflexivity.
  - reflexivity.
Defined.

Lemma Next_letters_witness :
  0 < consumeLetterRun latinL latinM (str "don't stop") 0 /\
  Next latinL latinM latinN (str "don't stop") 0 = 5.
Proof.
  destruct (@Next_letters latinL latinM latinN (str "don't stop") 0)
    as [H1 H2].
  - vm_compute; lia.
  - reflexivity.
  - split; [exact H1|]. rewrite H2. reflexivity.
Defined.

Lemma renderMessage_plain_witness :
  plainHeader (textMessage RoleUser "" "" "hi") = true /\
  renderMessage latinL latinM latinN asciiToLower noToolsSection toyEnc
    (textMessage RoleUser "" "" "hi")
    {| conversationHasFunctionTools := false |}
  = renderMessageInto latinL latinM latinN asciiToLower noToolsSection toyEnc
      (textMessage RoleUser "" "" "hi")
      {| conversationHasFunctionTools := false |} [].
Proof.
  split; [reflexivity|].
  apply (@renderMessage_plain latinL latinM latinN asciiToLower
           noToolsSection toyEnc (textMessage RoleUser "" "" "hi")
           {| conversationHasFunctionTools := false |}).
  reflexivity.
Defined.

Lemma RenderConversation_paths_agree_witness :
  toyRenderConversation convDrop None
  = renderSequential latinL latinM latinN asciiToLower noToolsSection toyEnc
      (Messages convDrop) {| conversationHasFunctionTools := false |}
      [0; 2; 3] [].
Proof.
  apply (@RenderConversation_paths_agree latinL latinM latinN asciiToLower
           noToolsSection true toyEnc convDrop None).
  intros i Hi.
  change (renderIdx convDrop None) with [0; 2; 3] in Hi.
  destruct Hi as [<-|[<-|[<-|[]]]]; reflexivity.
Defined.

Lemma reserved_decode_witness :
  ranksBelowSpecials toyPairs = true /\
  DecodeUTF8 (newCoreBPE toyPairs HarmonySpecials) [200014%N]
  = Some (str "<|reserved_200014|>").
Proof.
  assert (Hs : ranksBelowSpecials toyPairs = true)
    by (vm_compute; reflexivity).
  split; [exact Hs|].
  apply (@reserved_decode toyPairs 200014%N Hs). lia.
Defined.

Lemma detectRoleAndAuthor_unknown_witness :
  detectRoleAndAuthor asciiTrimSpace (str "functions.f") (str "to=all")
  = (RoleTool, str "functions.f").
Proof.
  apply (@detectRoleAndAuthor_unknown asciiTrimSpace (str "functions.f")
           (str "to=all"));
    solve [reflexivity|discriminate].
Defined.

Lemma content_unknown_token_witness :
  enc_ parserInContent = toyEnc /\
  state parserInContent = stContent /\
  messages parserInContent <> [] /\
  IsSpecialToken (bpe toyEnc) 300%N = false /\
  exists p',
    fst (Process asciiTrimSpace parserInContent 300%N) = p' /\
    snd (Process asciiTrimSpace parserInContent 300%N) <> None /\
    state p' = stContent /\
    contentToks p' = contentToks parserInContent ++ [300%N] /\
    snd (ProcessEOS p') <> None.
Proof.
  assert (Henc : enc_ parserInContent = toyEnc) by reflexivity.
  assert (Hst : state parserInContent = stContent)
    by (vm_compute; reflexivity).
  assert (Hm : messages parserInContent <> [])
    by (vm_compute; discriminate).
  assert (Hsp : IsSpecialToken (bpe toyEnc) 300%N = false)
    by (vm_compute; reflexivity).
  split; [exact Henc|]. split; [exact Hst|]. split; [exact Hm|].
  split; [exact Hsp|].
  apply (@content_unknown_token asciiTrimSpace HarmonyGptOss toyPairs
           toyEnc parserInContent 300%N toyEnc_loaded Henc Hst Hm);
    [|exact Hsp].
  intros q Hq. apply toyPairs_ranks in Hq. lia.
Defined.

Lemma render_parse_roundtrip_witness :
  exists toks,
    Render latinL latinM latinN asciiToLower noToolsSection toyEnc
      (plainMessage RoleAssistant (str "final")
         (map textContent [str "Hello"; str " world"]))
    = Some toks /\
    ParseMessagesFromCompletionTokens asciiTrimSpace toyEnc toks None
    = Some [plainMessage RoleAssistant (str "final")
              [textContent (str "Hello world")]].
Proof.
  apply (@render_parse_roundtrip latinL latinM latinN asciiToLower
           noToolsSection asciiTrimSpace HarmonyGptOss toyPairs toyEnc
           RoleAssistant (str "final") [str "Hello"; str " world"]
           toyEnc_loaded).
  - vm_compute; reflexivity.
  - vm_compute; reflexivity.
  - vm_compute; reflexivity.
  - exact asciiTrimSpace_trims.
  - cbn [In]. tauto.
  - reflexivity.
Defined.

(** A conversation whose last assistant message is not in channel
    [final]. *)
Definition convOpen : Conversation :=
  {| Messages :=
       [ textMessage RoleUser "" "" "hi";
         textMessage RoleAssistant "analysis" "" "thinking";
         textMessage RoleAssistant "commentary" "" "call tool" ] |}.

Lemma renderIdx_keep_all_witness :
  autoDropOf None && lastAssistantIsFinal convOpen = false /\
  renderIdx convOpen None = [0; 1; 2].
Proof.
  split; [reflexivity|].
  apply (@renderIdx_keep_all convOpen None). reflexivity.
Defined.

Lemma parseHeader_hinted_witness :
  exists hdr,
    parseHeaderFromTokens asciiTrimSpace
      (NewStreamParser toyEnc (Some RoleAssistant))
      (map N_of_ascii (str "functions.f")) = Some hdr /\
    Role_ (author hdr) = RoleAssistant /\
    Name (author hdr) = str "functions.f".
Proof.
  destruct (@parseHeader_hinted asciiTrimSpace
              (NewStreamParser toyEnc (Some RoleAssistant))
              (map N_of_ascii (str "functions.f")) RoleAssistant
              (str "functions.f") eq_refl)
    as [hdr [H1 [H2 H3]]].
  - vm_compute; reflexivity.
  - exists hdr. split; [exact H1|]. split; [exact H2|].
    rewrite H3. vm_compute. reflexivity.
Defined.

(** On ASCII the Latin-1 tables hold the letters and the digits. *)
Lemma latin_ascii (f g : N -> bool) :
  forallb (fun n => Bool.eqb (f (N.of_nat n)) (g (N.of_nat n))) (seq 0 128)
  = true ->
  forall b, (b <? RuneSelf)%N = true -> f b = g b.
Proof.
  intros H b Hb. apply N.ltb_lt in Hb. unfold RuneSelf in Hb.
  rewrite forallb_forall in H. specialize (H (N.to_nat b)).
  rewrite N2Nat.id in H. apply eqb_prop, H. apply in_seq. lia.
Qed.

Lemma latinL_ascii (b : N) :
  (b <? RuneSelf)%N = true -> isL latinL latinM b = isASCIILetter b.
Proof. apply latin_ascii. vm_compute. reflexivity. Qed.

Lemma latinN_ascii (b : N) :
  (b <? RuneSelf)%N = true -> isN latinN b = isASCIIDigit b.
Proof. apply latin_ascii. vm_compute. reflexivity. Qed.

(** A word that ends in U+00E9 (two bytes in UTF-8), and an exclamation
    mark. *)
Definition cafe : gostring :=
  str "caf" ++ [ascii_of_nat 195; ascii_of_nat 169] ++ str "!".

Lemma slowSegmenter_agrees_witness :
  slowNext latinL latinM latinN cafe 0 = Next latinL latinM latinN cafe 0.
Proof.
  apply (@slowSegmenter_agrees latinL latinM latinN latinL_ascii latinN_ascii
           cafe 0).
Defined.

Lemma streaming_deltas_witness :
  state parserInContent = stContent /\
  snd (processAll asciiTrimSpace parserInContent [104; 105]%N) = None /\
  CurrentContent
    (fst (processAll asciiTrimSpace parserInContent [104; 105]%N))
  = CurrentContent parserInContent
    ++ concat (deltas asciiTrimSpace parserInContent [104; 105]%N).
Proof.
  assert (Hst : state parserInContent = stContent)
    by (vm_compute; reflexivity).
  split; [exact Hst|].
  destruct (@streaming_deltas asciiTrimSpace [104; 105]%N parserInContent Hst)
    as [H1 [H2 _]].
  - vm_compute. discriminate.
  - intros t [<-|[<-|[]]]; split; vm_compute;
      try reflexivity; discriminate.
  - split; [exact H1|exact H2].
Defined.

(** A table in which the rank 2 occurs twice and the rank 1 not at all. *)
Definition gapTable : list (gostring * Rank) :=
  [ (str "a", 0%N); (str "bc", 2%N); (str "zz", 2%N); (str "def", 3%N) ].

Lemma arena_agrees_heap_witness :
  (N.of_nat (bytesTotal gapTable) < 4294967296)%N /\
  AppendIntoArena (newTokenStoreArena gapTable) (str "x") 2%N
  = AppendInto (newTokenStore gapTable) (str "x") 2%N.
Proof.
  assert (Hsmall : (N.of_nat (bytesTotal gapTable) < 4294967296)%N)
    by (vm_compute; reflexivity).
  split; [exact Hsmall|].
  apply (@arena_agrees_heap gapTable (str "x") 2%N); [|exact Hsmall].
  intros p [<-|[<-|[<-|[<-|[]]]]]; discriminate.
Defined.
